(** * HIPStream: the HIP back end of BabelStream

    A shallow embedding of [src/hip/HIPStream.cpp]: the device array
    manager (constructor, destructor, [init_arrays], [read_arrays]), the
    kernel suite ([copy], [mul], [add], [triad], [nstream], [dot]) and the
    listing of the devices ([listDevices]).

    Conventions.
    - [size_t] values are integers reduced modulo [2^64]; the 32-bit
      products of the dot kernel are reduced modulo [2^32].
    - A device or host buffer is a [list] of elements; a load or a store
      outside the buffer has no defined behaviour and yields [None].
    - A kernel is written per thread, as in the source.  A launch runs the
      threads of the grid one after the other in the order chosen by the
      device ([schedule]), about which nothing is assumed except that it
      runs every thread of the grid once.  A kernel with barriers is cut at
      its barriers, and every piece is run over the whole grid before the
      next one starts; the reduction loop is also given as the code of the
      workers of one group, with a step relation in which the workers
      interleave freely between the barriers.
    - Launches and synchronisations are taken to report no error: the
      [check_error] calls of the kernel suite are left out, those of the
      constructor are kept.
    - The element type [T] of the template is abstract.  Its sum and product
      carry no laws, except where a statement says that it is read over
      exact arithmetic. *)

From stdpp Require Import base numbers option list relations strings.

Local Open Scope Z_scope.

(** ** Machine integers *)

Definition size_t (z : Z) : Z := z mod 2 ^ 64.
Definition uint32_t (z : Z) : Z := z mod 2 ^ 32.

(** [#define TBSIZE 1024] *)
Definition TBSIZE : Z := 1024.

(** [ceil_div(a, b) = (a + b - 1)/b], on [size_t]. *)
Definition ceil_div (a b : Z) : Z := size_t (a + b - 1) / b.

(** ** Buffers *)

Definition load {A} (p : list A) (i : Z) : option A :=
  if decide (0 ≤ i) then p !! Z.to_nat i else None.

Definition store {A} (p : list A) (i : Z) (v : A) : option (list A) :=
  if decide (0 ≤ i < Z.of_nat (length p)) then Some (<[Z.to_nat i := v]> p) else None.

(** ** Threads and launches *)

(** The built-in coordinates of a thread (all along [x]). *)
Record thread := Thread {
  threadIdx : Z;
  blockIdx : Z;
  blockDim : Z;
  gridDim : Z
}.

(** The threads of a grid, as pairs (block, thread in block). *)
Definition threads (grid block : Z) : list (Z * Z) :=
  b ← seqZ 0 grid; (λ t, (b, t)) <$> seqZ 0 block.

(** Running a piece of per-thread code over the threads of [sched], in that
    order. *)
Fixpoint run_threads {S} (grid block : Z) (code : thread → S → option S)
    (sched : list (Z * Z)) (s : S) : option S :=
  match sched with
  | [] => Some s
  | (b, t) :: rest =>
      s' ← code (Thread t b block grid) s;
      run_threads grid block code rest s'
  end.

(** The loop shared by the kernels,
    [for (i = first; i < array_size; i += stride) body(i)], with [i] a
    [size_t].  [fuel] bounds the number of iterations; [None] is a fault in
    the body or a loop that outlasts the fuel. *)
Fixpoint grid_stride {S} (fuel : nat) (body : Z → S → option S)
    (i stride array_size : Z) (s : S) : option S :=
  if i <? array_size then
    match fuel with
    | O => None
    | S fuel' =>
        s' ← body i s;
        grid_stride fuel' body (size_t (i + stride)) stride array_size s'
    end
  else Some s.

(** [(size_t)threadIdx.x + (size_t)blockDim.x * blockIdx.x] *)
Definition global_id (th : thread) : Z :=
  size_t (threadIdx th + size_t (blockDim th * blockIdx th)).

(** [(size_t)gridDim.x * blockDim.x] *)
Definition grid_size (th : thread) : Z := size_t (gridDim th * blockDim th).

(** Monadic iteration over a list of indices: a counted host loop. *)
Fixpoint for_each {S} (body : Z → S → option S) (indices : list Z) (s : S) : option S :=
  match indices with
  | [] => Some s
  | i :: rest => s' ← body i s; for_each body rest s'
  end.

(** ** The element type and the device *)

(** The element type [T] of [template <class T>] with its arithmetic.
    [fzero] is [T{}]; [startScalar] is the constant of [Stream.h] that
    [mul], [triad] and [nstream] use. *)
Class Element (T : Type) := {
  fzero : T;
  fadd : T → T → T;
  fmul : T → T → T;
  startScalar : T
}.

(** Exact arithmetic: the sum is commutative and associative with [fzero]
    as its unit.  The floating-point instances of the template satisfy this
    only up to rounding. *)
Class Exact (T : Type) `{Element T} : Prop := {
  fadd_comm : ∀ x y : T, fadd x y = fadd y x;
  fadd_assoc : ∀ x y z : T, fadd x (fadd y z) = fadd (fadd x y) z;
  fadd_zero : ∀ x : T, fadd fzero x = x
}.

(** What the device decides: the order in which the threads of a grid run,
    and the contents of memory that was never written (by cell). *)
Class Device (T : Type) := {
  schedule : Z → Z → list (Z * Z);
  uninit : Z → T
}.

(** The schedule runs every thread of the grid, once. *)
Class Fair (T : Type) `{Device T} : Prop :=
  fair : ∀ grid block, schedule grid block ≡ₚ threads grid block.

(** ** The HIP runtime, as the constructor sees it *)

Inductive hipError_t := hipSuccess | hipError (code : positive).

(** How a construction can fail: the two exceptions of the constructor, and
    the termination of the process by [check_error]. *)
Inductive failure :=
  | InvalidDevice
  | InsufficientMemory
  | DeviceOperationFailed (err : hipError_t).

(** The four buffers a stream owns: [sums], [d_a], [d_b] and [d_c].  The
    pointers a kernel gets are pointers to them. *)
Inductive buffer := PartialSums | BufferA | BufferB | BufferC.

(** The two fields of [hipDeviceProp_t] the constructor reads. *)
Record hipDeviceProp_t := DeviceProp {
  multiProcessorCount : Z;
  totalGlobalMem : Z
}.

(** The answers of the runtime to the calls of the constructor: a status
    and, where the call has one, a result.  The allocation calls are told
    apart by the buffer they are made for; their argument is the number of
    bytes. *)
Record runtime := Runtime {
  hipGetDeviceCount : hipError_t * Z;
  hipSetDevice : Z → hipError_t;
  hipGetDeviceProperties : Z → hipError_t * hipDeviceProp_t;
  hipDriverGetVersion : hipError_t;
  hipHostMalloc : Z → hipError_t;
  hipMalloc : buffer → Z → hipError_t;
  hipMallocManaged : buffer → Z → hipError_t
}.

(** A construction in progress: the buffers allocated so far go in and
    out, next to a value or the failure that ended the construction. *)
Definition ctor (A : Type) : Type := list buffer → list buffer * (failure + A).

Definition ctor_ret {A} (a : A) : ctor A := λ bufs, (bufs, inr a).

Definition ctor_bind {A B} (m : ctor A) (k : A → ctor B) : ctor B :=
  λ bufs,
    match m bufs with
    | (bufs', inr a) => k a bufs'
    | (bufs', inl f) => (bufs', inl f)
    end.

Notation "x ←ᶜ m ; k" := (ctor_bind m (λ x, k))
  (at level 100, m at next level, right associativity, only parsing).
Notation "m ;ᶜ k" := (ctor_bind m (λ _, k))
  (at level 100, right associativity, only parsing).

(** [throw std::runtime_error(...)] *)
Definition throw {A} (f : failure) : ctor A := λ bufs, (bufs, inl f).

(** [check_error()] after a call that answered [err]. *)
Definition check_error (err : hipError_t) : ctor unit :=
  match err with
  | hipSuccess => ctor_ret ()
  | hipError _ => throw (DeviceOperationFailed err)
  end.

(** An allocation call that answered [err]: the buffer exists from here on
    when the call succeeded. *)
Definition allocated (buf : buffer) (err : hipError_t) : ctor unit :=
  λ bufs,
    match err with
    | hipSuccess => (bufs ++ [buf], inr ())
    | hipError _ => (bufs, inr ())
    end.

(** The three builds of the source: default, [MANAGED], [PAGEFAULT]. *)
Inductive Residency := DeviceOnly | Managed | HostPagefault.

(** The members of [HIPStream<T>]. *)
Record HIPStream (T : Type) := Stream {
  array_size : Z;
  dot_num_blocks : Z;
  sums : list T;
  d_a : list T;
  d_b : list T;
  d_c : list T
}.
Arguments Stream {T}.
Arguments array_size {T}.
Arguments dot_num_blocks {T}.
Arguments sums {T}.
Arguments d_a {T}.
Arguments d_b {T}.
Arguments d_c {T}.

(** What [read_arrays] leaves in the vectors of the caller, with the number
    of elements it moved into each. *)
Record HostArrays (T : Type) := Host {
  host_a : list T;
  host_b : list T;
  host_c : list T;
  moved_a : nat;
  moved_b : nat;
  moved_c : nat
}.
Arguments Host {T}.
Arguments host_a {T}.
Arguments host_b {T}.
Arguments host_c {T}.
Arguments moved_a {T}.
Arguments moved_b {T}.
Arguments moved_c {T}.

Section HIPStream.

Context {T : Type} `{Element T} `{Device T}.

Definition with_a (st : HIPStream T) (a : list T) : HIPStream T :=
  Stream (array_size st) (dot_num_blocks st) (sums st) a (d_b st) (d_c st).
Definition with_b (st : HIPStream T) (b : list T) : HIPStream T :=
  Stream (array_size st) (dot_num_blocks st) (sums st) (d_a st) b (d_c st).
Definition with_c (st : HIPStream T) (c : list T) : HIPStream T :=
  Stream (array_size st) (dot_num_blocks st) (sums st) (d_a st) (d_b st) c.
Definition with_sums (st : HIPStream T) (s : list T) : HIPStream T :=
  Stream (array_size st) (dot_num_blocks st) s (d_a st) (d_b st) (d_c st).

(** The buffer a pointer points to, in a stream. *)
Definition contents (st : HIPStream T) (p : buffer) : list T :=
  match p with
  | PartialSums => sums st
  | BufferA => d_a st
  | BufferB => d_b st
  | BufferC => d_c st
  end.

Definition with_contents (st : HIPStream T) (p : buffer) (l : list T) : HIPStream T :=
  match p with
  | PartialSums => with_sums st l
  | BufferA => with_a st l
  | BufferB => with_b st l
  | BufferC => with_c st l
  end.

(** [p[i]] and [p[i] = v] in a kernel. *)
Definition read (st : HIPStream T) (p : buffer) (i : Z) : option T :=
  load (contents st p) i.

Definition write (st : HIPStream T) (p : buffer) (i : Z) (v : T) : option (HIPStream T) :=
  l ← store (contents st p) i v; Some (with_contents st p l).

(** Modelled from the spec: the launch primitive
    [kernel<<<dim3(grid), dim3(block), 0, 0>>>(...)] of the HIP runtime,
    whose [dim3] is not declared in the source.  The grid has the number of
    blocks the host passes ("grid size is [ceil(array_size / group_size)]")
    and, with the [hipDeviceSynchronize()] that follows, the call returns
    when every thread is done. *)
Definition launch {S} (grid block : Z) (kernel : thread → S → option S)
    (s : S) : option S :=
  run_threads grid block kernel (schedule grid block) s.

(** ** The element-wise kernels

    A kernel gets its pointers and the size, as in the source, and runs on
    the memory of the device, which is the buffers of the stream. *)

Definition init_kernel (fuel : nat) (a b c : buffer) (initA initB initC : T)
    (array_size : Z) (th : thread) (m : HIPStream T) : option (HIPStream T) :=
  grid_stride fuel
    (λ i m,
       m ← write m a i initA;
       m ← write m b i initB;
       write m c i initC)
    (global_id th) (grid_size th) array_size m.

Definition copy_kernel (fuel : nat) (a c : buffer) (array_size : Z)
    (th : thread) (m : HIPStream T) : option (HIPStream T) :=
  grid_stride fuel
    (λ i m, x ← read m a i; write m c i x)
    (global_id th) (grid_size th) array_size m.

Definition mul_kernel (fuel : nat) (b c : buffer) (array_size : Z)
    (th : thread) (m : HIPStream T) : option (HIPStream T) :=
  let scalar := startScalar in
  grid_stride fuel
    (λ i m, z ← read m c i; write m b i (fmul scalar z))
    (global_id th) (grid_size th) array_size m.

Definition add_kernel (fuel : nat) (a b c : buffer) (array_size : Z)
    (th : thread) (m : HIPStream T) : option (HIPStream T) :=
  grid_stride fuel
    (λ i m, x ← read m a i; y ← read m b i; write m c i (fadd x y))
    (global_id th) (grid_size th) array_size m.

Definition triad_kernel (fuel : nat) (a b c : buffer) (array_size : Z)
    (th : thread) (m : HIPStream T) : option (HIPStream T) :=
  let scalar := startScalar in
  grid_stride fuel
    (λ i m, y ← read m b i; z ← read m c i; write m a i (fadd y (fmul scalar z)))
    (global_id th) (grid_size th) array_size m.

Definition nstream_kernel (fuel : nat) (a b c : buffer) (array_size : Z)
    (th : thread) (m : HIPStream T) : option (HIPStream T) :=
  let scalar := startScalar in
  grid_stride fuel
    (λ i m,
       x ← read m a i; y ← read m b i; z ← read m c i;
       write m a i (fadd x (fadd y (fmul scalar z))))
    (global_id th) (grid_size th) array_size m.

(** The host side.  [array_size] is an [intptr_t] member; it reaches
    [ceil_div] and the kernels as a [size_t].  The pointers [d_a], [d_b],
    [d_c] and [sums] are [BufferA], [BufferB], [BufferC] and
    [PartialSums].  The fuel of the kernels is the length of the arrays,
    which no loop with a positive stride exceeds. *)
Definition loop_fuel (st : HIPStream T) : nat := Z.to_nat (size_t (array_size st)).

Definition init_arrays (initA initB initC : T) (st : HIPStream T) : option (HIPStream T) :=
  let blocks := ceil_div (size_t (array_size st)) TBSIZE in
  launch blocks TBSIZE
    (init_kernel (loop_fuel st) BufferA BufferB BufferC initA initB initC
       (size_t (array_size st))) st.

Definition copy (st : HIPStream T) : option (HIPStream T) :=
  let blocks := ceil_div (size_t (array_size st)) TBSIZE in
  launch blocks TBSIZE
    (copy_kernel (loop_fuel st) BufferA BufferC (size_t (array_size st))) st.

Definition mul (st : HIPStream T) : option (HIPStream T) :=
  let blocks := ceil_div (size_t (array_size st)) TBSIZE in
  launch blocks TBSIZE
    (mul_kernel (loop_fuel st) BufferB BufferC (size_t (array_size st))) st.

Definition add (st : HIPStream T) : option (HIPStream T) :=
  let blocks := ceil_div (size_t (array_size st)) TBSIZE in
  launch blocks TBSIZE
    (add_kernel (loop_fuel st) BufferA BufferB BufferC (size_t (array_size st))) st.

Definition triad (st : HIPStream T) : option (HIPStream T) :=
  let blocks := ceil_div (size_t (array_size st)) TBSIZE in
  launch blocks TBSIZE
    (triad_kernel (loop_fuel st) BufferA BufferB BufferC (size_t (array_size st))) st.

Definition nstream (st : HIPStream T) : option (HIPStream T) :=
  let blocks := ceil_div (size_t (array_size st)) TBSIZE in
  launch blocks TBSIZE
    (nstream_kernel (loop_fuel st) BufferA BufferB BufferC (size_t (array_size st))) st.

(** ** Reading the arrays back *)

(** [hipMemcpy(dst.data(), src, count*sizeof(T), hipMemcpyDeviceToHost)]:
    [count] elements, which both buffers must hold. *)
Definition hipMemcpy (dst src : list T) (count : nat) : option (list T) :=
  if decide (count ≤ length src ∧ count ≤ length dst)%nat
  then Some (take count src ++ drop count dst) else None.

(** One turn of the loop of the [MANAGED] and [PAGEFAULT] builds. *)
Definition read_element (st : HIPStream T) (i : Z) (h : HostArrays T) : option (HostArrays T) :=
  x ← load (d_a st) i; a ← store (host_a h) i x;
  y ← load (d_b st) i; b ← store (host_b h) i y;
  z ← load (d_c st) i; c ← store (host_c h) i z;
  Some (Host a b c (S (moved_a h)) (S (moved_b h)) (S (moved_c h))).

Definition read_arrays (r : Residency) (st : HIPStream T) (a b c : list T) :
    option (HostArrays T) :=
  match r with
  | DeviceOnly =>
      a' ← hipMemcpy a (d_a st) (length a);
      b' ← hipMemcpy b (d_b st) (length b);
      c' ← hipMemcpy c (d_c st) (length c);
      Some (Host a' b' c' (length a) (length b) (length c))
  | Managed | HostPagefault =>
      for_each (read_element st) (seqZ 0 (array_size st)) (Host a b c 0 0 0)%nat
  end.

(** ** The dot product *)

(** [dot_kernel] up to its first barrier (lines 250 to 255): the thread
    clears its slot of [tb_sum] and adds its products into it.  The first
    index and the stride are 32-bit products. *)
Definition dot_accumulate (fuel : nat) (a b : buffer) (array_size : Z)
    (m : HIPStream T) (th : thread) (tb_sum : list T) : option (list T) :=
  let local_i := threadIdx th in
  let i := size_t (uint32_t (blockDim th * blockIdx th) + local_i) in
  tb ← store tb_sum local_i fzero;
  grid_stride fuel
    (λ i tb,
       x ← read m a i; y ← read m b i; acc ← load tb local_i;
       store tb local_i (fadd acc (fmul x y)))
    i (uint32_t (blockDim th * gridDim th)) array_size tb.

(** The offsets of the loop at line 257,
    [for (offset = blockDim.x / 2; offset > 0; offset /= 2)]. *)
Fixpoint halving (fuel : nat) (offset : Z) : list Z :=
  match fuel with
  | O => []
  | S fuel' => if 0 <? offset then offset :: halving fuel' (offset / 2) else []
  end.

Definition reduce_offsets (block : Z) : list Z := halving (Z.to_nat block) (block / 2).

(** The body of that loop after its barrier (lines 260 to 263). *)
Definition dot_reduce (offset : Z) (th : thread) (tb_sum : list T) : option (list T) :=
  let local_i := threadIdx th in
  if local_i <? offset then
    x ← load tb_sum local_i;
    y ← load tb_sum (size_t (local_i + offset));
    store tb_sum local_i (fadd x y)
  else Some tb_sum.

(** Lines 266 and 267. *)
Definition dot_result (sum : buffer) (tb_sum : list T) (th : thread)
    (m : HIPStream T) : option (HIPStream T) :=
  let local_i := threadIdx th in
  if local_i =? 0 then x ← load tb_sum local_i; write m sum (blockIdx th) x
  else Some m.

(** [tb_sum] is [__shared__]: one array of [TBSIZE] slots per block. *)
Definition in_block (code : thread → list T → option (list T)) (th : thread)
    (shared : list (list T)) : option (list (list T)) :=
  tb ← load shared (blockIdx th);
  tb' ← code th tb;
  store shared (blockIdx th) tb'.

(** The launch of [dot_kernel]: the piece before the first barrier, then
    one piece per turn of the reduction loop, then the write of the
    result; each piece is run by all threads before the next one.  Only
    the last piece writes the memory of the device. *)
Definition launch_dot_kernel (grid block : Z) (fuel : nat) (a b sum : buffer)
    (array_size : Z) (m : HIPStream T) : option (HIPStream T) :=
  let shared := replicate (Z.to_nat grid) (uninit <$> seqZ 0 TBSIZE) in
  shared ← launch grid block (in_block (dot_accumulate fuel a b array_size m)) shared;
  shared ← for_each
      (λ offset shared, launch grid block (in_block (dot_reduce offset)) shared)
      (reduce_offsets block) shared;
  launch grid block
    (λ th m, tb ← load shared (blockIdx th); dot_result sum tb th m) m.

Definition dot (st : HIPStream T) : option (T * HIPStream T) :=
  st ← launch_dot_kernel (dot_num_blocks st) TBSIZE (loop_fuel st)
        BufferA BufferB PartialSums (size_t (array_size st)) st;
  sum ← for_each (λ i sum, x ← load (sums st) i; Some (fadd sum x))
        (seqZ 0 (dot_num_blocks st)) fzero;
  Some (sum, st).

(** The inner product as the host would compute it, one index after the
    other. *)
Definition inner_product (a b : list T) : T :=
  foldl (λ sum xy, fadd sum (fmul xy.1 xy.2)) fzero (zip a b).

(** ** The reduction loop, worker by worker

    The loop of lines 257 to 264 as the instructions every worker of a
    group goes through: a barrier, then the guarded add. *)
Inductive instr := Sync | GuardedAdd (offset : Z).

Definition code_of (offsets : list Z) : list instr :=
  offset ← offsets; [Sync; GuardedAdd offset].

Definition reduction_code (block : Z) : list instr := code_of (reduce_offsets block).

(** A group at some moment: its [tb_sum] and, per worker (by [local_i]),
    the instructions it has not yet executed. *)
Record group := Group {
  tb_sum : list T;
  workers : list (list instr)
}.

Definition group_start (block : Z) (tb : list T) : group :=
  Group tb (replicate (Z.to_nat block) (reduction_code block)).

(** A worker that is not at a barrier executes its next instruction; the
    barrier lets the workers through when all of them have reached it. *)
Inductive group_step : group → group → Prop :=
  | step_worker tb tb' ws l offset rest th :
      ws !! l = Some (GuardedAdd offset :: rest) →
      threadIdx th = Z.of_nat l →
      dot_reduce offset th tb = Some tb' →
      group_step (Group tb ws) (Group tb' (<[l := rest]> ws))
  | step_barrier tb ws :
      Forall (λ w, head w = Some Sync) ws →
      group_step (Group tb ws) (Group tb (tail <$> ws)).

Definition finished (g : group) : Prop := Forall (λ w, w = []) (workers g).

(** A group is deadlocked when some worker has instructions left and
    nothing can move. *)
Definition deadlocked (g : group) : Prop :=
  ¬ finished g ∧ ∀ g', ¬ group_step g g'.

(** ** The constructor *)

(** [getDeviceName(device)] and [getDeviceDriver(device)], for what they
    can do to the construction. *)
Definition getDeviceName (rt : runtime) (device : Z) : ctor unit :=
  check_error (hipGetDeviceProperties rt device).1.

Definition getDeviceDriver (rt : runtime) (device : Z) : ctor unit :=
  check_error (hipSetDevice rt device);ᶜ
  check_error (hipDriverGetVersion rt).

(** A buffer of [bytes] bytes that nobody has written. *)
Definition fresh (sizeofT bytes : Z) : list T := uninit <$> seqZ 0 (bytes / sizeofT).

(** [HIPStream<T>::HIPStream(ARRAY_SIZE, device_index)], for the build [r]
    and an element type of [sizeofT] bytes.  What is printed is left out.
    [dot_num_blocks] is an [int] product, taken without overflow.  The
    [malloc] of the [PAGEFAULT] build, which the source does not check, is
    taken to succeed. *)
Definition construct (r : Residency) (rt : runtime) (sizeofT : Z)
    (ARRAY_SIZE device_index : Z) : ctor (HIPStream T) :=
  let count := (hipGetDeviceCount rt).2 in
  check_error (hipGetDeviceCount rt).1;ᶜ
  (if device_index >=? count then throw InvalidDevice else ctor_ret ());ᶜ
  check_error (hipSetDevice rt device_index);ᶜ
  getDeviceName rt device_index;ᶜ
  getDeviceDriver rt device_index;ᶜ
  let props := (hipGetDeviceProperties rt device_index).2 in
  check_error (hipGetDeviceProperties rt device_index).1;ᶜ
  let array_size := ARRAY_SIZE in
  let dot_num_blocks := multiProcessorCount props * 4 in
  let array_bytes := size_t (sizeofT * size_t ARRAY_SIZE) in
  let sums_bytes := size_t (sizeofT * size_t dot_num_blocks) in
  allocated PartialSums (hipHostMalloc rt sums_bytes);ᶜ
  check_error (hipHostMalloc rt sums_bytes);ᶜ
  (if totalGlobalMem props <? size_t (3 * array_bytes)
   then throw InsufficientMemory else ctor_ret ());ᶜ
  match r with
  | Managed =>
      allocated BufferA (hipMallocManaged rt BufferA array_bytes);ᶜ
      check_error (hipMallocManaged rt BufferA array_bytes);ᶜ
      allocated BufferB (hipMallocManaged rt BufferB array_bytes);ᶜ
      check_error (hipMallocManaged rt BufferB array_bytes);ᶜ
      allocated BufferC (hipMallocManaged rt BufferC array_bytes);ᶜ
      check_error (hipMallocManaged rt BufferC array_bytes)
  | HostPagefault =>
      allocated BufferA hipSuccess;ᶜ
      allocated BufferB hipSuccess;ᶜ
      allocated BufferC hipSuccess
  | DeviceOnly =>
      allocated BufferA (hipMalloc rt BufferA array_bytes);ᶜ
      check_error (hipMalloc rt BufferA array_bytes);ᶜ
      allocated BufferB (hipMalloc rt BufferB array_bytes);ᶜ
      check_error (hipMalloc rt BufferB array_bytes);ᶜ
      allocated BufferC (hipMalloc rt BufferC array_bytes);ᶜ
      check_error (hipMalloc rt BufferC array_bytes)
  end;ᶜ
  ctor_ret (Stream array_size dot_num_blocks
              (fresh sizeofT sums_bytes)
              (fresh sizeofT array_bytes)
              (fresh sizeofT array_bytes)
              (fresh sizeofT array_bytes)).

(** A construction starts with no buffer. *)
Definition HIPStream_new (r : Residency) (rt : runtime) (sizeofT : Z)
    (ARRAY_SIZE device_index : Z) : list buffer * (failure + HIPStream T) :=
  construct r rt sizeofT ARRAY_SIZE device_index [].

End HIPStream.

(** ** Notions used in the statements *)

(** The global identifier of thread [t] of block [b]. *)
Definition gid (block : Z) (bt : Z * Z) : Z := bt.2 + block * bt.1.

(** The cells of the threads of [done]: those whose index falls on the
    global identifier of one of them, modulo the size of the grid. *)
Definition cells_of (block stride : Z) (done : list (Z * Z)) (j : Z) : Prop :=
  ∃ bt, bt ∈ done ∧ j mod stride = gid block bt.

(** [s] is [s0] with [f] applied to the cells below [n] that [P] selects;
    [cell] reads a cell of a state and [inv] is what all states satisfy. *)
Definition updated_where {S X} (cell : S → Z → option X) (f : Z → X → X)
    (inv : S → Prop) (n : Z) (s0 : S) (P : Z → Prop) (s : S) : Prop :=
  inv s ∧
  ∀ j, (0 ≤ j < n → P j → cell s j = f j <$> cell s0 j) ∧
       (¬ (0 ≤ j < n ∧ P j) → cell s j = cell s0 j).

(** The element at [i] of a buffer ([fzero] outside of it). *)
Definition elt {T} `{Element T} (p : list T) (i : Z) : T := default fzero (load p i).

(** [init_kernel] writes three buffers; a cell of its state is a triple. *)
Definition cell3 {T} (abc : list T * list T * list T) (j : Z) : option (T * T * T) :=
  x ← load abc.1.1 j; y ← load abc.1.2 j; z ← load abc.2 j; Some (x, y, z).

(** The sum of [f] over a list of indices. *)
Definition sum_over {T} `{Element T} (f : Z → T) (l : list Z) : T :=
  foldr (λ i acc, fadd (f i) acc) fzero l.

(** The product at index [i]. *)
Definition prod_at {T} `{Element T} (a b : list T) (i : Z) : T :=
  fmul (elt a i) (elt b i).

(** The indices below [n] that a thread of identifier [g] visits when the
    grid has [stride] threads, and the sum of the products over them. *)
Definition visited (stride n g : Z) : list Z :=
  filter (λ i, i mod stride = g) (seqZ 0 n).

Definition thread_sum {T} `{Element T} (a b : list T) (stride n g : Z) : T :=
  sum_over (prod_at a b) (visited stride n g).

(** What the group of block [blk] leaves in slot 0 of its [tb_sum]: the sum
    of its threads. *)
Definition block_sum {T} `{Element T} (a b : list T) (grid n blk : Z) : T :=
  sum_over (λ t, thread_sum a b (TBSIZE * grid) n (gid TBSIZE (blk, t))) (seqZ 0 TBSIZE).

(** Offsets that halve [m] down to one. *)
Fixpoint halves (m : Z) (offsets : list Z) : Prop :=
  match offsets with
  | [] => m = 1
  | offset :: rest => 0 < offset ∧ m = 2 * offset ∧ halves offset rest
  end.

(** What the guarded add of worker [t] leaves in its slot, from the
    [tb_sum] the turn started with. *)
Definition guarded_add {T} `{Element T} (offset t : Z) (tb : list T) : T :=
  if decide (t < offset) then fadd (elt tb t) (elt tb (t + offset)) else elt tb t.

(** [tb'] is [tb] after the guarded adds of a turn of the reduction loop. *)
Definition halved {T} `{Element T} (offset : Z) (tb tb' : list T) : Prop :=
  length tb' = length tb ∧
  ∀ t, 0 ≤ t < Z.of_nat (length tb) → load tb' t = Some (guarded_add offset t tb).

(** The instructions the workers of a group have left, all together. *)
Definition remaining {T} (g : group (T:=T)) : nat :=
  foldr (λ w n, (length w + n)%nat) 0%nat (workers g).

(** A group of [block] workers between two turns of the reduction loop:
    every worker has the code of the turns [offsets] left, and the [m]
    first slots add up to [total]. *)
Definition at_barrier {T} `{Element T} (block : Z) (total : T) (g : group) : Prop :=
  ∃ m offsets,
    halves m offsets ∧ m ≤ block ∧ Z.of_nat (length (tb_sum g)) = block ∧
    workers g = replicate (Z.to_nat block) (code_of offsets) ∧
    sum_over (elt (tb_sum g)) (seqZ 0 m) = total.

(** A group inside the turn of [offset], which started from [tb0]: the
    workers of [D] have done their guarded add, the others are about to. *)
Definition in_turn {T} `{Element T} (block : Z) (total : T) (g : group) : Prop :=
  ∃ offset offsets (tb0 : list T) (D : list nat),
    0 < offset ∧ 2 * offset ≤ block ∧ halves offset offsets ∧
    Z.of_nat (length tb0) = block ∧ Z.of_nat (length (tb_sum g)) = block ∧
    Z.of_nat (length (workers g)) = block ∧
    sum_over (elt tb0) (seqZ 0 (2 * offset)) = total ∧
    ∀ l : nat, Z.of_nat l < block →
      workers g !! l = Some (if decide (l ∈ D) then code_of offsets
                             else GuardedAdd offset :: code_of offsets) ∧
      load (tb_sum g) (Z.of_nat l)
        = Some (if decide (l ∈ D) then guarded_add offset (Z.of_nat l) tb0
                else elt tb0 (Z.of_nat l)).

(** The calls of the constructor that come before the check of the memory
    all succeed. *)
Definition reaches_memory_check (rt : runtime) (device_index sums_bytes : Z) : Prop :=
  (hipGetDeviceCount rt).1 = hipSuccess ∧
  device_index < (hipGetDeviceCount rt).2 ∧
  hipSetDevice rt device_index = hipSuccess ∧
  (hipGetDeviceProperties rt device_index).1 = hipSuccess ∧
  hipDriverGetVersion rt = hipSuccess ∧
  hipHostMalloc rt sums_bytes = hipSuccess.

(** What holds of every group the reduction loop goes through. *)
Definition reducing {T} `{Element T} (block : Z) (total : T) (g : group) : Prop :=
  at_barrier block total g ∨ in_turn block total g.

(** [shared] is [shared0] where the slots of the threads of [done] hold
    what [new] gives for the block, the thread and the [tb_sum] the block
    started with. *)
Definition slots_written {T} `{Element T} (new : Z → Z → list T → T)
    (grid block : Z) (shared0 : list (list T)) (done : list (Z * Z))
    (shared : list (list T)) : Prop :=
  length shared = length shared0 ∧
  ∀ b tb0, 0 ≤ b < grid → load shared0 b = Some tb0 →
    ∃ tb, load shared b = Some tb ∧ length tb = length tb0 ∧
      ∀ t, 0 ≤ t < block →
        load tb t = Some (if decide ((b, t) ∈ done) then new b t tb0 else elt tb0 t).

(** One [tb_sum] of [block] slots per block of the grid. *)
Definition shared_shape {T} (grid block : Z) (shared : list (list T)) : Prop :=
  Z.of_nat (length shared) = grid ∧
  ∀ b tb, load shared b = Some tb → Z.of_nat (length tb) = block.

(** A stream as a successful construction leaves it and the kernels keep
    it: a positive length that fits [intptr_t], and three arrays of that
    length. *)
Record well_formed {T} (st : HIPStream T) : Prop := WellFormed {
  wf_size : 1 ≤ array_size st < 2 ^ 63;
  wf_a : Z.of_nat (length (d_a st)) = array_size st;
  wf_b : Z.of_nat (length (d_b st)) = array_size st;
  wf_c : Z.of_nat (length (d_c st)) = array_size st
}.

(** What the dot product needs of the grid of the reduction: at least one
    block, a 32-bit number of threads, and one partial sum per block. *)
Record dot_ready {T} (st : HIPStream T) : Prop := DotReady {
  dr_blocks : 1 ≤ dot_num_blocks st;
  dr_threads : TBSIZE * dot_num_blocks st < 2 ^ 32;
  dr_sums : Z.of_nat (length (sums st)) = dot_num_blocks st
}.

(** ** The calls of a host *)

(** The calls a host can make on a stream, and a sequence of them. *)
Inductive call (T : Type) :=
  | InitArrays (initA initB initC : T)
  | Copy
  | Mul
  | Add
  | Triad
  | Nstream
  | Dot.
Arguments InitArrays {T}.
Arguments Copy {T}.
Arguments Mul {T}.
Arguments Add {T}.
Arguments Triad {T}.
Arguments Nstream {T}.
Arguments Dot {T}.

Definition run_call {T} `{Element T} `{Device T} (c : call T) (st : HIPStream T) :
    option (HIPStream T) :=
  match c with
  | InitArrays initA initB initC => init_arrays initA initB initC st
  | Copy => copy st
  | Mul => mul st
  | Add => add st
  | Triad => triad st
  | Nstream => nstream st
  | Dot => snd <$> dot st
  end.

Fixpoint run_calls {T} `{Element T} `{Device T} (cs : list (call T)) (st : HIPStream T) :
    option (HIPStream T) :=
  match cs with
  | [] => Some st
  | c :: rest => st' ← run_call c st; run_calls rest st'
  end.

(** One turn of the benchmark on the values of the three arrays: what
    [copy], [mul], [add] and [triad], in this order, make of them. *)
Definition gold_step {T} `{Element T} (abc : T * T * T) : T * T * T :=
  let '(a, b, c) := abc in
  let c := a in
  let b := fmul startScalar c in
  let c := fadd a b in
  let a := fadd b (fmul startScalar c) in
  (a, b, c).

(** A stream whose arrays hold the same value everywhere. *)
Definition uniform {T} (st : HIPStream T) (abc : T * T * T) : HIPStream T :=
  let n := Z.to_nat (array_size st) in
  Stream (array_size st) (dot_num_blocks st) (sums st)
    (replicate n abc.1.1) (replicate n abc.1.2) (replicate n abc.2).


(** A loop body that does nothing but note the index it is given. *)
Definition record_index (i : Z) (log : list Z) : option (list Z) := Some (log ++ [i]).

(** ** The dot product, addition by addition *)

(** The sum of thread [g] as the loop of lines 253 to 255 accumulates it:
    from [T{}], one product after the other, by increasing index. *)
Definition thread_acc {T} `{Element T} (a b : list T) (stride n g : Z) : T :=
  foldl (λ acc i, fadd acc (prod_at a b i)) fzero (visited stride n g).

(** A whole [tb_sum] after the turn of [offset] of the reduction loop. *)
Definition reduce_turn {T} `{Element T} (tb : list T) (offset : Z) : list T :=
  (λ t, guarded_add offset t tb) <$> seqZ 0 (Z.of_nat (length tb)).

(** What block [blk] writes to the partial sums, with the additions in the
    order of the kernel. *)
Definition block_partial {T} `{Element T} (a b : list T) (grid n blk : Z) : T :=
  elt (foldl reduce_turn
         ((λ t, thread_acc a b (TBSIZE * grid) n (gid TBSIZE (blk, t))) <$> seqZ 0 TBSIZE)
         (reduce_offsets TBSIZE)) 0.

(** What [dot] returns, with the additions in the order of the host. *)
Definition dot_reference {T} `{Element T} (a b : list T) (grid n : Z) : T :=
  foldl (λ sum blk, fadd sum (block_partial a b grid n blk)) fzero (seqZ 0 grid).

(** A group of [block] workers between two turns of the reduction loop
    over the offsets [all], which started from [tb_init]: the turns of
    [done] are over, every worker has the code of the others left, and
    [tb_sum] is what these turns make of [tb_init]. *)
Definition between_turns {T} `{Element T} (block : Z) (tb_init : list T)
    (all : list Z) (g : group) : Prop :=
  ∃ done rest,
    all = done ++ rest ∧
    Z.of_nat (length (tb_sum g)) = block ∧
    workers g = replicate (Z.to_nat block) (code_of rest) ∧
    tb_sum g = foldl reduce_turn tb_init done.

(** The same group inside the turn of [offset]: the workers of [D] have
    done their guarded add, the others are about to. *)
Definition within_turn {T} `{Element T} (block : Z) (tb_init : list T)
    (all : list Z) (g : group) : Prop :=
  ∃ done offset rest (D : list nat),
    all = done ++ offset :: rest ∧
    Z.of_nat (length (tb_sum g)) = block ∧
    Z.of_nat (length (workers g)) = block ∧
    ∀ l : nat, Z.of_nat l < block →
      workers g !! l = Some (if decide (l ∈ D) then code_of rest
                             else GuardedAdd offset :: code_of rest) ∧
      load (tb_sum g) (Z.of_nat l)
        = Some (if decide (l ∈ D)
                then guarded_add offset (Z.of_nat l) (foldl reduce_turn tb_init done)
                else elt (foldl reduce_turn tb_init done) (Z.of_nat l)).

(** What holds of every group the loop goes through, whatever the
    arithmetic. *)
Definition in_step {T} `{Element T} (block : Z) (tb_init : list T)
    (all : list Z) (g : group) : Prop :=
  between_turns block tb_init all g ∨ within_turn block tb_init all g.

(** ** The destructor *)

(** The answers of the runtime to the calls of the destructor. *)
Record release := Release {
  hipHostFree : hipError_t;
  hipFree : buffer → hipError_t
}.

#[global] Instance buffer_eq_dec : EqDecision buffer.
Proof. solve_decision. Defined.

(** A release call that answered [err]: the buffer is gone when the call
    succeeded. *)
Definition released (buf : buffer) (err : hipError_t) : ctor unit :=
  λ bufs,
    match err with
    | hipSuccess => (filter (λ b, b ≠ buf) bufs, inr ())
    | hipError _ => (bufs, inr ())
    end.

(** [HIPStream<T>::~HIPStream()], on the buffers that are allocated. *)
Definition HIPStream_delete (rl : release) : ctor unit :=
  released PartialSums (hipHostFree rl);ᶜ
  check_error (hipHostFree rl);ᶜ
  released BufferA (hipFree rl BufferA);ᶜ
  check_error (hipFree rl BufferA);ᶜ
  released BufferB (hipFree rl BufferB);ᶜ
  check_error (hipFree rl BufferB);ᶜ
  released BufferC (hipFree rl BufferC);ᶜ
  check_error (hipFree rl BufferC).

(** The calls that allocate the three arrays all succeed. *)
Definition arrays_allocated (r : Residency) (rt : runtime) (array_bytes : Z) : Prop :=
  match r with
  | DeviceOnly => ∀ buf, buf ≠ PartialSums → hipMalloc rt buf array_bytes = hipSuccess
  | Managed => ∀ buf, buf ≠ PartialSums → hipMallocManaged rt buf array_bytes = hipSuccess
  | HostPagefault => True
  end.

(** ** Listing the devices *)

(** What is written to the standard streams, one [<<] after the other. *)
Inductive token :=
  | Text (s : string)
  | Number (i : Z)
  | ErrorString (err : hipError_t)
  | Endl.

Inductive channel := Cout | Cerr.

Definition output : Type := list (channel * token).

(** What [check_error] writes before it ends the process. *)
Definition error_report (err : hipError_t) : output :=
  [(Cerr, Text "Error: "); (Cerr, ErrorString err); (Cerr, Endl)].

(** [getDeviceName(device)] with its result, [names] giving [props.name]
    for every device: the name, or the error [check_error] exits with. *)
Definition deviceName (rt : runtime) (names : Z → string) (device : Z) :
    hipError_t + string :=
  match (hipGetDeviceProperties rt device).1 with
  | hipSuccess => inr (names device)
  | hipError code => inl (hipError code)
  end.

(** The line of a device in the list. *)
Definition device_line (i : Z) (name : string) : output :=
  [(Cout, Number i); (Cout, Text ": "); (Cout, Text name); (Cout, Endl)].

(** The loop of [listDevices] over [devices].  The operands of [<<] are
    taken from left to right: the number of the device is written before
    its name is asked for. *)
Fixpoint list_names (rt : runtime) (names : Z → string) (devices : list Z) :
    output * (failure + unit) :=
  match devices with
  | [] => ([], inr ())
  | i :: rest =>
      match deviceName rt names i with
      | inr name =>
          let '(out, res) := list_names rt names rest in
          (device_line i name ++ out, res)
      | inl err =>
          ([(Cout, Number i); (Cout, Text ": ")] ++ error_report err,
           inl (DeviceOperationFailed err))
      end
  end.

(** [listDevices()]: what it writes, and how it ends. *)
Definition listDevices (rt : runtime) (names : Z → string) : output * (failure + unit) :=
  match (hipGetDeviceCount rt).1 with
  | hipSuccess =>
      let count := (hipGetDeviceCount rt).2 in
      if count =? 0 then ([(Cerr, Text "No devices found."); (Cerr, Endl)], inr ())
      else
        let '(out, res) := list_names rt names (seqZ 0 count) in
        ([(Cout, Endl); (Cout, Text "Devices:"); (Cout, Endl)] ++ out ++
         match res with inr _ => [(Cout, Endl)] | inl _ => [] end,
         res)
  | hipError code =>
      (error_report (hipError code), inl (DeviceOperationFailed (hipError code)))
  end.

(** ** Instances for the examples *)

(** Exact arithmetic on integers, with a given [startScalar]. *)
Definition Z_element (scalar : Z) : Element Z :=
  {| fzero := 0; fadd := Z.add; fmul := Z.mul; startScalar := scalar |}.

(** A device that runs the threads block after block, in order. *)
Definition in_order : Device Z :=
  {| schedule := threads; uninit := λ i, i + 7 |}.

(** A device that runs them in the opposite order. *)
Definition backwards : Device Z :=
  {| schedule := λ grid block, reverse (threads grid block); uninit := λ _, 0 |}.

(** A stream of five elements on a device of two blocks. *)
Definition small_stream : HIPStream Z :=
  Stream 5 2 [0; 0] [1; 2; 3; 4; 5] [10; 20; 30; 40; 50] [7; 7; 7; 7; 7].

(** The example of the specification: ten million elements, on a device
    of sixty multiprocessors, before [init_arrays]. *)
Definition ten_million : HIPStream Z :=
  Stream 10000000 240 (replicate 240 0)
    (replicate (Z.to_nat 10000000) 5) (replicate (Z.to_nat 10000000) 6)
    (replicate (Z.to_nat 10000000) 7).

(** A runtime with one device of sixty multiprocessors and 16 GiB, which
    rejects the indices of no device ([hipErrorInvalidDevice] is 101) and
    the allocations that exceed its memory ([hipErrorOutOfMemory] is 2). *)
Definition one_gpu : runtime :=
  let device_ok d := if decide (0 ≤ d < 1) then hipSuccess else hipError 101 in
  let fits (_ : buffer) bytes :=
    if decide (bytes ≤ 17179869184) then hipSuccess else hipError 2 in
  Runtime (hipSuccess, 1) device_ok
    (λ d, (device_ok d, DeviceProp 60 17179869184))
    hipSuccess (λ _, hipSuccess) fits fits.

(** A runtime like [one_gpu] on which the allocation of B fails, the
    memory being taken by others. *)
Definition busy_gpu : runtime :=
  let device_ok d := if decide (0 ≤ d < 1) then hipSuccess else hipError 101 in
  let fits (buf : buffer) (_ : Z) :=
    if decide (buf = BufferB) then hipError 2 else hipSuccess in
  Runtime (hipSuccess, 1) device_ok
    (λ d, (device_ok d, DeviceProp 60 17179869184))
    hipSuccess (λ _, hipSuccess) fits fits.

(** A runtime with three devices of which the last does not answer. *)
Definition three_gpus : runtime :=
  let device_ok d := if decide (0 ≤ d < 2) then hipSuccess else hipError 101 in
  Runtime (hipSuccess, 3) device_ok
    (λ d, (device_ok d, DeviceProp 60 17179869184))
    hipSuccess (λ _, hipSuccess) (λ _ _, hipSuccess) (λ _ _, hipSuccess).

(** The names of the devices of the examples. *)
Definition gpu_names (device : Z) : string :=
  if decide (device = 0) then "gfx90a" else "gfx1030".

(** A release in which the release of B fails ([hipErrorInvalidValue] is
    1). *)
Definition keeps_b : release :=
  Release hipSuccess (λ buf, if decide (buf = BufferB) then hipError 1 else hipSuccess).

(** A stream with nothing in its arrays, on a device of two blocks. *)
Definition empty_stream : HIPStream Z := Stream 0 2 [5; 5] [] [] [].

(** The stream that the construction returns on [one_gpu] for [2^61]
    elements of 8 bytes: three empty arrays. *)
Definition wrapped_stream : HIPStream Z :=
  Stream (2 ^ 61) 240 ((λ i, i + 7) <$> seqZ 0 240) [] [] [].

(** ** A tactic for the constructor *)

(** Unfolds a construction and splits on the answers of the runtime. *)
Ltac run_ctor :=
  unfold HIPStream_new, construct, getDeviceName, getDeviceDriver, ctor_bind,
    check_error, allocated, throw, ctor_ret;
  repeat match goal with
         | |- context [match ?e with hipSuccess => _ | hipError _ => _ end] =>
             destruct e eqn:?
         | |- context [if ?c then _ else _] => destruct c eqn:?
         | |- context [match ?r with DeviceOnly => _ | _ => _ end] => destruct r
         end;
  cbn [fst snd app].

(** * Proofs *)

(** ** Machine integers and buffers *)

Lemma size_t_small z : 0 ≤ z < 2 ^ 64 → size_t z = z.
Proof. intros. unfold size_t. by apply Z.mod_small. Qed.

Lemma uint32_t_small z : 0 ≤ z < 2 ^ 32 → uint32_t z = z.
Proof. intros. unfold uint32_t. by apply Z.mod_small. Qed.

Lemma ceil_div_TBSIZE n :
  1 ≤ n < 2 ^ 63 →
  0 < ceil_div n TBSIZE ∧ n ≤ ceil_div n TBSIZE * TBSIZE ≤ 2 ^ 63.
Proof.
  intros Hn. unfold ceil_div, TBSIZE. rewrite size_t_small by lia.
  pose proof (Z.div_mod (n + 1024 - 1) 1024 ltac:(lia)) as Hdm.
  pose proof (Z.mod_pos_bound (n + 1024 - 1) 1024 ltac:(lia)) as Hb.
  split; [apply Z.div_str_pos; lia|]. split; [lia|].
  assert ((n + 1024 - 1) / 1024 ≤ 2 ^ 53); [|lia].
  apply Z.lt_succ_r, Z.div_lt_upper_bound; lia.
Qed.

Lemma load_lookup {A} (p : list A) (i : nat) : load p (Z.of_nat i) = p !! i.
Proof. unfold load. rewrite decide_True by lia. by rewrite Nat2Z.id. Qed.

Lemma load_is_Some {A} (p : list A) i :
  is_Some (load p i) ↔ 0 ≤ i < Z.of_nat (length p).
Proof.
  unfold load. destruct (decide (0 ≤ i)).
  - rewrite lookup_lt_is_Some. lia.
  - split; [by intros [? ?] | lia].
Qed.

Lemma load_Some_lt {A} (p : list A) i x :
  load p i = Some x → 0 ≤ i < Z.of_nat (length p).
Proof. intros Hx. apply load_is_Some. by exists x. Qed.

Lemma store_Some {A} (p : list A) i v :
  0 ≤ i < Z.of_nat (length p) → store p i v = Some (<[Z.to_nat i := v]> p).
Proof. intros. unfold store. by rewrite decide_True. Qed.

Lemma load_insert_eq {A} (p : list A) i v :
  0 ≤ i < Z.of_nat (length p) → load (<[Z.to_nat i := v]> p) i = Some v.
Proof.
  intros. unfold load. rewrite decide_True by lia.
  apply list_lookup_insert_eq. lia.
Qed.

Lemma load_insert_ne {A} (p : list A) i j v :
  0 ≤ i → j ≠ i → load (<[Z.to_nat i := v]> p) j = load p j.
Proof.
  intros. unfold load. destruct (decide (0 ≤ j)); [|done].
  apply list_lookup_insert_ne. lia.
Qed.

(** A store into a cell that can be loaded: what it returns and what the
    cells of the result hold. *)
Lemma store_loaded {A} (p : list A) i x v :
  load p i = Some x →
  store p i v = Some (<[Z.to_nat i := v]> p) ∧
  load (<[Z.to_nat i := v]> p) i = Some v ∧
  (∀ j, j ≠ i → load (<[Z.to_nat i := v]> p) j = load p j) ∧
  length (<[Z.to_nat i := v]> p) = length p.
Proof.
  intros Hx%load_Some_lt. split_and!.
  - by apply store_Some.
  - by apply load_insert_eq.
  - intros j Hj. apply load_insert_ne; lia.
  - apply length_insert.
Qed.

(** ** The threads of a grid *)

Lemma elem_of_threads grid block b t :
  (b, t) ∈ threads grid block ↔ (0 ≤ b < grid) ∧ (0 ≤ t < block).
Proof.
  unfold threads. rewrite list_elem_of_bind. split.
  - intros (b' & Ht & Hb). apply list_elem_of_fmap in Ht as (t' & Heq & Ht).
    simplify_eq. apply elem_of_seqZ in Hb. apply elem_of_seqZ in Ht. lia.
  - intros [Hb Ht]. exists b. split.
    + apply list_elem_of_fmap. exists t. split; [done|]. apply elem_of_seqZ. lia.
    + apply elem_of_seqZ. lia.
Qed.

Lemma NoDup_threads grid block : NoDup (threads grid block).
Proof.
  unfold threads. apply NoDup_bind.
  - intros b1 b2 bt _ _ H1 H2.
    apply list_elem_of_fmap in H1 as (? & -> & _).
    apply list_elem_of_fmap in H2 as (? & ? & _). by simplify_eq.
  - intros b _. apply NoDup_fmap_2; [|apply NoDup_seqZ].
    intros ???. by simplify_eq.
  - apply NoDup_seqZ.
Qed.

Lemma gid_inj block bt1 bt2 :
  0 ≤ bt1.2 < block → 0 ≤ bt2.2 < block → gid block bt1 = gid block bt2 → bt1 = bt2.
Proof.
  destruct bt1 as [b1 t1], bt2 as [b2 t2]. unfold gid. simpl. intros ?? Heq.
  assert (b1 = b2) by nia. subst. f_equal. lia.
Qed.

Lemma gid_bounds grid block b t :
  0 ≤ b < grid → 0 ≤ t < block → 0 ≤ gid block (b, t) < grid * block.
Proof. unfold gid. simpl. intros. nia. Qed.

(** Every index falls on the identifier of a thread of the grid. *)
Lemma cells_of_threads grid block j :
  0 < grid → 0 < block → cells_of block (grid * block) (threads grid block) j.
Proof.
  intros Hg Hb. set (r := j mod (grid * block)).
  assert (0 ≤ r < grid * block) as Hr by (apply Z.mod_pos_bound; nia).
  exists (r / block, r mod block). split.
  - apply elem_of_threads. split.
    + split; [apply Z.div_pos; lia|]. apply Z.div_lt_upper_bound; [lia|nia].
    + apply Z.mod_pos_bound. lia.
  - unfold gid. simpl. fold r. pose proof (Z.div_mod r block ltac:(lia)). lia.
Qed.

(** Two indices of one residue class that are less than a stride apart. *)
Lemma same_residue_close i j stride :
  0 < stride → j mod stride = i mod stride → j < i + stride → j ≠ i → j < i.
Proof.
  intros Hs Hm Hlt Hne.
  pose proof (Z.div_mod j stride ltac:(lia)) as Hj.
  pose proof (Z.div_mod i stride ltac:(lia)) as Hi.
  rewrite Hm in Hj.
  destruct (decide (j / stride ≤ i / stride)); [nia|].
  assert (i / stride + 1 ≤ j / stride) by lia. nia.
Qed.

(** ** Kernels that update every cell on its own *)

Section pointwise.
Context {S X : Type}.
Variables (cell : S → Z → option X) (f : Z → X → X) (inv : S → Prop).
Variables (body : Z → S → option S) (n : Z).

(** The body at [i] rewrites cell [i] by [f] and nothing else. *)
Hypothesis body_spec : ∀ i s x,
  0 ≤ i < n → inv s → cell s i = Some x →
  ∃ s', body i s = Some s' ∧ inv s' ∧ cell s' i = Some (f i x) ∧
        ∀ j, j ≠ i → cell s' j = cell s j.

Lemma updated_where_ext s0 (P Q : Z → Prop) s :
  (∀ j, 0 ≤ j < n → P j ↔ Q j) →
  updated_where cell f inv n s0 P s → updated_where cell f inv n s0 Q s.
Proof.
  intros HPQ [Hinv Hs]. split; [done|]. intros j. destruct (Hs j) as [Hs1 Hs2].
  split.
  - intros Hj HQ. apply Hs1; [done|]. by apply HPQ.
  - intros Hn. apply Hs2. intros [Hj HP]. apply Hn. split; [done|]. by apply HPQ.
Qed.

(** One thread: the loop started at [i] in the residue class [g]. *)
Lemma grid_stride_pointwise s0 (P : Z → Prop) g stride fuel :
  0 < stride → n + stride ≤ 2 ^ 64 →
  (∀ j, 0 ≤ j < n → is_Some (cell s0 j)) →
  (∀ j, P j → j mod stride ≠ g) →
  ∀ i s,
    0 ≤ i → i mod stride = g → n - i ≤ Z.of_nat fuel →
    updated_where cell f inv n s0 (λ j, P j ∨ (j mod stride = g ∧ j < i)) s →
    ∃ s', grid_stride fuel body i stride n s = Some s' ∧
          updated_where cell f inv n s0 (λ j, P j ∨ j mod stride = g) s'.
Proof.
  intros Hstride Hwrap Hdef Hfresh.
  induction fuel as [|fuel IH]; intros i s Hi Hmod Hfuel [Hinv Hs]; simpl.
  - rewrite (proj2 (Z.ltb_ge i n)) by lia. exists s. split; [done|].
    split; [done|]. intros j. destruct (Hs j) as [Hs1 Hs2]. split.
    + intros Hj [HP|Hg]; apply Hs1; auto. right. lia.
    + intros Hn. apply Hs2. intros [Hj [HP|[Hg _]]]; apply Hn; auto.
  - destruct (Z.ltb_spec i n) as [Hlt|Hge].
    + destruct (Hdef i ltac:(lia)) as [x Hx].
      assert (cell s i = Some x) as Hsi.
      { rewrite <- Hx. apply (Hs i). intros [_ [HP|[_ ?]]]; [|lia].
        by apply (Hfresh i). }
      destruct (body_spec i s x ltac:(lia) Hinv Hsi)
        as (s1 & -> & Hinv1 & Hi1 & Hother).
      simpl. rewrite size_t_small by lia.
      apply IH; [lia| |lia|].
      { rewrite <- Hmod. rewrite <- (Z.mul_1_l stride) at 1.
        apply Z.mod_add. lia. }
      split; [done|]. intros j. destruct (decide (j = i)) as [->|Hne].
      * split; [intros; by rewrite Hi1, Hx|].
        intros []. split; [lia|]. right. lia.
      * rewrite (Hother j Hne). destruct (Hs j) as [Hs1 Hs2]. split.
        -- intros Hj [HP|[Hg Hlt']]; apply Hs1; auto. right. split; [done|].
           apply (same_residue_close i j stride); auto. congruence.
        -- intros Hn. apply Hs2. intros [Hj [HP|[Hg ?]]]; apply Hn; auto.
           split; [done|]. right. lia.
    + exists s. split; [done|]. split; [done|]. intros j.
      destruct (Hs j) as [Hs1 Hs2]. split.
      * intros Hj [HP|Hg]; apply Hs1; auto. right. lia.
      * intros Hn. apply Hs2. intros [Hj [HP|[Hg _]]]; apply Hn; auto.
Qed.

(** The threads of [sched], after those of [done]. *)
Lemma run_threads_pointwise s0 grid block fuel :
  0 < grid → 0 < block → 0 < n → n + grid * block ≤ 2 ^ 64 →
  n ≤ Z.of_nat fuel →
  (∀ j, 0 ≤ j < n → is_Some (cell s0 j)) →
  ∀ sched done s,
    NoDup (done ++ sched) →
    (∀ bt, bt ∈ done ++ sched → bt ∈ threads grid block) →
    updated_where cell f inv n s0 (cells_of block (grid * block) done) s →
    ∃ s', run_threads grid block
            (λ th, grid_stride fuel body (global_id th) (grid_size th) n) sched s
          = Some s' ∧
          updated_where cell f inv n s0
            (cells_of block (grid * block) (done ++ sched)) s'.
Proof.
  intros Hgrid Hblock Hn0 Hwrap Hfuel Hdef.
  induction sched as [|[b t] sched IH]; intros done s Hnd Hin Hs; simpl.
  - exists s. by rewrite app_nil_r.
  - assert ((b, t) ∈ threads grid block) as Hbt.
    { apply Hin, elem_of_app. right. left. }
    apply elem_of_threads in Hbt as [Hb Ht].
    pose proof (gid_bounds grid block b t Hb Ht) as Hg.
    assert (global_id (Thread t b block grid) = gid block (b, t)) as ->.
    { unfold global_id, gid in *. cbn [threadIdx blockIdx blockDim fst snd] in *.
      rewrite (size_t_small (block * b)) by nia. apply size_t_small. lia. }
    assert (grid_size (Thread t b block grid) = grid * block) as ->.
    { unfold grid_size. cbn [gridDim blockDim]. apply size_t_small. nia. }
    destruct (grid_stride_pointwise s0 (cells_of block (grid * block) done)
                (gid block (b, t)) (grid * block) fuel) with
      (i := gid block (b, t)) (s := s) as (s1 & -> & Hs1);
      [nia|lia|done| |lia|by apply Z.mod_small|lia| |].
    { intros j (bt & Hbt & ->) Heq.
      assert (bt ∈ threads grid block) as Hbt'.
      { apply Hin, elem_of_app. by left. }
      destruct bt as [b' t']. apply elem_of_threads in Hbt' as [? ?].
      apply gid_inj in Heq; [|simpl; lia..]. injection Heq as -> ->.
      apply NoDup_app in Hnd as (_ & Hnd & _). apply (Hnd (b, t)); [done|left]. }
    { revert Hs. apply updated_where_ext. intros j Hj. split; [by left|].
      intros [?|[Hm Hlt]]; [done|].
      pose proof (Z.mod_le j (grid * block) ltac:(lia) ltac:(nia)). lia. }
    simpl. rewrite (assoc_L (++) done [(b, t)] sched : done ++ (b, t) :: sched = _)
      in Hnd, Hin |- *.
    apply IH; [done|done|].
    revert Hs1. apply updated_where_ext. intros j Hj. split.
    + intros [(bt & ? & ?)|Heq].
      * exists bt. split; [|done]. apply elem_of_app. by left.
      * exists (b, t). split; [|done]. apply elem_of_app. right. left.
    + intros (bt & [?|Heq%list_elem_of_singleton]%elem_of_app & ?).
      * left. by exists bt.
      * right. by subst.
Qed.
End pointwise.

(** A launch of such a kernel on a fair device applies [f] to every cell
    below [n], whatever the grid. *)
Lemma launch_pointwise {T} `{Device T} `{!Fair T} {S X}
    (cell : S → Z → option X) (f : Z → X → X) (inv : S → Prop)
    (body : Z → S → option S) (n : Z) (s0 : S) grid block fuel :
  (∀ i s x, 0 ≤ i < n → inv s → cell s i = Some x →
     ∃ s', body i s = Some s' ∧ inv s' ∧ cell s' i = Some (f i x) ∧
           ∀ j, j ≠ i → cell s' j = cell s j) →
  0 < grid → 0 < block → 0 < n → n + grid * block ≤ 2 ^ 64 →
  n ≤ Z.of_nat fuel →
  inv s0 → (∀ j, 0 ≤ j < n → is_Some (cell s0 j)) →
  ∃ s', launch grid block
          (λ th s, grid_stride fuel body (global_id th) (grid_size th) n s) s0
        = Some s' ∧
        inv s' ∧
        (∀ j, 0 ≤ j < n → cell s' j = f j <$> cell s0 j) ∧
        (∀ j, ¬ (0 ≤ j < n) → cell s' j = cell s0 j).
Proof.
  intros Hbody Hgrid Hblock Hn Hwrap Hfuel Hinv Hdef. unfold launch.
  pose proof (fair grid block) as Hfair.
  destruct (run_threads_pointwise cell f inv body n Hbody s0 grid block fuel
              Hgrid Hblock Hn Hwrap Hfuel Hdef (schedule grid block) [] s0)
    as (s' & Hrun & Hinv' & Hs').
  - simpl. rewrite Hfair. apply NoDup_threads.
  - simpl. intros bt. by rewrite Hfair.
  - split; [done|]. intros j. split; [|done]. by intros _ (bt & ?%elem_of_nil & _).
  - exists s'. split; [exact Hrun|]. split; [done|]. split.
    + intros j Hj. apply (Hs' j); [done|]. simpl.
      destruct (cells_of_threads grid block j Hgrid Hblock) as (bt & Hbt & Hj').
      exists bt. split; [|done]. by rewrite Hfair.
    + intros j Hj. apply (Hs' j). by intros [].
Qed.

(** ** The element-wise kernels *)

Section kernels.
Context {T : Type} `{Element T} `{Device T} `{!Fair T}.

Lemma load_elt (p : list T) i :
  0 ≤ i < Z.of_nat (length p) → load p i = Some (elt p i).
Proof.
  intros Hi%load_is_Some. unfold elt. by destruct Hi as [x ->].
Qed.

Lemma elt_lookup (p : list T) (i : nat) x : p !! i = Some x → elt p (Z.of_nat i) = x.
Proof. intros Hx. unfold elt. by rewrite load_lookup, Hx. Qed.

(** A buffer that holds [v] in every cell. *)
Lemma const_buffer (p : list T) v n :
  Z.of_nat (length p) = n → (∀ j, 0 ≤ j < n → load p j = Some v) →
  p = replicate (length p) v.
Proof.
  intros Hn Hp. apply list_eq. intros i. destruct (decide (i < length p)%nat).
  - rewrite lookup_replicate_2 by lia. rewrite <- load_lookup. apply Hp. lia.
  - rewrite !lookup_ge_None_2; [done| |lia]. rewrite length_replicate. lia.
Qed.

(** Pointers and the buffers of a stream. *)
Lemma contents_with_eq (st : HIPStream T) p l : contents (with_contents st p l) p = l.
Proof. by destruct p. Qed.

Lemma with_contents_twice (st : HIPStream T) p l l' :
  with_contents (with_contents st p l) p l' = with_contents st p l'.
Proof. by destruct p. Qed.

Lemma with_contents_id (st : HIPStream T) p : with_contents st p (contents st p) = st.
Proof. by destruct st, p. Qed.

(** A kernel whose body writes [f i x] over the [x] of cell [i] of the
    buffer [p], and nothing else: the other buffers of the stream are
    what they were. *)
Lemma launch_elementwise (p : buffer)
    (body : Z → HIPStream T → option (HIPStream T)) (f : Z → T → T)
    (n : Z) (st : HIPStream T) grid block fuel :
  (∀ i l x, 0 ≤ i < n → length l = length (contents st p) → load l i = Some x →
     body i (with_contents st p l) = write (with_contents st p l) p i (f i x)) →
  0 < grid → 0 < block → 0 < n → n + grid * block ≤ 2 ^ 64 →
  n ≤ Z.of_nat fuel → Z.of_nat (length (contents st p)) = n →
  ∃ l', launch grid block
          (λ th m, grid_stride fuel body (global_id th) (grid_size th) n m) st
        = Some (with_contents st p l') ∧
        length l' = length (contents st p) ∧
        ∀ j, 0 ≤ j < n → load l' j = Some (f j (elt (contents st p) j)).
Proof.
  intros Hbody Hgrid Hblock Hn Hwrap Hfuel Hlen.
  destruct (launch_pointwise (λ m j, load (contents m p) j) f
              (λ m, ∃ l, m = with_contents st p l ∧ length l = length (contents st p))
              body n st grid block fuel)
    as (m' & Hrun & (l' & -> & Hlen') & Hin & _); try done.
  - intros i m x Hi (l & -> & Hl) Hx. rewrite contents_with_eq in Hx.
    rewrite (Hbody i l x Hi Hl Hx). unfold write. rewrite contents_with_eq.
    destruct (store_loaded l i x (f i x) Hx) as (-> & ? & ? & Hl').
    simpl. rewrite with_contents_twice.
    eexists. split; [done|]. split; [eexists; split; [done|congruence]|].
    by rewrite contents_with_eq.
  - exists (contents st p). by rewrite with_contents_id.
  - intros j Hj. apply load_is_Some. lia.
  - exists l'. split; [done|]. split; [done|]. intros j Hj.
    specialize (Hin j Hj). rewrite contents_with_eq in Hin.
    rewrite Hin, load_elt by lia. done.
Qed.

(** The geometry of the launches of the element-wise kernels. *)
Lemma stream_geometry (st : HIPStream T) :
  well_formed st →
  size_t (array_size st) = array_size st ∧
  0 < ceil_div (array_size st) TBSIZE ∧
  0 < TBSIZE ∧ 0 < array_size st ∧
  array_size st + ceil_div (array_size st) TBSIZE * TBSIZE ≤ 2 ^ 64 ∧
  array_size st ≤ Z.of_nat (loop_fuel st).
Proof.
  intros [Hn _ _ _].
  assert (size_t (array_size st) = array_size st) as Hsz by (apply size_t_small; lia).
  destruct (ceil_div_TBSIZE _ Hn) as [? ?].
  split_and!; try done; try lia.
  unfold loop_fuel. rewrite Hsz. lia.
Qed.

Lemma copy_run (st : HIPStream T) :
  well_formed st →
  ∃ c, copy st = Some (with_c st c) ∧ length c = length (d_c st) ∧
       ∀ j, 0 ≤ j < array_size st → load c j = Some (elt (d_a st) j).
Proof.
  intros Hwf. destruct (stream_geometry st Hwf) as (Hsz & ? & ? & ? & ? & ?).
  destruct Hwf as [Hn Ha Hb Hc]. unfold copy, copy_kernel. cbv zeta. rewrite Hsz.
  apply (launch_elementwise BufferC
           (λ i m, x ← read m BufferA i; write m BufferC i x)
           (λ i _, elt (d_a st) i)); try done.
  intros i l x Hi _ _. unfold read. cbn. by rewrite load_elt by lia.
Qed.

Lemma mul_run (st : HIPStream T) :
  well_formed st →
  ∃ b, mul st = Some (with_b st b) ∧ length b = length (d_b st) ∧
       ∀ j, 0 ≤ j < array_size st →
            load b j = Some (fmul startScalar (elt (d_c st) j)).
Proof.
  intros Hwf. destruct (stream_geometry st Hwf) as (Hsz & ? & ? & ? & ? & ?).
  destruct Hwf as [Hn Ha Hb Hc]. unfold mul, mul_kernel. cbv zeta. rewrite Hsz.
  apply (launch_elementwise BufferB
           (λ i m, z ← read m BufferC i; write m BufferB i (fmul startScalar z))
           (λ i _, fmul startScalar (elt (d_c st) i))); try done.
  intros i l x Hi _ _. unfold read. cbn. by rewrite load_elt by lia.
Qed.

Lemma add_run (st : HIPStream T) :
  well_formed st →
  ∃ c, add st = Some (with_c st c) ∧ length c = length (d_c st) ∧
       ∀ j, 0 ≤ j < array_size st →
            load c j = Some (fadd (elt (d_a st) j) (elt (d_b st) j)).
Proof.
  intros Hwf. destruct (stream_geometry st Hwf) as (Hsz & ? & ? & ? & ? & ?).
  destruct Hwf as [Hn Ha Hb Hc]. unfold add, add_kernel. cbv zeta. rewrite Hsz.
  apply (launch_elementwise BufferC
           (λ i m, x ← read m BufferA i; y ← read m BufferB i;
                   write m BufferC i (fadd x y))
           (λ i _, fadd (elt (d_a st) i) (elt (d_b st) i))); try done.
  intros i l x Hi _ _. unfold read. cbn. by rewrite !load_elt by lia.
Qed.

Lemma triad_run (st : HIPStream T) :
  well_formed st →
  ∃ a, triad st = Some (with_a st a) ∧ length a = length (d_a st) ∧
       ∀ j, 0 ≤ j < array_size st →
            load a j = Some (fadd (elt (d_b st) j) (fmul startScalar (elt (d_c st) j))).
Proof.
  intros Hwf. destruct (stream_geometry st Hwf) as (Hsz & ? & ? & ? & ? & ?).
  destruct Hwf as [Hn Ha Hb Hc]. unfold triad, triad_kernel. cbv zeta. rewrite Hsz.
  apply (launch_elementwise BufferA
           (λ i m, y ← read m BufferB i; z ← read m BufferC i;
                   write m BufferA i (fadd y (fmul startScalar z)))
           (λ i _, fadd (elt (d_b st) i) (fmul startScalar (elt (d_c st) i))));
    try done.
  intros i l x Hi _ _. unfold read. cbn. by rewrite !load_elt by lia.
Qed.

Lemma nstream_run (st : HIPStream T) :
  well_formed st →
  ∃ a, nstream st = Some (with_a st a) ∧ length a = length (d_a st) ∧
       ∀ j, 0 ≤ j < array_size st →
            load a j = Some (fadd (elt (d_a st) j)
                               (fadd (elt (d_b st) j) (fmul startScalar (elt (d_c st) j)))).
Proof.
  intros Hwf. destruct (stream_geometry st Hwf) as (Hsz & ? & ? & ? & ? & ?).
  destruct Hwf as [Hn Ha Hb Hc]. unfold nstream, nstream_kernel. cbv zeta. rewrite Hsz.
  apply (launch_elementwise BufferA
           (λ i m, x ← read m BufferA i; y ← read m BufferB i; z ← read m BufferC i;
                   write m BufferA i (fadd x (fadd y (fmul startScalar z))))
           (λ i x, fadd x (fadd (elt (d_b st) i) (fmul startScalar (elt (d_c st) i)))));
    try done.
  intros i l x Hi _ Hx. unfold read. cbn. rewrite Hx. simpl.
  by rewrite !load_elt by lia.
Qed.

Lemma init_arrays_run (initA initB initC : T) (st : HIPStream T) :
  well_formed st →
  ∃ a b c,
    init_arrays initA initB initC st = Some (with_c (with_b (with_a st a) b) c) ∧
    a = replicate (length (d_a st)) initA ∧
    b = replicate (length (d_b st)) initB ∧
    c = replicate (length (d_c st)) initC.
Proof.
  intros Hwf. destruct (stream_geometry st Hwf) as (Hsz & ? & ? & ? & ? & ?).
  destruct Hwf as [Hn Ha Hb Hc]. unfold init_arrays, init_kernel. cbv zeta. rewrite Hsz.
  destruct (launch_pointwise (λ m, cell3 (d_a m, d_b m, d_c m))
              (λ _ _, (initA, initB, initC))
              (λ m, array_size m = array_size st ∧
                    dot_num_blocks m = dot_num_blocks st ∧ sums m = sums st ∧
                    length (d_a m) = length (d_a st) ∧
                    length (d_b m) = length (d_b st) ∧
                    length (d_c m) = length (d_c st))
              (λ i m,
                 m ← write m BufferA i initA; m ← write m BufferB i initB;
                 write m BufferC i initC)
              (array_size st) st
              (ceil_div (array_size st) TBSIZE) TBSIZE (loop_fuel st))
    as (m & -> & (Hn' & Hd' & Hs' & Hla & Hlb & Hlc) & Hin & _); try done.
  - intros i m [[x y] z] Hi (Hn' & Hd' & Hs' & Hla & Hlb & Hlc) Hx.
    unfold cell3 in *. cbn [fst snd] in *.
    destruct (load (d_a m) i) as [x'|] eqn:Ea; [|done].
    destruct (load (d_b m) i) as [y'|] eqn:Eb; [|done].
    destruct (load (d_c m) i) as [z'|] eqn:Ec; [|done].
    destruct (store_loaded _ i x' initA Ea) as (Ha0 & Ha1 & Ha2 & Ha3).
    destruct (store_loaded _ i y' initB Eb) as (Hb0 & Hb1 & Hb2 & Hb3).
    destruct (store_loaded _ i z' initC Ec) as (Hc0 & Hc1 & Hc2 & Hc3).
    unfold write. cbn [contents with_contents with_a with_b with_c d_a d_b d_c].
    rewrite Ha0. cbn. rewrite Hb0. cbn. rewrite Hc0. cbn.
    eexists. split; [done|]. cbn. split; [by rewrite Ha3, Hb3, Hc3|].
    split; [by rewrite Ha1, Hb1, Hc1|].
    intros j Hj. by rewrite Ha2, Hb2, Hc2.
  - intros j Hj. unfold cell3. cbn [fst snd].
    rewrite !load_elt by lia. by eexists.
  - exists (d_a m), (d_b m), (d_c m). split.
    { destruct m, st. cbn in *. by subst. }
    assert (∀ j, 0 ≤ j < array_size st →
              load (d_a m) j = Some initA ∧ load (d_b m) j = Some initB ∧
              load (d_c m) j = Some initC) as Hall.
    { intros j Hj. specialize (Hin j Hj). unfold cell3 in Hin. cbn [fst snd] in Hin.
      rewrite (load_elt (d_a st)), (load_elt (d_b st)), (load_elt (d_c st)) in Hin by lia.
      rewrite !load_elt in Hin by lia. rewrite !load_elt by lia.
      cbn in Hin. by simplify_eq. }
    rewrite <- Hla, <- Hlb, <- Hlc.
    split_and!; apply (const_buffer _ _ (array_size st)); try lia.
    all: intros j Hj; by destruct (Hall j Hj) as (? & ? & ?).
Qed.

End kernels.

(** ** Reading the arrays back *)

Lemma for_each_app {S} (body : Z → S → option S) l1 l2 s :
  for_each body (l1 ++ l2) s = for_each body l1 s ≫= for_each body l2.
Proof.
  revert s. induction l1 as [|i l1 IH]; intros s; simpl; [done|].
  destruct (body i s) as [s'|]; simpl; [apply IH|done].
Qed.

Section read_arrays.
Context {T : Type}.
Implicit Types (st : HIPStream T) (a b c : list T).

(** A whole-vector [hipMemcpy]. *)
Lemma hipMemcpy_whole (dst src r : list T) :
  hipMemcpy dst src (length dst) = Some r ↔
  (length dst ≤ length src)%nat ∧ r = take (length dst) src.
Proof.
  unfold hipMemcpy. rewrite drop_all, app_nil_r.
  destruct (decide _) as [[? ?]|Hn].
  - split; [intros [= <-]; done|]. by intros [_ ->].
  - split; [done|]. intros [? _]. destruct Hn. lia.
Qed.

(** Storing the next device element over the next host element. *)
Lemma store_next (dev host : list T) (k : nat) x :
  dev !! k = Some x →
  store (take k dev ++ drop k host) (Z.of_nat k) x =
    if decide (k < length host)%nat
    then Some (take (S k) dev ++ drop (S k) host) else None.
Proof.
  intros Hx. pose proof (lookup_lt_Some _ _ _ Hx) as Hk.
  unfold store. rewrite length_app, length_take, length_drop, Nat2Z.id.
  destruct (decide (k < length host)%nat) as [Hlt|Hge].
  - rewrite decide_True by lia. f_equal.
    rewrite (take_S_r _ _ _ Hx).
    destruct (lookup_lt_is_Some_2 host k Hlt) as [y Hy].
    rewrite (drop_S _ _ _ Hy), <- (assoc_L (++)). simpl.
    rewrite insert_app_r_alt by (rewrite length_take; lia).
    rewrite length_take, Nat.min_l, Nat.sub_diag by lia. done.
  - by rewrite decide_False by lia.
Qed.

(** The loop of the [MANAGED] and [PAGEFAULT] builds after [k] turns. *)
Lemma read_loop st a b c (k : nat) r :
  (k ≤ length (d_a st))%nat → (k ≤ length (d_b st))%nat → (k ≤ length (d_c st))%nat →
  for_each (read_element st) (seqZ 0 (Z.of_nat k)) (Host a b c 0 0 0)%nat = Some r ↔
  (k ≤ length a)%nat ∧ (k ≤ length b)%nat ∧ (k ≤ length c)%nat ∧
  r = Host (take k (d_a st) ++ drop k a) (take k (d_b st) ++ drop k b)
           (take k (d_c st) ++ drop k c) k k k.
Proof.
  revert r. induction k as [|k IH]; intros r Hka Hkb Hkc.
  - simpl. rewrite !drop_0. split; [intros [= <-]|intros (_ & _ & _ & ->)]; [|done].
    split_and!; (lia || done).
  - rewrite seqZ_S, for_each_app, Z.add_0_l. simpl.
    destruct (lookup_lt_is_Some_2 (d_a st) k ltac:(lia)) as [x Hx].
    destruct (lookup_lt_is_Some_2 (d_b st) k ltac:(lia)) as [y Hy].
    destruct (lookup_lt_is_Some_2 (d_c st) k ltac:(lia)) as [z Hz].
    destruct (for_each _ (seqZ 0 (Z.of_nat k)) _) as [h|] eqn:Eh; simpl.
    + destruct (proj1 (IH h ltac:(lia) ltac:(lia) ltac:(lia)) eq_refl)
        as (Ha & Hb & Hc & ->).
      unfold read_element. cbn [host_a host_b host_c moved_a moved_b moved_c].
      rewrite !load_lookup, Hx, Hy, Hz. simpl.
      rewrite (store_next _ a k x Hx), (store_next _ b k y Hy), (store_next _ c k z Hz).
      destruct (decide (k < length a)%nat); simpl;
        [|split; [done|intros (? & ? & ? & ?); lia]].
      destruct (decide (k < length b)%nat); simpl;
        [|split; [done|intros (? & ? & ? & ?); lia]].
      destruct (decide (k < length c)%nat); simpl;
        [|split; [done|intros (? & ? & ? & ?); lia]].
      split; [intros [= <-]|by intros (_ & _ & _ & ->)].
      split_and!; try lia. reflexivity.
    + split; [done|]. intros (Ha & Hb & Hc & _).
      exfalso. cut (∃ h, @None (HostArrays T) = Some h); [by intros [? ?]|].
      eexists. apply IH; [lia..|]. split_and!; try lia. reflexivity.
Qed.

Lemma read_arrays_device_only st a b c r :
  read_arrays DeviceOnly st a b c = Some r ↔
  (length a ≤ length (d_a st))%nat ∧ (length b ≤ length (d_b st))%nat ∧
  (length c ≤ length (d_c st))%nat ∧
  r = Host (take (length a) (d_a st)) (take (length b) (d_b st))
           (take (length c) (d_c st)) (length a) (length b) (length c).
Proof.
  unfold read_arrays.
  destruct (hipMemcpy a _ _) as [a'|] eqn:Ea; simpl.
  2: { split; [done|]. intros (Ha & _).
       assert (is_Some (hipMemcpy a (d_a st) (length a))) as [? ?]; [|congruence].
       eexists. by apply hipMemcpy_whole. }
  destruct (hipMemcpy b _ _) as [b'|] eqn:Eb; simpl.
  2: { split; [done|]. intros (_ & Hb & _).
       assert (is_Some (hipMemcpy b (d_b st) (length b))) as [? ?]; [|congruence].
       eexists. by apply hipMemcpy_whole. }
  destruct (hipMemcpy c _ _) as [c'|] eqn:Ec; simpl.
  2: { split; [done|]. intros (_ & _ & Hc & _).
       assert (is_Some (hipMemcpy c (d_c st) (length c))) as [? ?]; [|congruence].
       eexists. by apply hipMemcpy_whole. }
  apply hipMemcpy_whole in Ea as [? ->].
  apply hipMemcpy_whole in Eb as [? ->].
  apply hipMemcpy_whole in Ec as [? ->].
  split; [intros [= <-]; done|]. by intros (_ & _ & _ & ->).
Qed.

Lemma read_arrays_shared (res : Residency) st a b c r :
  res ≠ DeviceOnly → well_formed st →
  let n := Z.to_nat (array_size st) in
  read_arrays res st a b c = Some r ↔
  (n ≤ length a)%nat ∧ (n ≤ length b)%nat ∧ (n ≤ length c)%nat ∧
  r = Host (d_a st ++ drop n a) (d_b st ++ drop n b) (d_c st ++ drop n c) n n n.
Proof.
  intros Hres [Hn Ha Hb Hc] n.
  assert (read_arrays res st a b c =
          for_each (read_element st) (seqZ 0 (Z.of_nat n)) (Host a b c 0 0 0)%nat) as ->.
  { unfold n. rewrite Z2Nat.id by lia. by destruct res. }
  rewrite read_loop by lia.
  rewrite !firstn_all2 by lia. done.
Qed.

End read_arrays.

(** ** Sums over exact arithmetic *)

Lemma fmap_bind_list {A B C} (f : B → C) (g : A → list B) (l : list A) :
  f <$> (l ≫= g) = l ≫= (λ x, f <$> g x).
Proof.
  induction l as [|x l IH]; [done|]. by rewrite !bind_cons, fmap_app, IH.
Qed.

Section sums.
Context {T : Type} `{Exact T}.
Implicit Types (f g : Z → T) (l k : list Z) (a b : list T).

Lemma fadd_zero_r (x : T) : fadd x fzero = x.
Proof. by rewrite fadd_comm, fadd_zero. Qed.

Lemma sum_over_nil f : sum_over f [] = fzero.
Proof. done. Qed.

Lemma sum_over_cons f i l : sum_over f (i :: l) = fadd (f i) (sum_over f l).
Proof. done. Qed.

Lemma sum_over_app f l k : sum_over f (l ++ k) = fadd (sum_over f l) (sum_over f k).
Proof.
  unfold sum_over. induction l as [|i l IH]; simpl.
  - by rewrite fadd_zero.
  - by rewrite IH, fadd_assoc.
Qed.

Lemma sum_over_singleton f i : sum_over f [i] = f i.
Proof. by rewrite sum_over_cons, sum_over_nil, fadd_zero_r. Qed.

Lemma sum_over_perm f l k : l ≡ₚ k → sum_over f l = sum_over f k.
Proof.
  induction 1 as [|i l k _ IH|i j l|l k m _ IH1 _ IH2].
  - done.
  - by rewrite !sum_over_cons, IH.
  - rewrite !sum_over_cons, !fadd_assoc. f_equal. apply fadd_comm.
  - by rewrite IH1.
Qed.

Lemma sum_over_ext f g l : (∀ i, i ∈ l → f i = g i) → sum_over f l = sum_over g l.
Proof.
  induction l as [|i l IH]; intros Hfg; [done|].
  rewrite !sum_over_cons, Hfg, IH; [done| |left].
  intros j Hj. apply Hfg. by right.
Qed.

Lemma sum_over_fmap f (h : Z → Z) l : sum_over f (h <$> l) = sum_over (f ∘ h) l.
Proof. induction l as [|i l IH]; [done|]. by rewrite fmap_cons, !sum_over_cons, IH. Qed.

Lemma sum_over_bind_Z f (h : Z → list Z) l :
  sum_over f (l ≫= h) = sum_over (λ x, sum_over f (h x)) l.
Proof.
  induction l as [|x l IH]; [done|]. by rewrite bind_cons, sum_over_app, sum_over_cons, IH.
Qed.

Lemma sum_over_fadd f g l :
  sum_over (λ i, fadd (f i) (g i)) l = fadd (sum_over f l) (sum_over g l).
Proof.
  unfold sum_over. induction l as [|i l IH]; simpl.
  - by rewrite fadd_zero.
  - rewrite IH, !fadd_assoc. f_equal.
    rewrite <- !fadd_assoc. f_equal. apply fadd_comm.
Qed.

(** The sum as a loop accumulates it, from the left. *)
Lemma foldl_sum_over f l (z : T) :
  foldl (λ acc i, fadd acc (f i)) z l = fadd z (sum_over f l).
Proof.
  unfold sum_over. revert z. induction l as [|i l IH]; intros z; simpl.
  - by rewrite fadd_zero_r.
  - by rewrite IH, fadd_assoc.
Qed.

(** The identifiers of the threads of a grid are the numbers below its
    size. *)
Lemma gid_threads grid block :
  0 < grid → 0 < block → gid block <$> threads grid block ≡ₚ seqZ 0 (grid * block).
Proof.
  intros Hg Hb. apply NoDup_Permutation.
  - apply NoDup_fmap_2_strong; [|apply NoDup_threads].
    intros [b1 t1] [b2 t2] [? ?]%elem_of_threads [? ?]%elem_of_threads.
    apply gid_inj; simpl; lia.
  - apply NoDup_seqZ.
  - intros x. rewrite list_elem_of_fmap, elem_of_seqZ. split.
    + intros ([b t] & -> & [? ?]%elem_of_threads).
      pose proof (gid_bounds grid block b t). lia.
    + intros Hx. destruct (cells_of_threads grid block x Hg Hb) as (bt & ? & Hm).
      exists bt. split; [|done]. rewrite <- Hm. symmetry. apply Z.mod_small. lia.
Qed.

(** The indices below [n], thread by thread. *)
Lemma visited_all stride n :
  0 < stride → (g ← seqZ 0 stride; visited stride n g) ≡ₚ seqZ 0 n.
Proof.
  intros Hs. apply NoDup_Permutation.
  - apply NoDup_bind; [| |apply NoDup_seqZ].
    + intros g1 g2 i _ _ [? _]%list_elem_of_filter [? _]%list_elem_of_filter. congruence.
    + intros g _. apply NoDup_filter, NoDup_seqZ.
  - apply NoDup_seqZ.
  - intros i. rewrite list_elem_of_bind. split.
    + by intros (g & [_ ?]%list_elem_of_filter & _).
    + intros Hi. exists (i mod stride). split.
      * by apply list_elem_of_filter.
      * apply elem_of_seqZ. pose proof (Z.mod_pos_bound i stride Hs). lia.
Qed.

(** The sums of the threads add up to the sum over all indices. *)
Lemma thread_sum_all a b grid block n :
  0 < grid → 0 < block →
  sum_over (λ blk, sum_over (λ t, thread_sum a b (grid * block) n (gid block (blk, t)))
                     (seqZ 0 block)) (seqZ 0 grid)
  = sum_over (prod_at a b) (seqZ 0 n).
Proof.
  intros Hg Hb.
  transitivity (sum_over (thread_sum a b (grid * block) n)
                  (gid block <$> threads grid block)).
  - unfold threads. rewrite fmap_bind_list, sum_over_bind_Z.
    apply sum_over_ext. intros blk _.
    by rewrite <- list_fmap_compose, sum_over_fmap.
  - rewrite (sum_over_perm _ _ _ (gid_threads grid block Hg Hb)).
    unfold thread_sum. rewrite <- sum_over_bind_Z.
    apply sum_over_perm, visited_all. nia.
Qed.

(** The inner product of the host is the sum of the products. *)
Lemma inner_product_sum_over a b :
  length a = length b →
  inner_product a b = sum_over (prod_at a b) (seqZ 0 (Z.of_nat (length a))).
Proof.
  unfold inner_product. revert b.
  induction a as [|x a IH] using rev_ind; intros b Hlen.
  - by destruct b.
  - destruct b as [|y b _] using rev_ind.
    { rewrite length_app in Hlen. simpl in Hlen. lia. }
    rewrite !length_app in Hlen. simpl in Hlen.
    rewrite zip_with_app by lia. simpl. rewrite foldl_app. simpl.
    rewrite IH by lia. rewrite length_app. simpl.
    replace (Z.of_nat (length a + 1)) with (Z.of_nat (S (length a))) by lia.
    rewrite seqZ_S, sum_over_app, sum_over_singleton, Z.add_0_l. f_equal.
    + apply sum_over_ext. intros i Hi%elem_of_seqZ. unfold prod_at, elt, load.
      rewrite !decide_True by lia.
      rewrite !lookup_app_l by lia. done.
    + unfold prod_at, elt. rewrite !load_lookup.
      rewrite list_lookup_middle by done.
      rewrite list_lookup_middle by lia. done.
Qed.

End sums.

(** ** Kernels whose threads keep to their own slot *)

Lemma run_threads_inv {S} (Inv : list (Z * Z) → S → Prop)
    (code : thread → S → option S) grid block :
  (∀ done b t s,
     Inv done s → (b, t) ∈ threads grid block → (b, t) ∉ done →
     ∃ s', code (Thread t b block grid) s = Some s' ∧ Inv (done ++ [(b, t)]) s') →
  ∀ sched done s,
    NoDup (done ++ sched) → (∀ bt, bt ∈ sched → bt ∈ threads grid block) →
    Inv done s →
    ∃ s', run_threads grid block code sched s = Some s' ∧ Inv (done ++ sched) s'.
Proof.
  intros Hstep. induction sched as [|[b t] sched IH]; intros done s Hnd Hin Hs; simpl.
  - exists s. by rewrite app_nil_r.
  - destruct (Hstep done b t s Hs) as (s1 & -> & Hs1).
    { apply Hin. left. }
    { apply NoDup_app in Hnd as (_ & Hnd & _). intros Hd. apply (Hnd _ Hd). left. }
    simpl. rewrite (assoc_L (++) done [(b, t)] sched : done ++ (b, t) :: sched = _)
      in Hnd |- *.
    apply IH; [done| |done]. intros bt Hbt. apply Hin. by right.
Qed.

Lemma launch_inv {T} `{Device T} `{!Fair T} {S} (Inv : list (Z * Z) → S → Prop)
    (code : thread → S → option S) grid block s :
  (∀ done b t s,
     Inv done s → (b, t) ∈ threads grid block → (b, t) ∉ done →
     ∃ s', code (Thread t b block grid) s = Some s' ∧ Inv (done ++ [(b, t)]) s') →
  Inv [] s →
  ∃ s', launch grid block code s = Some s' ∧ Inv (schedule grid block) s'.
Proof.
  intros Hstep Hs. unfold launch. pose proof (fair grid block) as Hfair.
  apply (run_threads_inv Inv code grid block Hstep (schedule grid block) [] s); simpl.
  - rewrite Hfair. apply NoDup_threads.
  - intros bt. by rewrite Hfair.
  - done.
Qed.

Section phases.
Context {T : Type} `{Element T} `{Device T} `{!Fair T}.

(** A piece of a kernel in which thread [t] stores [new] into slot [t] of
    the [tb_sum] of its block, whatever the other threads of the block have
    already done. *)
Lemma launch_phase (code : thread → list T → option (list T))
    (new : Z → Z → list T → T) grid block (shared0 : list (list T)) :
  (∀ b t tb0 tb (done : list (Z * Z)),
     0 ≤ b < grid → 0 ≤ t < block → (b, t) ∉ done →
     Z.of_nat (length tb0) = block → length tb = length tb0 →
     (∀ t', 0 ≤ t' < block →
        load tb t' = Some (if decide ((b, t') ∈ done) then new b t' tb0 else elt tb0 t')) →
     code (Thread t b block grid) tb = store tb t (new b t tb0)) →
  shared_shape grid block shared0 →
  ∃ shared,
    launch grid block (in_block code) shared0 = Some shared ∧
    shared_shape grid block shared ∧
    ∀ b tb0, 0 ≤ b < grid → load shared0 b = Some tb0 →
      ∃ tb, load shared b = Some tb ∧
        ∀ t, 0 ≤ t < block → load tb t = Some (new b t tb0).
Proof.
  intros Hcode [Hlen Hshape].
  destruct (launch_inv (slots_written new grid block shared0) (in_block code)
              grid block shared0) as (shared & Hrun & Hlen' & Hshared).
  - intros done b t shared [Hl Hinv] [Hb Ht]%elem_of_threads Hnew.
    destruct (proj2 (load_is_Some shared0 b) ltac:(lia)) as [tb0 Htb0].
    destruct (Hinv b tb0 Hb Htb0) as (tb & Htb & Hltb & Hslots).
    pose proof (Hshape b tb0 Htb0) as Hl0.
    unfold in_block. cbn [blockIdx]. rewrite Htb. simpl.
    rewrite (Hcode b t tb0 tb done Hb Ht Hnew Hl0 Hltb Hslots).
    rewrite store_Some by lia. simpl. rewrite store_Some by lia.
    eexists. split; [done|]. split; [by rewrite length_insert|].
    intros b' tb0' Hb' Htb0'. destruct (decide (b' = b)) as [->|Hne].
    + assert (tb0' = tb0) as -> by congruence.
      rewrite load_insert_eq by lia. eexists. split; [done|].
      split; [by rewrite length_insert|].
      intros t' Ht'. destruct (decide (t' = t)) as [->|Hnet].
      * rewrite load_insert_eq by lia. rewrite decide_True; [done|].
        apply elem_of_app. right. left.
      * rewrite load_insert_ne by lia. rewrite (Hslots t' Ht').
        f_equal. apply decide_ext. rewrite elem_of_app, list_elem_of_singleton.
        split; [by left|]. intros [?|?]; [done|]. simplify_eq.
    + rewrite load_insert_ne by lia.
      destruct (Hinv b' tb0' Hb' Htb0') as (tb' & ? & ? & Hslots').
      exists tb'. split; [done|]. split; [done|].
      intros t' Ht'. rewrite (Hslots' t' Ht'). f_equal. apply decide_ext.
      rewrite elem_of_app, list_elem_of_singleton.
      split; [by left|]. intros [?|?]; [done|]. simplify_eq.
  - split; [done|]. intros b tb0 Hb Htb0. exists tb0. split; [done|]. split; [done|].
    intros t Ht. rewrite decide_False by apply not_elem_of_nil.
    apply load_elt. pose proof (Hshape b tb0 Htb0). lia.
  - exists shared. split; [done|]. split.
    + split; [lia|]. intros b tb Htb.
      pose proof (load_Some_lt _ _ _ Htb) as Hb.
      destruct (proj2 (load_is_Some shared0 b) ltac:(lia)) as [tb0 Htb0].
      destruct (Hshared b tb0 ltac:(lia) Htb0) as (tb' & ? & Hl & _).
      assert (tb' = tb) as -> by congruence. rewrite Hl. by apply (Hshape b).
    + intros b tb0 Hb Htb0. destruct (Hshared b tb0 Hb Htb0) as (tb & ? & _ & Hslots).
      exists tb. split; [done|]. intros t Ht. rewrite (Hslots t Ht), decide_True; [done|].
      rewrite (fair grid block). by apply elem_of_threads.
Qed.

End phases.

(** ** The dot product *)

Section dot.
Context {T : Type} `{Exact T} `{Device T} `{!Fair T}.
Implicit Types (a b tb : list T).

(** The loop of [dot_accumulate], from index [i] on, with the indices of
    [L] already added into slot [t]. *)
Lemma accumulate_loop a b n t tb g stride fuel :
  0 < stride → n + stride ≤ 2 ^ 64 →
  Z.of_nat (length a) = n → Z.of_nat (length b) = n →
  0 ≤ t < Z.of_nat (length tb) →
  ∀ i L,
    0 ≤ i → i mod stride = g → n - i ≤ Z.of_nat fuel →
    NoDup L → (∀ j, j ∈ L ↔ j mod stride = g ∧ 0 ≤ j < n ∧ j < i) →
    grid_stride fuel
      (λ i tb, x ← load a i; y ← load b i; acc ← load tb t;
               store tb t (fadd acc (fmul x y)))
      i stride n
      (<[Z.to_nat t := foldl (λ acc i, fadd acc (prod_at a b i)) fzero L]> tb)
    = Some (<[Z.to_nat t := thread_sum a b stride n g]> tb).
Proof.
  intros Hs Hwrap Ha Hb Ht.
  assert (∀ i L, n ≤ i → NoDup L →
            (∀ j, j ∈ L ↔ j mod stride = g ∧ 0 ≤ j < n ∧ j < i) →
            foldl (λ acc i, fadd acc (prod_at a b i)) fzero L
            = thread_sum a b stride n g) as Hdone.
  { intros i L Hi Hnd HL. rewrite foldl_sum_over, fadd_zero. unfold thread_sum.
    apply sum_over_perm, NoDup_Permutation; [done|apply NoDup_filter, NoDup_seqZ|].
    intros j. unfold visited. rewrite HL, list_elem_of_filter, elem_of_seqZ. lia. }
  induction fuel as [|fuel IH]; intros i L Hi Hmod Hfuel Hnd HL; simpl.
  - rewrite (proj2 (Z.ltb_ge i n)) by lia. by rewrite (Hdone i L) by (done || lia).
  - destruct (Z.ltb_spec i n) as [Hlt|Hge]; [|by rewrite (Hdone i L) by (done || lia)].
    rewrite (load_elt a i), (load_elt b i) by lia. simpl.
    rewrite load_insert_eq by lia. simpl.
    rewrite store_Some by (rewrite length_insert; lia). simpl.
    rewrite list_insert_insert_eq, size_t_small by lia.
    change (fadd ?v (fmul (elt a i) (elt b i))) with (fadd v (prod_at a b i)).
    rewrite <- (foldl_snoc (λ acc i, fadd acc (prod_at a b i))).
    apply IH; [lia| |lia| |].
    + rewrite <- Hmod. rewrite <- (Z.mul_1_l stride) at 1. apply Z.mod_add. lia.
    + apply NoDup_app. split; [done|]. split; [|apply NoDup_singleton].
      intros j Hj ->%list_elem_of_singleton. apply HL in Hj. lia.
    + intros j. rewrite elem_of_app, list_elem_of_singleton, HL. split.
      * intros [?| ->]; lia.
      * intros (Hm & Hj & Hlt'). destruct (decide (j = i)) as [|Hne]; [by right|].
        left. split; [done|]. split; [done|].
        apply (same_residue_close i j stride); auto. congruence.
Qed.

(** [dot_accumulate] leaves the sum of the thread in its slot. *)
Lemma dot_accumulate_thread (pa pb : buffer) (m : HIPStream T) n grid block blk t tb fuel :
  0 ≤ blk < grid → 0 ≤ t < block → block * grid < 2 ^ 32 → 0 ≤ n < 2 ^ 63 →
  Z.of_nat (length (contents m pa)) = n → Z.of_nat (length (contents m pb)) = n →
  n ≤ Z.of_nat fuel →
  block ≤ Z.of_nat (length tb) →
  dot_accumulate fuel pa pb n m (Thread t blk block grid) tb
  = store tb t (thread_sum (contents m pa) (contents m pb) (block * grid) n
                  (gid block (blk, t))).
Proof.
  intros Hblk Ht H32 Hn Ha Hb Hfuel Htb. unfold dot_accumulate, read.
  cbn [threadIdx blockIdx blockDim gridDim].
  pose proof (gid_bounds grid block blk t Hblk Ht) as Hg. unfold gid in *.
  cbn [fst snd] in *.
  rewrite (uint32_t_small (block * blk)), (uint32_t_small (block * grid)) by nia.
  rewrite size_t_small by lia. rewrite !store_Some by lia. simpl.
  rewrite (Z.add_comm (block * blk) t).
  apply (accumulate_loop (contents m pa) (contents m pb) n t tb
           (t + block * blk) (block * grid) fuel)
    with (L := []); try lia.
  - apply Z.mod_small. lia.
  - apply NoDup_nil_2.
  - intros j. split; [by intros ?%elem_of_nil|].
    intros (Hm & Hj & Hlt). pose proof (Z.mod_le j (block * grid)). lia.
Qed.

(** The guarded add of a turn of the reduction loop, whatever the other
    workers of the group ([d]) have done in this turn. *)
Lemma dot_reduce_thread offset grid block blk t (tb0 tb : list T) (d : Z → bool) :
  0 < offset → 2 * offset ≤ block → block < 2 ^ 63 →
  0 ≤ t < block → d t = false →
  Z.of_nat (length tb0) = block → length tb = length tb0 →
  (∀ t', 0 ≤ t' < block →
     load tb t' = Some (if d t' then guarded_add offset t' tb0 else elt tb0 t')) →
  dot_reduce offset (Thread t blk block grid) tb
  = store tb t (guarded_add offset t tb0).
Proof.
  intros Ho Hob Hb Ht Hnew Hl0 Hl Hslots. unfold dot_reduce, guarded_add in *.
  cbn [threadIdx].
  pose proof (Hslots t Ht) as Hself. rewrite Hnew in Hself.
  destruct (Z.ltb_spec t offset) as [Hlt|Hge].
  - rewrite decide_True by done. rewrite Hself. simpl.
    rewrite size_t_small by lia. rewrite (Hslots (t + offset)) by lia.
    rewrite (decide_False (P := t + offset < offset)) by lia. simpl.
    by destruct (d (t + offset)).
  - rewrite decide_False by lia. rewrite store_Some by lia.
    rewrite list_insert_id; [done|]. rewrite <- load_lookup, Z2Nat.id by lia. done.
Qed.

(** A turn of the loop moves the sum of the first [2 * offset] slots into
    the first [offset] slots. *)
Lemma halved_total offset tb tb' :
  0 < offset → 2 * offset ≤ Z.of_nat (length tb) → halved offset tb tb' →
  sum_over (elt tb') (seqZ 0 offset) = sum_over (elt tb) (seqZ 0 (2 * offset)).
Proof.
  intros Ho Hlen [Hl Hslots].
  replace (2 * offset) with (offset + offset) by lia.
  rewrite seqZ_app, sum_over_app by lia.
  replace (0 + offset) with (offset + 0) by lia.
  rewrite <- fmap_add_seqZ, sum_over_fmap.
  rewrite <- sum_over_fadd. apply sum_over_ext. intros t Ht%elem_of_seqZ.
  unfold elt at 1. rewrite Hslots by lia. unfold guarded_add.
  rewrite decide_True by lia. simpl. by rewrite (Z.add_comm offset t).
Qed.

(** The launches of the reduction loop: slot 0 of every block ends up with
    the sum of the [m] first slots. *)
Lemma reduce_phases grid block offsets :
  block < 2 ^ 63 →
  ∀ m shared,
    halves m offsets → m ≤ block → shared_shape grid block shared →
    ∃ shared',
      for_each (λ offset shared, launch grid block (in_block (dot_reduce offset)) shared)
        offsets shared = Some shared' ∧
      shared_shape grid block shared' ∧
      ∀ blk tb0, 0 ≤ blk < grid → load shared blk = Some tb0 →
        ∃ tb, load shared' blk = Some tb ∧
              elt tb 0 = sum_over (elt tb0) (seqZ 0 m).
Proof.
  intros Hblock. induction offsets as [|offset offsets IH]; intros m shared Hm Hmb Hshape.
  - simpl in *. subst m. exists shared. split; [done|]. split; [done|].
    intros blk tb0 _ Htb0. exists tb0. split; [done|].
    change (seqZ 0 1) with [0]. by rewrite sum_over_singleton.
  - destruct Hm as (Ho & -> & Hm). simpl.
    destruct (launch_phase (dot_reduce offset) (λ _ t tb0, guarded_add offset t tb0)
                grid block shared) as (shared1 & -> & Hshape1 & Hshared1).
    { intros blk t tb0 tb done Hblk Ht Hnew Hl0 Hl Hslots.
      apply (dot_reduce_thread offset grid block blk t tb0 tb
               (λ t', bool_decide ((blk, t') ∈ done))); try done.
      - by apply bool_decide_eq_false.
      - intros t' Ht'. rewrite (Hslots t' Ht').
        by destruct (decide ((blk, t') ∈ done));
          [rewrite bool_decide_eq_true_2|rewrite bool_decide_eq_false_2]. }
    { done. }
    simpl. destruct (IH offset shared1 Hm ltac:(lia) Hshape1)
      as (shared' & -> & Hshape' & Hshared').
    exists shared'. split; [done|]. split; [done|].
    intros blk tb0 Hblk Htb0.
    destruct (Hshared1 blk tb0 Hblk Htb0) as (tb1 & Htb1 & Hslots).
    destruct (Hshared' blk tb1 Hblk Htb1) as (tb & Htb & Hsum).
    exists tb. split; [done|]. rewrite Hsum.
    pose proof (proj2 Hshape blk tb0 Htb0) as Hl0.
    pose proof (proj2 Hshape1 blk tb1 Htb1) as Hl1.
    apply halved_total; [done|lia|]. split; [lia|].
    intros t Ht. apply Hslots. lia.
Qed.

(** The offsets of the reduction loop of a group of [TBSIZE] threads halve
    [TBSIZE] down to one. *)
Lemma reduce_offsets_TBSIZE : halves TBSIZE (reduce_offsets TBSIZE).
Proof. vm_compute. repeat split. Qed.

(** The last piece: thread 0 of every block writes its slot out, into
    the buffer [p] and nowhere else. *)
Lemma dot_result_launch grid block (shared : list (list T)) (v : Z → T)
    (p : buffer) (st : HIPStream T) :
  0 < block → Z.of_nat (length (contents st p)) = grid →
  (∀ blk, 0 ≤ blk < grid → ∃ tb, load shared blk = Some tb ∧ load tb 0 = Some (v blk)) →
  ∃ s',
    launch grid block
      (λ th m, tb ← load shared (blockIdx th); dot_result p tb th m) st
    = Some (with_contents st p s') ∧
    length s' = length (contents st p) ∧
    ∀ blk, 0 ≤ blk < grid → load s' blk = Some (v blk).
Proof.
  intros Hblock Hlen Hshared.
  destruct (launch_inv
              (λ done m, ∃ s, m = with_contents st p s ∧
                 length s = length (contents st p) ∧
                 ∀ blk, 0 ≤ blk < grid →
                   load s blk = Some (if decide ((blk, 0) ∈ done) then v blk
                                      else elt (contents st p) blk))
              (λ th m, tb ← load shared (blockIdx th); dot_result p tb th m)
              grid block st) as (m' & Hrun & s' & -> & Hl & Hsum').
  - intros done blk t m (s & -> & Hl & Hs) [Hblk Ht]%elem_of_threads Hnew.
    cbn [blockIdx].
    destruct (Hshared blk Hblk) as (tb & -> & Htb). simpl.
    unfold dot_result. cbn [threadIdx blockIdx].
    destruct (Z.eqb_spec t 0) as [->|Hne].
    + rewrite Htb. simpl. unfold write. rewrite contents_with_eq.
      rewrite store_Some by lia. simpl. rewrite with_contents_twice.
      eexists. split; [done|]. eexists. split; [done|].
      split; [by rewrite length_insert|]. intros blk' Hblk'.
      destruct (decide (blk' = blk)) as [->|Hneb].
      * rewrite load_insert_eq by lia. rewrite decide_True; [done|].
        apply elem_of_app. right. left.
      * rewrite load_insert_ne by lia. rewrite (Hs blk' Hblk'). f_equal.
        apply decide_ext. rewrite elem_of_app, list_elem_of_singleton.
        split; [by left|]. intros [?|?]; [done|]. simplify_eq.
    + eexists. split; [done|]. exists s. split; [done|]. split; [done|].
      intros blk' Hblk'.
      rewrite (Hs blk' Hblk'). f_equal.
      apply decide_ext. rewrite elem_of_app, list_elem_of_singleton.
      split; [by left|]. intros [?|?]; [done|]. simplify_eq.
  - exists (contents st p). split; [by rewrite with_contents_id|]. split; [done|].
    intros blk Hblk. rewrite decide_False by apply not_elem_of_nil.
    apply load_elt. lia.
  - exists s'. split; [done|]. split; [done|]. intros blk Hblk.
    rewrite (Hsum' blk Hblk), decide_True; [done|].
    rewrite (fair grid block). apply elem_of_threads. lia.
Qed.

(** The loop of the host over the partial sums. *)
Lemma host_sum (s : list T) (v : Z → T) l z :
  (∀ i, i ∈ l → load s i = Some (v i)) →
  for_each (λ i sum, x ← load s i; Some (fadd sum x)) l z
  = Some (foldl (λ acc i, fadd acc (v i)) z l).
Proof.
  revert z. induction l as [|i l IH]; intros z Hl; simpl; [done|].
  rewrite Hl by left. simpl. apply IH. intros j Hj. apply Hl. by right.
Qed.

(** The launch of [dot_kernel] leaves the sum of every block in the
    buffer [p], and the rest of the memory as it was. *)
Lemma launch_dot_kernel_sums (pa pb p : buffer) (st : HIPStream T) n grid fuel :
  0 < grid → TBSIZE * grid < 2 ^ 32 → 0 ≤ n < 2 ^ 63 →
  Z.of_nat (length (contents st pa)) = n → Z.of_nat (length (contents st pb)) = n →
  n ≤ Z.of_nat fuel →
  Z.of_nat (length (contents st p)) = grid →
  ∃ s',
    launch_dot_kernel grid TBSIZE fuel pa pb p n st = Some (with_contents st p s') ∧
    length s' = length (contents st p) ∧
    ∀ blk, 0 ≤ blk < grid →
      load s' blk = Some (block_sum (contents st pa) (contents st pb) grid n blk).
Proof.
  set (a := contents st pa). set (b := contents st pb).
  intros Hgrid H32 Hn Ha Hb Hfuel Hsum. unfold launch_dot_kernel.
  assert (0 < TBSIZE < 2 ^ 63) as HTB by (unfold TBSIZE; lia).
  set (shared0 := replicate (Z.to_nat grid) (uninit <$> seqZ 0 TBSIZE)).
  assert (shared_shape grid TBSIZE shared0) as Hshape0.
  { split; [unfold shared0; rewrite length_replicate; lia|].
    intros blk tb Htb.
    unfold load in Htb. destruct (decide (0 ≤ blk)); [|done].
    apply lookup_replicate_1 in Htb as [-> _].
    rewrite length_fmap, length_seqZ. lia. }
  destruct (launch_phase (dot_accumulate fuel pa pb n st)
              (λ blk t _, thread_sum a b (TBSIZE * grid) n (gid TBSIZE (blk, t)))
              grid TBSIZE shared0) as (shared1 & -> & Hshape1 & Hshared1).
  { intros blk t tb0 tb done Hblk Ht _ Hl0 Hl _.
    apply dot_accumulate_thread; try done; lia. }
  { done. }
  cbn [mbind option_bind].
  destruct (reduce_phases grid TBSIZE (reduce_offsets TBSIZE) ltac:(lia) TBSIZE shared1
              reduce_offsets_TBSIZE ltac:(lia) Hshape1)
    as (shared2 & -> & Hshape2 & Hshared2).
  cbn [mbind option_bind].
  apply dot_result_launch; [lia|done|].
  intros blk Hblk.
  destruct (proj2 (load_is_Some shared0 blk) ltac:(destruct Hshape0; lia)) as [tb0 Htb0].
  destruct (Hshared1 blk tb0 Hblk Htb0) as (tb1 & Htb1 & Hslots).
  destruct (Hshared2 blk tb1 Hblk Htb1) as (tb2 & Htb2 & Hsum2).
  exists tb2. split; [done|].
  pose proof (proj2 Hshape2 blk tb2 Htb2) as Hl2.
  rewrite load_elt by lia. f_equal. rewrite Hsum2. unfold block_sum.
  apply sum_over_ext. intros t Ht%elem_of_seqZ. unfold elt.
  by rewrite Hslots by lia.
Qed.

(** [dot] returns the sum of the products over all indices. *)
Lemma dot_run (st : HIPStream T) :
  well_formed st → dot_ready st →
  ∃ s, dot st = Some (sum_over (prod_at (d_a st) (d_b st)) (seqZ 0 (array_size st)),
                      with_sums st s) ∧
       length s = length (sums st) ∧
       ∀ blk, 0 ≤ blk < dot_num_blocks st →
         load s blk = Some (block_sum (d_a st) (d_b st) (dot_num_blocks st)
                              (array_size st) blk).
Proof.
  intros Hwf [Hblocks H32 Hsums].
  destruct (stream_geometry st Hwf) as (Hsz & _ & _ & _ & _ & Hfuel).
  destruct Hwf as [Hn Ha Hb Hc]. unfold dot. rewrite Hsz.
  destruct (launch_dot_kernel_sums BufferA BufferB PartialSums st (array_size st)
              (dot_num_blocks st) (loop_fuel st)) as (s & -> & Hl & Hs);
    try done; try lia.
  cbn [contents with_contents with_sums sums dot_num_blocks mbind option_bind] in *.
  rewrite (host_sum s (block_sum (d_a st) (d_b st) (dot_num_blocks st)
                         (array_size st))).
  2: { intros i Hi%elem_of_seqZ. apply Hs. lia. }
  simpl. exists s. split; [|done]. do 2 f_equal.
  rewrite foldl_sum_over, fadd_zero. unfold block_sum.
  by rewrite (Z.mul_comm TBSIZE), thread_sum_all by (unfold TBSIZE; lia).
Qed.

End dot.

(** ** The reduction loop under its barriers *)

Lemma code_of_cons offset offsets :
  code_of (offset :: offsets) = Sync :: GuardedAdd offset :: code_of offsets.
Proof. done. Qed.

Lemma code_of_not_add offsets offset rest : code_of offsets ≠ GuardedAdd offset :: rest.
Proof. by destruct offsets. Qed.

Lemma Forall_replicate_inv {A} (P : A → Prop) (n : nat) x :
  (0 < n)%nat → Forall P (replicate n x) → P x.
Proof. destruct n; [lia|]. intros _ HP. by apply Forall_cons_1 in HP as [? _]. Qed.

Lemma remaining_insert {T} (tb tb' : list T) ws (l : nat) i rest :
  ws !! l = Some (i :: rest) →
  (remaining (Group tb' (<[l := rest]> ws)) < remaining (Group tb ws))%nat.
Proof.
  unfold remaining. cbn [workers]. revert l.
  induction ws as [|w ws IH]; intros [|l] Hl; simplify_eq/=; [lia|].
  specialize (IH l Hl). lia.
Qed.

Lemma remaining_tail {T} (tb tb' : list T) ws :
  ws ≠ [] → Forall (λ w, head w = Some Sync) ws →
  (remaining (Group tb' (tail <$> ws)) < remaining (Group tb ws))%nat.
Proof.
  unfold remaining. cbn [workers]. intros Hne Hws.
  induction Hws as [|w ws Hw Hws IH]; [done|]. csimpl.
  destruct w as [|i w]; [done|]. simpl.
  destruct ws as [|w' ws]; [simpl; lia|]. specialize (IH ltac:(done)). lia.
Qed.

Section barrier.
Context {T : Type} `{Exact T}.
Variables (block : Z) (total : T).
Hypothesis block_range : 0 < block < 2 ^ 63.
Implicit Types (g : group (T:=T)) (tb : list T).

(** A turn in which every worker has done its guarded add is over. *)
Lemma in_turn_all_done g offset offsets tb0 (D : list nat) :
  0 < offset → 2 * offset ≤ block → halves offset offsets →
  Z.of_nat (length tb0) = block → Z.of_nat (length (tb_sum g)) = block →
  Z.of_nat (length (workers g)) = block →
  sum_over (elt tb0) (seqZ 0 (2 * offset)) = total →
  (∀ l : nat, Z.of_nat l < block →
     workers g !! l = Some (if decide (l ∈ D) then code_of offsets
                            else GuardedAdd offset :: code_of offsets) ∧
     load (tb_sum g) (Z.of_nat l)
       = Some (if decide (l ∈ D) then guarded_add offset (Z.of_nat l) tb0
               else elt tb0 (Z.of_nat l))) →
  (∀ l : nat, Z.of_nat l < block → l ∈ D) →
  at_barrier block total g.
Proof.
  intros Ho Hob Hh Hl0 Hl Hlw Hsum Hall HD.
  exists offset, offsets. split_and!; [done|lia|done| |].
  - apply list_eq. intros l. destruct (decide (Z.of_nat l < block)) as [Hlt|Hge].
    + rewrite (proj1 (Hall l Hlt)), decide_True by auto.
      by rewrite lookup_replicate_2 by lia.
    + rewrite !lookup_ge_None_2; [done|rewrite length_replicate|]; lia.
  - rewrite <- Hsum. apply halved_total; [done|lia|]. split; [lia|].
    intros t Ht. pose proof (proj2 (Hall (Z.to_nat t) ltac:(lia))) as Hslot.
    rewrite Z2Nat.id in Hslot by lia. rewrite Hslot, decide_True; [done|].
    apply HD. lia.
Qed.

Lemma at_barrier_step g g' :
  at_barrier block total g → group_step g g' → in_turn block total g'.
Proof.
  intros (m & offsets & Hh & Hm & Hl & Hws & Hsum) Hstep.
  destruct Hstep as [tb tb' ws l offset rest th Hw _ _|tb ws Hsync];
    cbn [tb_sum workers] in *.
  - subst ws. apply lookup_replicate_1 in Hw as [Hw _].
    symmetry in Hw. by apply code_of_not_add in Hw.
  - subst ws. destruct offsets as [|offset offsets].
    { by apply Forall_replicate_inv in Hsync; [|lia]. }
    destruct Hh as (Ho & -> & Hh). rewrite code_of_cons, fmap_replicate. simpl.
    exists offset, offsets, tb, []. cbn [tb_sum workers].
    rewrite length_replicate. split_and!; try done; try lia.
    intros l Hlt. rewrite decide_False by apply not_elem_of_nil.
    rewrite lookup_replicate_2 by lia. split; [done|]. apply load_elt. lia.
Qed.

Lemma in_turn_step g g' :
  in_turn block total g → group_step g g' → in_turn block total g'.
Proof.
  intros (offset & offsets & tb0 & D & Ho & Hob & Hh & Hl0 & Hl & Hlw & Hsum & Hall) Hstep.
  destruct Hstep as [tb tb' ws l offset' rest th Hw Hth Hrun|tb ws Hsync];
    cbn [tb_sum workers] in *.
  - pose proof (lookup_lt_Some _ _ _ Hw) as Hlt.
    destruct (Hall l ltac:(lia)) as [Hwl Htbl]. rewrite Hw in Hwl.
    destruct (decide (l ∈ D)) as [?|HlD]; [by destruct offsets|].
    injection Hwl as -> ->.
    destruct th as [t blk bd gd]. cbn [threadIdx] in Hth. subst t.
    change (dot_reduce offset (Thread (Z.of_nat l) blk block gd) tb = Some tb') in Hrun.
    rewrite (dot_reduce_thread offset gd block blk (Z.of_nat l) tb0 tb
               (λ t, bool_decide (Z.to_nat t ∈ D))) in Hrun; try lia.
    2: { apply bool_decide_eq_false. by rewrite Nat2Z.id. }
    2: { intros t Ht. pose proof (proj2 (Hall (Z.to_nat t) ltac:(lia))) as Hslot.
         rewrite Z2Nat.id in Hslot by lia. rewrite Hslot.
         by destruct (decide (Z.to_nat t ∈ D));
           [rewrite bool_decide_eq_true_2|rewrite bool_decide_eq_false_2]. }
    rewrite store_Some in Hrun by lia. injection Hrun as <-.
    exists offset, offsets, tb0, (l :: D). cbn [tb_sum workers].
    rewrite !length_insert, Nat2Z.id. split_and!; try done.
    intros l' Hl'. destruct (decide (l' = l)) as [->|Hne].
    + rewrite !decide_True by left.
      rewrite load_lookup, !list_lookup_insert_eq by lia. done.
    + destruct (Hall l' Hl') as [Hwl' Htbl'].
      rewrite load_lookup in Htbl' |- *.
      rewrite !list_lookup_insert_ne, Hwl', Htbl' by done.
      split; f_equal; apply decide_ext; rewrite elem_of_cons;
        (split; [by right|intros [?|?]; [congruence|done]]).
  - apply (at_barrier_step (Group tb ws)); [|by constructor].
    apply (in_turn_all_done _ offset offsets tb0 D); try done.
    intros l Hlt. destruct (decide (l ∈ D)) as [|HlD]; [done|].
    destruct (Hall l Hlt) as [Hwl _]. rewrite decide_False in Hwl by done.
    by apply (Forall_lookup_1 _ _ _ _ Hsync) in Hwl.
Qed.

Lemma reducing_step g g' :
  reducing block total g → group_step g g' → reducing block total g'.
Proof.
  intros [?|?] ?; right; eauto using at_barrier_step, in_turn_step.
Qed.

Lemma reducing_rtc g g' :
  reducing block total g → rtc group_step g g' → reducing block total g'.
Proof. intros Hg Hsteps. induction Hsteps; eauto using reducing_step. Qed.

Lemma at_barrier_progress g :
  at_barrier block total g → finished g ∨ ∃ g', group_step g g'.
Proof.
  destruct g as [tb ws]. intros (m & offsets & Hh & Hm & Hl & Hws & Hsum).
  cbn [tb_sum workers] in *. subst ws. destruct offsets as [|offset offsets].
  - left. unfold finished. cbn [workers]. by apply Forall_replicate.
  - right. eexists. apply step_barrier. by apply Forall_replicate.
Qed.

Lemma reducing_progress g :
  reducing block total g → finished g ∨ ∃ g', group_step g g'.
Proof.
  intros [Hg|Hg]; [by apply at_barrier_progress|].
  pose proof Hg as
    (offset & offsets & tb0 & D & Ho & Hob & Hh & Hl0 & Hl & Hlw & Hsum & Hall).
  destruct (decide (Forall (λ l, l ∈ D) (seq 0 (Z.to_nat block)))) as [HD|HD].
  - apply at_barrier_progress.
    apply (in_turn_all_done _ offset offsets tb0 D); try done.
    intros l Hlt. apply (proj1 (Forall_forall _ _) HD). apply elem_of_seq. lia.
  - right. apply not_Forall_Exists in HD; [|apply _].
    apply Exists_exists in HD as (l & Hl'%elem_of_seq & HlD).
    destruct g as [tb ws]. cbn [tb_sum workers] in *.
    destruct (Hall l ltac:(lia)) as [Hwl _]. rewrite decide_False in Hwl by done.
    exists (Group (<[l := guarded_add offset (Z.of_nat l) tb0]> tb)
                  (<[l := code_of offsets]> ws)).
    apply (step_worker tb _ ws l offset _ (Thread (Z.of_nat l) 0 block 1) Hwl);
      [done|].
    rewrite (dot_reduce_thread offset 1 block 0 (Z.of_nat l) tb0 tb
               (λ t, bool_decide (Z.to_nat t ∈ D))); try lia.
    + rewrite store_Some by lia. by rewrite Nat2Z.id.
    + apply bool_decide_eq_false. by rewrite Nat2Z.id.
    + intros t Ht. pose proof (proj2 (Hall (Z.to_nat t) ltac:(lia))) as Hslot.
      rewrite Z2Nat.id in Hslot by lia. rewrite Hslot.
      by destruct (decide (Z.to_nat t ∈ D));
        [rewrite bool_decide_eq_true_2|rewrite bool_decide_eq_false_2].
Qed.

Lemma at_barrier_finished g :
  at_barrier block total g → finished g → load (tb_sum g) 0 = Some total.
Proof.
  destruct g as [tb ws]. intros (m & offsets & Hh & Hm & Hl & Hws & Hsum) Hfin.
  unfold finished in Hfin. cbn [tb_sum workers] in *. subst ws.
  destruct offsets as [|offset offsets].
  - simpl in Hh. subst m. rewrite load_elt by lia. f_equal.
    rewrite <- Hsum. change (seqZ 0 1) with [0]. by rewrite sum_over_singleton.
  - by apply Forall_replicate_inv in Hfin; [|lia].
Qed.

Lemma reducing_finished g :
  reducing block total g → finished g → load (tb_sum g) 0 = Some total.
Proof.
  intros [Hg|Hg] Hfin; [by apply at_barrier_finished|].
  destruct Hg as
    (offset & offsets & tb0 & D & Ho & Hob & Hh & Hl0 & Hl & Hlw & Hsum & Hall).
  apply at_barrier_finished; [|done].
  apply (in_turn_all_done _ offset offsets tb0 D); try done.
  intros l Hlt. destruct (decide (l ∈ D)) as [|HlD]; [done|].
  destruct (Hall l Hlt) as [Hwl _]. rewrite decide_False in Hwl by done.
  by apply (Forall_lookup_1 _ _ _ _ Hfin) in Hwl.
Qed.

Lemma reducing_remaining g g' :
  reducing block total g → group_step g g' → (remaining g' < remaining g)%nat.
Proof.
  intros Hg Hstep. destruct Hstep as [tb tb' ws l offset rest th Hw _ _|tb ws Hsync].
  - by apply (remaining_insert _ _ _ _ (GuardedAdd offset)).
  - apply remaining_tail; [|done]. intros ->.
    destruct Hg as [(m & offsets & _ & _ & _ & Hws & _)|Hg]; cbn [workers] in *.
    + symmetry in Hws. apply (f_equal length) in Hws.
      rewrite length_replicate in Hws. simpl in Hws. lia.
    + destruct Hg as (_ & _ & _ & _ & _ & _ & _ & _ & _ & Hlw & _).
      simpl in Hlw. lia.
Qed.

Lemma reducing_terminates g :
  reducing block total g → ∃ g', rtc group_step g g' ∧ finished g'.
Proof.
  remember (remaining g) as k eqn:Hk. revert g Hk.
  induction (lt_wf k) as [k _ IH]. intros g -> Hg.
  destruct (reducing_progress g Hg) as [Hfin|[g1 Hstep]].
  - by exists g.
  - destruct (IH (remaining g1) (reducing_remaining g g1 Hg Hstep) g1 eq_refl)
      as (g' & Hsteps & Hfin); [by apply (reducing_step g)|].
    exists g'. split; [|done]. by apply (rtc_l _ _ g1).
Qed.

End barrier.

(** The group as the reduction loop finds it. *)
Lemma group_start_reducing {T} `{Exact T} (tb : list T) :
  Z.of_nat (length tb) = TBSIZE →
  reducing TBSIZE (sum_over (elt tb) (seqZ 0 TBSIZE)) (group_start TBSIZE tb).
Proof.
  intros Hl. left. exists TBSIZE, (reduce_offsets TBSIZE).
  split_and!; [apply reduce_offsets_TBSIZE|done..].
Qed.

(** ** The constructor *)


Section constructor.
Context {T : Type} `{Device T}.
Implicit Types (r : Residency) (rt : runtime).

(** [InvalidDevice] is thrown exactly when the devices could be counted
    and the index is not below their number. *)
Lemma construct_InvalidDevice r rt sizeofT ARRAY_SIZE device_index :
  (HIPStream_new (T:=T) r rt sizeofT ARRAY_SIZE device_index).2 = inl InvalidDevice ↔
  (hipGetDeviceCount rt).1 = hipSuccess ∧ (hipGetDeviceCount rt).2 ≤ device_index.
Proof.
  run_ctor; (split; [intros ?; try discriminate|intros [? ?]; try discriminate]);
    try (split; [done|]); try done; lia.
Qed.

(** When [InsufficientMemory] is thrown, the partial sums have been
    allocated and nothing else, and the check has failed as it is written. *)
Lemma construct_InsufficientMemory r rt sizeofT ARRAY_SIZE device_index bufs :
  HIPStream_new (T:=T) r rt sizeofT ARRAY_SIZE device_index
    = (bufs, inl InsufficientMemory) →
  bufs = [PartialSums] ∧
  totalGlobalMem (hipGetDeviceProperties rt device_index).2
    < size_t (3 * size_t (sizeofT * size_t ARRAY_SIZE)).
Proof.
  run_ctor; intros ?; simplify_eq; (split; [done|lia]).
Qed.

(** The check as the code evaluates it. *)
Lemma construct_memory_check r rt sizeofT ARRAY_SIZE device_index :
  let props := (hipGetDeviceProperties rt device_index).2 in
  reaches_memory_check rt device_index
    (size_t (sizeofT * size_t (multiProcessorCount props * 4))) →
  (HIPStream_new (T:=T) r rt sizeofT ARRAY_SIZE device_index).2 = inl InsufficientMemory ↔
  totalGlobalMem props < size_t (3 * size_t (sizeofT * size_t ARRAY_SIZE)).
Proof.
  intros props (H1 & H2 & H3 & H4 & H5 & H6). subst props.
  unfold HIPStream_new, construct, getDeviceName, getDeviceDriver, ctor_bind,
    check_error, allocated, throw, ctor_ret.
  rewrite H1, H3, H4, H5, H6, Z.geb_leb, (proj2 (Z.leb_gt _ _)) by lia.
  destruct (Z.ltb_spec (totalGlobalMem (hipGetDeviceProperties rt device_index).2)
              (size_t (3 * size_t (sizeofT * size_t ARRAY_SIZE)))).
  - cbn [fst snd app]. split; [lia|done].
  - split; [|lia]. destruct r;
      repeat match goal with
             | |- context [match ?e with hipSuccess => _ | hipError _ => _ end] =>
                 destruct e eqn:?
             end; cbn [fst snd app]; done.
Qed.

(** Without wrap-around, the check compares the memory of the device with
    the size of the three arrays. *)
Lemma array_bytes_exact sizeofT ARRAY_SIZE :
  0 < sizeofT → 0 ≤ ARRAY_SIZE → 3 * sizeofT * ARRAY_SIZE < 2 ^ 64 →
  size_t (3 * size_t (sizeofT * size_t ARRAY_SIZE)) = 3 * sizeofT * ARRAY_SIZE.
Proof.
  intros. rewrite (size_t_small ARRAY_SIZE) by nia.
  rewrite (size_t_small (sizeofT * ARRAY_SIZE)) by nia.
  rewrite size_t_small by nia. lia.
Qed.

End constructor.

(** ** The instances of the examples *)

Lemma Z_exact scalar : @Exact Z (Z_element scalar).
Proof. split; simpl; intros; lia. Qed.

Lemma in_order_fair : @Fair Z in_order.
Proof. intros grid block. reflexivity. Qed.

Lemma backwards_fair : @Fair Z backwards.
Proof. intros grid block. simpl. apply reverse_Permutation. Qed.

Lemma small_stream_well_formed : well_formed small_stream.
Proof. by split. Qed.

Lemma small_stream_dot_ready : dot_ready small_stream.
Proof. by split. Qed.

Lemma ten_million_well_formed : well_formed ten_million.
Proof.
  split; unfold ten_million; cbn [array_size d_a d_b d_c];
    rewrite ?length_replicate; lia.
Qed.

Lemma ten_million_dot_ready : dot_ready ten_million.
Proof. by split. Qed.

(** ** The model at work *)

Example copy_small :
  @copy Z in_order small_stream
  = Some (Stream 5 2 [0; 0] [1; 2; 3; 4; 5] [10; 20; 30; 40; 50] [1; 2; 3; 4; 5]).
Proof. vm_compute. reflexivity. Qed.

Example nstream_small_backwards :
  @nstream Z (Z_element 3) backwards small_stream
  = Some (Stream 5 2 [0; 0] [32; 43; 54; 65; 76] [10; 20; 30; 40; 50] [7; 7; 7; 7; 7]).
Proof. vm_compute. reflexivity. Qed.

Example dot_small :
  @dot Z (Z_element 3) in_order small_stream
  = Some (550, Stream 5 2 [550; 0] [1; 2; 3; 4; 5] [10; 20; 30; 40; 50] [7; 7; 7; 7; 7]).
Proof. vm_compute. reflexivity. Qed.

Example read_short_vector :
  @read_arrays Z Managed small_stream [0; 0; 0; 0] [0; 0; 0; 0; 0] [0; 0; 0; 0; 0] = None.
Proof. vm_compute. reflexivity. Qed.

Example construct_one_gpu :
  ∃ st : HIPStream Z,
    @HIPStream_new Z in_order DeviceOnly one_gpu 8 33554432 0
      = ([PartialSums; BufferA; BufferB; BufferC], inr st) ∧
    array_size st = 33554432 ∧ dot_num_blocks st = 240.
Proof.
  unfold HIPStream_new, construct, getDeviceName, getDeviceDriver, ctor_bind.
  eexists. split; [reflexivity|]. by split.
Qed.

(** ** The kernels keep a stream well formed *)

Section preserved.
Context {T : Type}.
Implicit Types (st : HIPStream T).

Lemma well_formed_with_a st a :
  well_formed st → length a = length (d_a st) → well_formed (with_a st a).
Proof. intros [? Ha ? ?] Hl. split; cbn; try done. by rewrite Hl. Qed.

Lemma well_formed_with_b st b :
  well_formed st → length b = length (d_b st) → well_formed (with_b st b).
Proof. intros [? ? Hb ?] Hl. split; cbn; try done. by rewrite Hl. Qed.

Lemma well_formed_with_c st c :
  well_formed st → length c = length (d_c st) → well_formed (with_c st c).
Proof. intros [? ? ? Hc] Hl. split; cbn; try done. by rewrite Hl. Qed.

End preserved.

(** * The kernel suite *)

(** C1.  For every array length of at least one, whether or not [TBSIZE]
    or [dot_num_blocks] divides it and also below one group, [dot] returns
    the inner product of A and B as the host computes it index after index
    (over exact arithmetic).  On the way, the entry of every group in the
    partial sum buffer is the sum, over the workers of the group, of the
    products at the indices the worker strides over. *)
Theorem dot_inner_product {T : Type} `{Exact T} `{Device T} `{!Fair T}
    (st : HIPStream T) :
  well_formed st → dot_ready st →
  ∃ s, dot st = Some (inner_product (d_a st) (d_b st), with_sums st s) ∧
       length s = length (sums st) ∧
       ∀ blk, 0 ≤ blk < dot_num_blocks st →
         load s blk = Some (block_sum (d_a st) (d_b st) (dot_num_blocks st)
                              (array_size st) blk).
Proof.
  intros Hwf Hdr. destruct (dot_run st Hwf Hdr) as (s & Hdot & Hl & Hs).
  exists s. split; [|done]. rewrite Hdot. do 2 f_equal.
  destruct Hwf as [Hn Ha Hb Hc].
  rewrite inner_product_sum_over by lia. by rewrite Ha.
Qed.

Lemma dot_inner_product_witness :
  well_formed small_stream ∧ dot_ready small_stream ∧
  ∃ s, @dot Z (Z_element 3) backwards small_stream
         = Some (@inner_product Z (Z_element 3) (d_a small_stream) (d_b small_stream),
                 with_sums small_stream s) ∧
       length s = length (sums small_stream) ∧
       ∀ blk, 0 ≤ blk < dot_num_blocks small_stream →
         load s blk = Some (@block_sum Z (Z_element 3) (d_a small_stream)
                              (d_b small_stream) (dot_num_blocks small_stream)
                              (array_size small_stream) blk).
Proof.
  split; [exact small_stream_well_formed|].
  split; [exact small_stream_dot_ready|].
  exact (@dot_inner_product Z (Z_element 3) (Z_exact 3) backwards backwards_fair
           small_stream small_stream_well_formed small_stream_dot_ready).
Defined.

(** C2.  For every array length of at least one and under each of the
    three builds, [init_arrays a0 b0 c0] followed by [read_arrays] into
    vectors of the length of the arrays leaves [a0] in every element of the
    first vector, [b0] in every element of the second and [c0] in every
    element of the third. *)
Theorem init_then_read {T : Type} `{Element T} `{Device T} `{!Fair T}
    (res : Residency) (st : HIPStream T) (a0 b0 c0 : T) (a b c : list T) :
  well_formed st →
  Z.of_nat (length a) = array_size st →
  Z.of_nat (length b) = array_size st →
  Z.of_nat (length c) = array_size st →
  ∃ st' h,
    init_arrays a0 b0 c0 st = Some st' ∧
    read_arrays res st' a b c = Some h ∧
    host_a h = replicate (Z.to_nat (array_size st)) a0 ∧
    host_b h = replicate (Z.to_nat (array_size st)) b0 ∧
    host_c h = replicate (Z.to_nat (array_size st)) c0.
Proof.
  intros Hwf Hla Hlb Hlc.
  destruct (init_arrays_run a0 b0 c0 st Hwf) as (a' & b' & c' & -> & -> & -> & ->).
  destruct Hwf as [Hn Ha Hb Hc].
  replace (length (d_a st)) with (Z.to_nat (array_size st)) by lia.
  replace (length (d_b st)) with (Z.to_nat (array_size st)) by lia.
  replace (length (d_c st)) with (Z.to_nat (array_size st)) by lia.
  set (n := Z.to_nat (array_size st)) in *.
  set (st' := with_c _ _).
  assert (well_formed st') as Hwf'.
  { split; cbn; rewrite ?length_replicate; lia. }
  exists st'.
  assert (res = DeviceOnly ∨ res ≠ DeviceOnly) as [->|Hres] by (destruct res; auto).
  - eexists. split; [done|]. split.
    + apply read_arrays_device_only. cbn. rewrite !length_replicate.
      split_and!; [lia..|done].
    + cbn. replace (length a) with n by lia. replace (length b) with n by lia.
      replace (length c) with n by lia.
      by rewrite !take_replicate, Nat.min_id.
  - eexists. split; [done|]. split.
    + apply (read_arrays_shared res st' a b c _ Hres Hwf'). cbn.
      split_and!; [lia..|done].
    + cbn. fold n. rewrite !drop_ge by lia. by rewrite !app_nil_r.
Qed.

Lemma init_then_read_witness :
  ∃ st' h,
    @init_arrays Z in_order 1 2 0 small_stream = Some st' ∧
    read_arrays Managed st' [9; 9; 9; 9; 9] [8; 8; 8; 8; 8] [7; 7; 7; 7; 7] = Some h ∧
    host_a h = replicate (Z.to_nat (array_size small_stream)) 1 ∧
    host_b h = replicate (Z.to_nat (array_size small_stream)) 2 ∧
    host_c h = replicate (Z.to_nat (array_size small_stream)) 0.
Proof.
  apply (@init_then_read Z (Z_element 3) in_order in_order_fair Managed small_stream).
  - exact small_stream_well_formed.
  - reflexivity.
  - reflexivity.
  - reflexivity.
Defined.

(** C3.  For every array length of at least one and every state of the
    buffers, [nstream] leaves in every element of A its value before the
    call plus the sum of the element of B and of [startScalar] times the
    element of C (the sum being taken in the order of the code, and in any
    order over exact arithmetic); B and C are unchanged. *)
Theorem nstream_accumulates {T : Type} `{Element T} `{Device T} `{!Fair T}
    (st : HIPStream T) :
  well_formed st →
  ∃ st',
    nstream st = Some st' ∧ well_formed st' ∧
    d_b st' = d_b st ∧ d_c st' = d_c st ∧
    ∀ i : nat, Z.of_nat i < array_size st →
      ∃ x y z,
        d_a st !! i = Some x ∧ d_b st !! i = Some y ∧ d_c st !! i = Some z ∧
        d_a st' !! i = Some (fadd x (fadd y (fmul startScalar z))) ∧
        (Exact T → d_a st' !! i = Some (fadd (fadd x y) (fmul startScalar z))).
Proof.
  intros Hwf. destruct (nstream_run st Hwf) as (a & -> & Hl & Ha).
  exists (with_a st a). split; [done|]. split; [by apply well_formed_with_a|].
  split; [done|]. split; [done|]. intros i Hi. destruct Hwf as [Hn Hla Hlb Hlc].
  destruct (lookup_lt_is_Some_2 (d_a st) i ltac:(lia)) as [x Hx].
  destruct (lookup_lt_is_Some_2 (d_b st) i ltac:(lia)) as [y Hy].
  destruct (lookup_lt_is_Some_2 (d_c st) i ltac:(lia)) as [z Hz].
  exists x, y, z. split_and!; try done.
  - cbn. rewrite <- load_lookup, Ha by lia.
    by rewrite (elt_lookup _ _ _ Hx), (elt_lookup _ _ _ Hy), (elt_lookup _ _ _ Hz).
  - intros Hexact. cbn. rewrite <- load_lookup, Ha by lia.
    rewrite (elt_lookup _ _ _ Hx), (elt_lookup _ _ _ Hy), (elt_lookup _ _ _ Hz).
    by rewrite fadd_assoc.
Qed.

Lemma nstream_accumulates_witness :
  ∃ st',
    @nstream Z (Z_element 3) backwards small_stream = Some st' ∧ well_formed st' ∧
    d_b st' = d_b small_stream ∧ d_c st' = d_c small_stream ∧
    ∀ i : nat, Z.of_nat i < array_size small_stream →
      ∃ x y z,
        d_a small_stream !! i = Some x ∧ d_b small_stream !! i = Some y ∧
        d_c small_stream !! i = Some z ∧
        d_a st' !! i = Some (x + (y + 3 * z)) ∧
        (@Exact Z (Z_element 3) → d_a st' !! i = Some (x + y + 3 * z)).
Proof.
  exact (@nstream_accumulates Z (Z_element 3) backwards backwards_fair small_stream
           small_stream_well_formed).
Defined.

(** The example of the specification, for any length: after
    [init_arrays 1 2 0], [triad] with a scalar of 3 leaves 2 everywhere in
    A, and [dot] then returns four times the length. *)
Lemma init_triad_dot `{Device Z} `{!Fair Z} (st : HIPStream Z) :
  well_formed st → dot_ready st →
  ∃ st1 st2 st3,
    @init_arrays Z _ 1 2 0 st = Some st1 ∧
    @triad Z (Z_element 3) _ st1 = Some st2 ∧
    d_a st2 = replicate (length (d_a st)) 2 ∧
    @dot Z (Z_element 3) _ st2 = Some (4 * array_size st, st3).
Proof.
  intros Hwf Hdr.
  destruct (@init_arrays_run Z (Z_element 3) _ _ 1 2 0 st Hwf)
    as (a & b & c & Hinit & -> & -> & ->).
  set (st1 := with_c _ _) in Hinit.
  assert (well_formed st1) as Hwf1.
  { destruct Hwf. split; cbn; rewrite ?length_replicate; lia. }
  destruct (@triad_run Z (Z_element 3) _ _ st1 Hwf1) as (a' & Htriad & Hl & Ha').
  assert (a' = replicate (length (d_a st)) 2) as ->.
  { cbn in Hl. rewrite length_replicate in Hl. rewrite <- Hl.
    apply (const_buffer _ _ (array_size st)).
    - destruct Hwf. lia.
    - intros j Hj. rewrite (Ha' j Hj). f_equal. unfold elt. cbn.
      destruct Hwf. rewrite <- (Z2Nat.id j), !load_lookup by lia.
      rewrite !lookup_replicate_2 by lia. simpl. lia. }
  set (st2 := with_a st1 _) in Htriad.
  assert (well_formed st2) as Hwf2.
  { destruct Hwf. split; cbn; rewrite ?length_replicate; lia. }
  assert (dot_ready st2) as Hdr2 by (by destruct Hdr).
  destruct (@dot_run Z (Z_element 3) (Z_exact 3) _ _ st2 Hwf2 Hdr2) as (s & Hdot & _).
  exists st1, st2, (with_sums st2 s). split; [done|]. split; [done|].
  split; [done|]. rewrite Hdot. do 2 f_equal.
  cbn [st2 st1 array_size d_a d_b with_a with_b with_c].
  destruct Hwf as [Hn Hla Hlb Hlc].
  transitivity (@sum_over Z (Z_element 3) (λ _, 4) (seqZ 0 (array_size st))).
  - apply (@sum_over_ext Z (Z_element 3)). intros i Hi%elem_of_seqZ.
    unfold prod_at, elt. rewrite <- (Z2Nat.id i), !load_lookup by lia.
    rewrite !lookup_replicate_2 by lia. done.
  - rewrite <- (Z2Nat.id (array_size st)) by lia.
    generalize (Z.to_nat (array_size st)). intros k. induction k as [|k IH].
    + done.
    + rewrite seqZ_S, (@sum_over_app Z (Z_element 3) (Z_exact 3)), IH.
      rewrite (@sum_over_singleton Z (Z_element 3) (Z_exact 3)). simpl. lia.
Qed.

(** C4.  For every array length of at least one, [triad] leaves in every
    element of A the element of B plus [startScalar] times the element of
    C.  In particular, with ten million elements and a scalar of 3,
    [init_arrays 1 2 0] followed by [triad] leaves 2 in every element of A,
    and [dot] then returns 40,000,000 (exactly, over exact arithmetic). *)
Theorem triad_then_dot :
  (∀ (T : Type) `{Element T} `{Device T} `{!Fair T} (st : HIPStream T),
     well_formed st →
     ∃ st',
       triad st = Some st' ∧ well_formed st' ∧
       ∀ i : nat, Z.of_nat i < array_size st →
         ∃ y z, d_b st !! i = Some y ∧ d_c st !! i = Some z ∧
                d_a st' !! i = Some (fadd y (fmul startScalar z))) ∧
  (∀ `{Device Z} `{!Fair Z} (st : HIPStream Z),
     well_formed st → dot_ready st → array_size st = 10000000 →
     ∃ st1 st2 st3,
       @init_arrays Z _ 1 2 0 st = Some st1 ∧
       @triad Z (Z_element 3) _ st1 = Some st2 ∧
       (∀ i : nat, Z.of_nat i < 10000000 → d_a st2 !! i = Some 2) ∧
       @dot Z (Z_element 3) _ st2 = Some (40000000, st3)).
Proof.
  split.
  - intros T HE HD HF st Hwf. destruct (triad_run st Hwf) as (a & -> & Hl & Ha).
    exists (with_a st a). split; [done|]. split; [by apply well_formed_with_a|].
    intros i Hi. destruct Hwf as [Hn Hla Hlb Hlc].
    destruct (lookup_lt_is_Some_2 (d_b st) i ltac:(lia)) as [y Hy].
    destruct (lookup_lt_is_Some_2 (d_c st) i ltac:(lia)) as [z Hz].
    exists y, z. split_and!; try done.
    cbn. rewrite <- load_lookup, Ha by lia.
    by rewrite (elt_lookup _ _ _ Hy), (elt_lookup _ _ _ Hz).
  - intros HD HF st Hwf Hdr Hsize.
    destruct (init_triad_dot st Hwf Hdr) as (st1 & st2 & st3 & ? & ? & Ha & Hdot).
    exists st1, st2, st3. split; [done|]. split; [done|]. split.
    + intros i Hi. rewrite Ha. apply lookup_replicate_2. destruct Hwf. lia.
    + rewrite Hdot, Hsize. done.
Qed.

Lemma triad_then_dot_witness :
  (∃ st',
     @triad Z (Z_element 3) backwards small_stream = Some st' ∧ well_formed st' ∧
     ∀ i : nat, Z.of_nat i < array_size small_stream →
       ∃ y z, d_b small_stream !! i = Some y ∧ d_c small_stream !! i = Some z ∧
              d_a st' !! i = Some (y + 3 * z)) ∧
  (∃ st1 st2 st3,
     @init_arrays Z in_order 1 2 0 ten_million = Some st1 ∧
     @triad Z (Z_element 3) in_order st1 = Some st2 ∧
     (∀ i : nat, Z.of_nat i < 10000000 → d_a st2 !! i = Some 2) ∧
     @dot Z (Z_element 3) in_order st2 = Some (40000000, st3)).
Proof.
  split.
  - exact (proj1 triad_then_dot Z (Z_element 3) backwards backwards_fair small_stream
             small_stream_well_formed).
  - exact (proj2 triad_then_dot in_order in_order_fair ten_million
             ten_million_well_formed ten_million_dot_ready eq_refl).
Defined.

(** C5.  Every operation of the suite writes the array of its row of the
    table and leaves the two others as they were, at every index: [copy]
    writes C (which becomes A), [mul] writes B (the scalar times C), [add]
    writes C (A plus B), [triad] and [nstream] write A. *)
Theorem kernels_frame {T : Type} `{Element T} `{Device T} `{!Fair T}
    (st : HIPStream T) :
  well_formed st →
  (∃ st', copy st = Some st' ∧ well_formed st' ∧
          d_a st' = d_a st ∧ d_b st' = d_b st ∧ d_c st' = d_a st) ∧
  (∃ st', mul st = Some st' ∧ well_formed st' ∧
          d_a st' = d_a st ∧ d_c st' = d_c st ∧
          d_b st' = fmul startScalar <$> d_c st) ∧
  (∃ st', add st = Some st' ∧ well_formed st' ∧
          d_a st' = d_a st ∧ d_b st' = d_b st ∧
          d_c st' = zip_with fadd (d_a st) (d_b st)) ∧
  (∃ st', triad st = Some st' ∧ well_formed st' ∧
          d_b st' = d_b st ∧ d_c st' = d_c st) ∧
  (∃ st', nstream st = Some st' ∧ well_formed st' ∧
          d_b st' = d_b st ∧ d_c st' = d_c st).
Proof.
  intros Hwf. pose proof Hwf as [Hn Hla Hlb Hlc]. split_and!.
  - destruct (copy_run st Hwf) as (c & -> & Hl & Hc).
    eexists. split; [done|]. split; [by apply well_formed_with_c|].
    split; [done|]. split; [done|]. cbn.
    apply list_eq. intros i. destruct (decide (Z.of_nat i < array_size st)).
    + rewrite <- !load_lookup, Hc by lia. by rewrite load_elt by lia.
    + rewrite !lookup_ge_None_2; [done|lia..].
  - destruct (mul_run st Hwf) as (b & -> & Hl & Hb).
    eexists. split; [done|]. split; [by apply well_formed_with_b|].
    split; [done|]. split; [done|]. cbn.
    apply list_eq. intros i. rewrite list_lookup_fmap.
    destruct (decide (Z.of_nat i < array_size st)).
    + rewrite <- !load_lookup, Hb by lia. by rewrite (load_elt (d_c st)) by lia.
    + rewrite !lookup_ge_None_2; [done|lia..].
  - destruct (add_run st Hwf) as (c & -> & Hl & Hc).
    eexists. split; [done|]. split; [by apply well_formed_with_c|].
    split; [done|]. split; [done|]. cbn.
    apply list_eq. intros i. rewrite lookup_zip_with.
    destruct (decide (Z.of_nat i < array_size st)).
    + rewrite <- !load_lookup, Hc by lia.
      by rewrite (load_elt (d_a st)), (load_elt (d_b st)) by lia.
    + rewrite !lookup_ge_None_2; [done|lia..].
  - destruct (triad_run st Hwf) as (a & -> & Hl & _).
    eexists. split; [done|]. split; [by apply well_formed_with_a|]. done.
  - destruct (nstream_run st Hwf) as (a & -> & Hl & _).
    eexists. split; [done|]. split; [by apply well_formed_with_a|]. done.
Qed.

Lemma kernels_frame_witness :
  (∃ st', @copy Z backwards small_stream = Some st' ∧ well_formed st' ∧
          d_a st' = d_a small_stream ∧ d_b st' = d_b small_stream ∧
          d_c st' = d_a small_stream) ∧
  (∃ st', @mul Z (Z_element 3) backwards small_stream = Some st' ∧ well_formed st' ∧
          d_a st' = d_a small_stream ∧ d_c st' = d_c small_stream ∧
          d_b st' = Z.mul 3 <$> d_c small_stream) ∧
  (∃ st', @add Z (Z_element 3) backwards small_stream = Some st' ∧ well_formed st' ∧
          d_a st' = d_a small_stream ∧ d_b st' = d_b small_stream ∧
          d_c st' = zip_with Z.add (d_a small_stream) (d_b small_stream)) ∧
  (∃ st', @triad Z (Z_element 3) backwards small_stream = Some st' ∧ well_formed st' ∧
          d_b st' = d_b small_stream ∧ d_c st' = d_c small_stream) ∧
  (∃ st', @nstream Z (Z_element 3) backwards small_stream = Some st' ∧ well_formed st' ∧
          d_b st' = d_b small_stream ∧ d_c st' = d_c small_stream).
Proof.
  exact (@kernels_frame Z (Z_element 3) backwards backwards_fair small_stream
           small_stream_well_formed).
Defined.

(** * The device array manager *)

(** C6 does not hold as stated: a construction that ends with
    [InsufficientMemory] has allocated the partial sum buffer, which line
    64 allocates before the check of line 68. *)
Lemma no_buffer_on_failure_counterexample :
  @HIPStream_new Z in_order DeviceOnly one_gpu 8 (2 ^ 40) 0
    = ([PartialSums], inl InsufficientMemory).
Proof. vm_compute. reflexivity. Qed.

(** C6, amended.  When a construction fails with [InsufficientMemory], the
    failure comes before any of the arrays A, B and C is allocated: none of
    the three is allocated when the construction has failed. *)
Theorem no_array_on_failure {T : Type} `{Device T} (r : Residency) (rt : runtime)
    (sizeofT ARRAY_SIZE device_index : Z) (bufs : list buffer) :
  HIPStream_new (T:=T) r rt sizeofT ARRAY_SIZE device_index
    = (bufs, inl InsufficientMemory) →
  (BufferA ∉ bufs) ∧ (BufferB ∉ bufs) ∧ (BufferC ∉ bufs).
Proof.
  intros [-> _]%construct_InsufficientMemory.
  split_and!; by intros ?%list_elem_of_singleton.
Qed.

Lemma no_array_on_failure_witness :
  @HIPStream_new Z in_order Managed one_gpu 4 (2 ^ 40) 0
    = ([PartialSums], inl InsufficientMemory) ∧
  (BufferA ∉ [PartialSums]) ∧ (BufferB ∉ [PartialSums]) ∧ (BufferC ∉ [PartialSums]).
Proof.
  split; [vm_compute; reflexivity|].
  apply (@no_array_on_failure Z in_order Managed one_gpu 4 (2 ^ 40) 0).
  vm_compute. reflexivity.
Defined.

(** C7 does not hold as stated for a negative index: the
    constructor does not throw, the runtime rejects the index and
    [check_error] ends the process. *)
Lemma negative_index_counterexample :
  -1 < 0 ∧
  (@HIPStream_new Z in_order DeviceOnly one_gpu 8 1024 (-1)).2
    = inl (DeviceOperationFailed (hipError 101)) ∧
  (@HIPStream_new Z in_order DeviceOnly one_gpu 8 1024 (-1)).2 ≠ inl InvalidDevice.
Proof. split; [lia|]. split; [vm_compute; reflexivity|]. vm_compute. discriminate. Qed.

(** C7, amended.  When the devices can be counted, a construction with an
    index greater than or equal to their number fails with
    [InvalidDevice], before any allocation; a construction with an index
    in range never fails with [InvalidDevice]. *)
Theorem invalid_device {T : Type} `{Device T} (r : Residency) (rt : runtime)
    (sizeofT ARRAY_SIZE device_index : Z) :
  (hipGetDeviceCount rt).1 = hipSuccess →
  ((hipGetDeviceCount rt).2 ≤ device_index →
     HIPStream_new (T:=T) r rt sizeofT ARRAY_SIZE device_index = ([], inl InvalidDevice)) ∧
  (0 ≤ device_index < (hipGetDeviceCount rt).2 →
     (HIPStream_new (T:=T) r rt sizeofT ARRAY_SIZE device_index).2 ≠ inl InvalidDevice).
Proof.
  intros Hcount. split.
  - intros Hge. unfold HIPStream_new, construct, ctor_bind. rewrite Hcount.
    cbn [check_error ctor_ret]. rewrite Z.geb_leb, (proj2 (Z.leb_le _ _)) by done.
    done.
  - intros Hin Hthrown. apply construct_InvalidDevice in Hthrown. lia.
Qed.

Lemma invalid_device_witness :
  (1 ≤ 1 → @HIPStream_new Z in_order Managed one_gpu 4 1024 1 = ([], inl InvalidDevice)) ∧
  (0 ≤ 0 < 1 → (@HIPStream_new Z in_order Managed one_gpu 4 1024 0).2 ≠ inl InvalidDevice).
Proof.
  split.
  - exact (proj1 (@invalid_device Z in_order Managed one_gpu 4 1024 1 eq_refl)).
  - exact (proj2 (@invalid_device Z in_order Managed one_gpu 4 1024 0 eq_refl)).
Defined.

(** C8 fails on the code for the lengths at which the size of the arrays
    wraps around 64 bits.  With [2^61] elements of 8 bytes, the three
    arrays take [3 * 2^64] bytes, far more than the 16 GiB of the device,
    but [array_bytes] is 0: the check passes, three empty buffers are
    allocated and the construction succeeds with [array_size = 2^61]. *)
Theorem memory_check_wraps :
  totalGlobalMem (hipGetDeviceProperties one_gpu 0).2 < 3 * 2 ^ 61 * 8 ∧
  size_t (8 * size_t (2 ^ 61)) = 0 ∧
  ∃ st : HIPStream Z,
    @HIPStream_new Z in_order DeviceOnly one_gpu 8 (2 ^ 61) 0
      = ([PartialSums; BufferA; BufferB; BufferC], inr st) ∧
    array_size st = 2 ^ 61 ∧ d_a st = [] ∧ d_b st = [] ∧ d_c st = [].
Proof.
  split; [vm_compute; reflexivity|]. split; [vm_compute; reflexivity|].
  eexists. split; [vm_compute; reflexivity|]. by split_and!.
Qed.

(** Where nothing wraps, the check is the one of C8: with the calls before
    it succeeding, the construction fails with [InsufficientMemory] exactly
    when the three arrays exceed the memory of the device. *)
Lemma memory_check_exact {T : Type} `{Device T} (r : Residency) (rt : runtime)
    (sizeofT ARRAY_SIZE device_index : Z) :
  let props := (hipGetDeviceProperties rt device_index).2 in
  reaches_memory_check rt device_index
    (size_t (sizeofT * size_t (multiProcessorCount props * 4))) →
  0 < sizeofT → 0 ≤ ARRAY_SIZE → 3 * sizeofT * ARRAY_SIZE < 2 ^ 64 →
  (HIPStream_new (T:=T) r rt sizeofT ARRAY_SIZE device_index).2 = inl InsufficientMemory ↔
  totalGlobalMem props < 3 * sizeofT * ARRAY_SIZE.
Proof.
  intros props Hreach Hs Hn Hfit.
  rewrite (construct_memory_check r rt sizeofT ARRAY_SIZE device_index Hreach).
  by rewrite array_bytes_exact.
Qed.

(** C10.  What [read_arrays] moves into the vectors depends on the build.
    The default build moves as many elements as each vector has, the first
    ones of the array; the [MANAGED] and [PAGEFAULT] builds move
    [array_size] elements into each vector, whatever its length, and leave
    the rest of it.  The numbers of elements moved by the two agree exactly
    when every vector has [array_size] elements. *)
Theorem read_arrays_moves {T : Type} (st : HIPStream T) (shared : Residency)
    (a b c a' b' c' : list T) :
  well_formed st → shared ≠ DeviceOnly →
  let n := Z.to_nat (array_size st) in
  ((length a ≤ n)%nat → (length b ≤ n)%nat → (length c ≤ n)%nat →
     is_Some (read_arrays DeviceOnly st a b c)) ∧
  ((n ≤ length a')%nat → (n ≤ length b')%nat → (n ≤ length c')%nat →
     is_Some (read_arrays shared st a' b' c')) ∧
  ∀ h h',
    read_arrays DeviceOnly st a b c = Some h →
    read_arrays shared st a' b' c' = Some h' →
    (moved_a h = length a ∧ moved_b h = length b ∧ moved_c h = length c) ∧
    (host_a h = take (length a) (d_a st) ∧ host_b h = take (length b) (d_b st) ∧
     host_c h = take (length c) (d_c st)) ∧
    (moved_a h' = n ∧ moved_b h' = n ∧ moved_c h' = n) ∧
    (host_a h' = d_a st ++ drop n a' ∧ host_b h' = d_b st ++ drop n b' ∧
     host_c h' = d_c st ++ drop n c') ∧
    ((moved_a h = moved_a h' ∧ moved_b h = moved_b h' ∧ moved_c h = moved_c h') ↔
     (length a = n ∧ length b = n ∧ length c = n)).
Proof.
  intros Hwf Hshared n. pose proof Hwf as [Hn Hla Hlb Hlc]. split_and!.
  - intros ???. eexists. apply read_arrays_device_only. split_and!; [lia..|done].
  - intros ???. eexists. apply (read_arrays_shared shared st a' b' c' _ Hshared Hwf).
    fold n. by split_and!.
  - intros h h' (_ & _ & _ & ->)%read_arrays_device_only Hh'.
    apply (read_arrays_shared shared st a' b' c' _ Hshared Hwf) in Hh'
      as (_ & _ & _ & ->).
    fold n. cbn. split_and!; try done; lia.
Qed.

Lemma read_arrays_moves_witness :
  let n := Z.to_nat (array_size small_stream) in
  ((3 ≤ n)%nat → (5 ≤ n)%nat → (0 ≤ n)%nat →
     is_Some (read_arrays DeviceOnly small_stream [0; 0; 0] [0; 0; 0; 0; 0] [])) ∧
  ((n ≤ 6)%nat → (n ≤ 5)%nat → (n ≤ 7)%nat →
     is_Some (read_arrays Managed small_stream [9; 9; 9; 9; 9; 9] [9; 9; 9; 9; 9]
                [9; 9; 9; 9; 9; 9; 9])) ∧
  ∀ h h',
    read_arrays DeviceOnly small_stream [0; 0; 0] [0; 0; 0; 0; 0] [] = Some h →
    read_arrays Managed small_stream [9; 9; 9; 9; 9; 9] [9; 9; 9; 9; 9]
      [9; 9; 9; 9; 9; 9; 9] = Some h' →
    (moved_a h = 3%nat ∧ moved_b h = 5%nat ∧ moved_c h = 0%nat) ∧
    (host_a h = take 3 (d_a small_stream) ∧ host_b h = take 5 (d_b small_stream) ∧
     host_c h = take 0 (d_c small_stream)) ∧
    (moved_a h' = n ∧ moved_b h' = n ∧ moved_c h' = n) ∧
    (host_a h' = d_a small_stream ++ drop n [9; 9; 9; 9; 9; 9] ∧
     host_b h' = d_b small_stream ++ drop n [9; 9; 9; 9; 9] ∧
     host_c h' = d_c small_stream ++ drop n [9; 9; 9; 9; 9; 9; 9]) ∧
    ((moved_a h = moved_a h' ∧ moved_b h = moved_b h' ∧ moved_c h = moved_c h') ↔
     (3%nat = n ∧ 5%nat = n ∧ 0%nat = n)).
Proof.
  apply (@read_arrays_moves Z small_stream Managed [0; 0; 0] [0; 0; 0; 0; 0] []
           [9; 9; 9; 9; 9; 9] [9; 9; 9; 9; 9] [9; 9; 9; 9; 9; 9; 9]).
  - exact small_stream_well_formed.
  - discriminate.
Defined.

(** * The reduction of the dot product *)

(** C9.  In the reduction loop of a group of [TBSIZE] (1024) workers, every
    worker executes the barrier before every halving step, outside of the
    test that guards the add; the offsets go from 512 down to 1, each the
    half of the one before.  However the workers interleave between the
    barriers, the group is never deadlocked, it always reaches the end of
    the loop, and slot 0 then holds the sum of all the slots the loop
    started from (over exact arithmetic). *)
Theorem reduction_barriers {T : Type} `{Exact T} (tb : list T) :
  Z.of_nat (length tb) = TBSIZE →
  reduction_code TBSIZE =
    [Sync; GuardedAdd 512; Sync; GuardedAdd 256; Sync; GuardedAdd 128;
     Sync; GuardedAdd 64; Sync; GuardedAdd 32; Sync; GuardedAdd 16;
     Sync; GuardedAdd 8; Sync; GuardedAdd 4; Sync; GuardedAdd 2;
     Sync; GuardedAdd 1] ∧
  workers (group_start TBSIZE tb) = replicate 1024 (reduction_code TBSIZE) ∧
  halves TBSIZE (reduce_offsets TBSIZE) ∧
  ∀ g, rtc group_step (group_start TBSIZE tb) g →
    ¬ deadlocked g ∧
    (∃ g', rtc group_step g g' ∧ finished g') ∧
    (finished g → load (tb_sum g) 0 = Some (sum_over (elt tb) (seqZ 0 TBSIZE))).
Proof.
  intros Hl. split; [reflexivity|]. split; [reflexivity|].
  split; [apply reduce_offsets_TBSIZE|]. intros g Hg.
  assert (0 < TBSIZE < 2 ^ 63) as HTB by (unfold TBSIZE; lia).
  set (total := sum_over (elt tb) (seqZ 0 TBSIZE)).
  pose proof (reducing_rtc TBSIZE total HTB _ _ (group_start_reducing tb Hl) Hg) as Hred.
  split_and!.
  - intros [Hnf Hstuck].
    destruct (reducing_progress TBSIZE total HTB g Hred) as [?|[g' Hstep]]; [done|].
    by apply (Hstuck g').
  - by apply (reducing_terminates TBSIZE total HTB).
  - by apply (reducing_finished TBSIZE total HTB).
Qed.

Lemma reduction_barriers_witness :
  let tb := seqZ 1 1024 in
  Z.of_nat (length tb) = TBSIZE ∧
  ∀ g, rtc (@group_step Z (Z_element 3)) (group_start TBSIZE tb) g →
    ¬ @deadlocked Z (Z_element 3) g ∧
    (∃ g', rtc (@group_step Z (Z_element 3)) g g' ∧ finished g') ∧
    (finished g →
     load (tb_sum g) 0 = Some (@sum_over Z (Z_element 3) (@elt Z (Z_element 3) tb)
                                 (seqZ 0 TBSIZE))).
Proof.
  intros tb. split; [reflexivity|].
  apply (@reduction_barriers Z (Z_element 3) (Z_exact 3) tb). reflexivity.
Defined.

(** * Further properties of the code *)

(** ** The kernels as functions on whole arrays *)

(** Two buffers of the same length with the same cells are equal. *)
Lemma buffer_ext {A} (l l' : list A) (n : Z) :
  Z.of_nat (length l) = n → Z.of_nat (length l') = n →
  (∀ j, 0 ≤ j < n → load l j = load l' j) → l = l'.
Proof.
  intros Hl Hl' Hj. apply list_eq. intros i.
  destruct (decide (Z.of_nat i < n)).
  - rewrite <- !load_lookup. apply Hj. lia.
  - rewrite !lookup_ge_None_2; [done|lia..].
Qed.

Section closed.
Context {T : Type} `{Element T} `{Device T} `{!Fair T}.
Implicit Types (st : HIPStream T).

Lemma load_zip_with (f : T → T → T) (l k : list T) j :
  0 ≤ j < Z.of_nat (length l) → 0 ≤ j < Z.of_nat (length k) →
  load (zip_with f l k) j = Some (f (elt l j) (elt k j)).
Proof.
  intros Hl Hk. unfold load at 1. rewrite decide_True by lia.
  rewrite lookup_zip_with.
  pose proof (load_elt l j Hl) as El. pose proof (load_elt k j Hk) as Ek.
  unfold load in El, Ek. rewrite decide_True in El, Ek by lia.
  by rewrite El, Ek.
Qed.

Lemma load_fmap (f : T → T) (l : list T) j :
  0 ≤ j < Z.of_nat (length l) → load (f <$> l) j = Some (f (elt l j)).
Proof.
  intros Hl. unfold load at 1. rewrite decide_True by lia.
  rewrite list_lookup_fmap.
  pose proof (load_elt l j Hl) as El.
  unfold load in El. rewrite decide_True in El by lia. by rewrite El.
Qed.

(** What each kernel makes of the arrays, as a function on lists. *)
Lemma copy_closed st : well_formed st → copy st = Some (with_c st (d_a st)).
Proof.
  intros Hwf. destruct (copy_run st Hwf) as (c & -> & Hl & Hc).
  destruct Hwf as [Hn Hla Hlb Hlc]. do 2 f_equal.
  apply (buffer_ext _ _ (array_size st)); [lia..|].
  intros j Hj. by rewrite Hc, load_elt by lia.
Qed.

Lemma mul_closed st :
  well_formed st → mul st = Some (with_b st (fmul startScalar <$> d_c st)).
Proof.
  intros Hwf. destruct (mul_run st Hwf) as (b & -> & Hl & Hb).
  destruct Hwf as [Hn Hla Hlb Hlc]. do 2 f_equal.
  apply (buffer_ext _ _ (array_size st)); [lia|rewrite length_fmap; lia|].
  intros j Hj. by rewrite Hb, load_fmap by lia.
Qed.

Lemma add_closed st :
  well_formed st → add st = Some (with_c st (zip_with fadd (d_a st) (d_b st))).
Proof.
  intros Hwf. destruct (add_run st Hwf) as (c & -> & Hl & Hc).
  destruct Hwf as [Hn Hla Hlb Hlc]. do 2 f_equal.
  apply (buffer_ext _ _ (array_size st)); [lia|rewrite length_zip_with; lia|].
  intros j Hj. by rewrite Hc, load_zip_with by lia.
Qed.

Lemma triad_closed st :
  well_formed st →
  triad st = Some (with_a st (zip_with (λ y z, fadd y (fmul startScalar z))
                               (d_b st) (d_c st))).
Proof.
  intros Hwf. destruct (triad_run st Hwf) as (a & -> & Hl & Ha).
  destruct Hwf as [Hn Hla Hlb Hlc]. do 2 f_equal.
  apply (buffer_ext _ _ (array_size st)); [lia|rewrite length_zip_with; lia|].
  intros j Hj. by rewrite Ha, load_zip_with by lia.
Qed.

Lemma nstream_closed st :
  well_formed st →
  nstream st = Some (with_a st (zip_with fadd (d_a st)
                                  (zip_with (λ y z, fadd y (fmul startScalar z))
                                     (d_b st) (d_c st)))).
Proof.
  intros Hwf. destruct (nstream_run st Hwf) as (a & -> & Hl & Ha).
  destruct Hwf as [Hn Hla Hlb Hlc]. do 2 f_equal.
  apply (buffer_ext _ _ (array_size st));
    [lia|rewrite !length_zip_with; lia|].
  intros j Hj. rewrite Ha, load_zip_with by (rewrite ?length_zip_with; lia).
  do 2 f_equal. symmetry. unfold elt at 1. by rewrite load_zip_with by lia.
Qed.

End closed.

(** ** The dot product, addition by addition *)

(** A buffer whose cells are given by [f]. *)
Lemma buffer_closed {A} (l : list A) (f : Z → A) (n : Z) :
  Z.of_nat (length l) = n → (∀ j, 0 ≤ j < n → load l j = Some (f j)) →
  l = f <$> seqZ 0 n.
Proof.
  intros Hl Hj. apply list_eq. intros i. rewrite list_lookup_fmap.
  destruct (decide (Z.of_nat i < n)).
  - rewrite <- load_lookup, Hj by lia.
    rewrite lookup_seqZ_lt by lia. done.
  - rewrite lookup_ge_None_2 by lia.
    rewrite lookup_seqZ_ge by lia. done.
Qed.

(** A filter that keeps nothing. *)
Lemma filter_none {A} (P : A → Prop) `{∀ x, Decision (P x)} (l : list A) :
  (∀ x, x ∈ l → ¬ P x) → filter P l = [].
Proof.
  induction l as [|x l IH]; intros Hl; [done|].
  rewrite filter_cons_False by (apply Hl; left).
  apply IH. intros y Hy. apply Hl. by right.
Qed.

(** The indices a thread visits, from one of them on. *)
Lemma visited_from stride n g i :
  0 < stride → 0 ≤ i → i mod stride = g → i < n →
  filter (λ j, j mod stride = g) (seqZ i (n - i))
  = i :: filter (λ j, j mod stride = g) (seqZ (i + stride) (n - (i + stride))).
Proof.
  intros Hs Hi Hg Hlt.
  assert (∀ len, filter (λ j, j mod stride = g) (seqZ (Z.succ i) len)
                 = filter (λ j, j mod stride = g)
                     (seqZ (i + stride) (len - (stride - 1)))) as Hskip.
  { intros len. destruct (decide (len ≤ stride - 1)) as [Hle|Hgt].
    - rewrite (seqZ_nil (i + stride)) by lia. apply filter_none.
      intros j Hj%elem_of_seqZ Hm.
      pose proof (same_residue_close i j stride Hs ltac:(congruence) ltac:(lia) ltac:(lia)).
      lia.
    - replace len with ((stride - 1) + (len - (stride - 1))) at 1 by lia.
      rewrite seqZ_app, filter_app by lia.
      replace (Z.succ i + (stride - 1)) with (i + stride) by lia.
      rewrite filter_none; [done|].
      intros j Hj%elem_of_seqZ Hm.
      pose proof (same_residue_close i j stride Hs ltac:(congruence) ltac:(lia) ltac:(lia)).
      lia. }
  rewrite seqZ_cons by lia. rewrite filter_cons_True by done. f_equal.
  rewrite Hskip. do 2 f_equal. lia.
Qed.

(** A thread starts at its identifier: no index below it is its own. *)
Lemma visited_start stride n g :
  0 ≤ g < stride →
  visited stride n g = filter (λ j, j mod stride = g) (seqZ g (n - g)).
Proof.
  intros Hg. unfold visited. destruct (decide (n ≤ g)) as [Hle|Hgt].
  - rewrite (seqZ_nil g) by lia. apply filter_none.
    intros j Hj%elem_of_seqZ Hm. rewrite Z.mod_small in Hm by lia. lia.
  - replace n with (g + (n - g)) at 1 by lia.
    rewrite seqZ_app, filter_app by lia.
    rewrite filter_none; [done|].
    intros j Hj%elem_of_seqZ Hm. rewrite Z.mod_small in Hm by lia. lia.
Qed.

Section ordered.
Context {T : Type} `{Element T} `{Device T} `{!Fair T}.
Implicit Types (a b tb : list T).

(** The loop of [dot_accumulate] from index [i] on, with [acc] in slot
    [t]: the products are added to [acc] in the order of the indices. *)
Lemma accumulate_ordered a b n t tb g stride fuel :
  0 < stride → n + stride ≤ 2 ^ 64 →
  Z.of_nat (length a) = n → Z.of_nat (length b) = n →
  0 ≤ t < Z.of_nat (length tb) →
  ∀ i acc,
    0 ≤ i → i mod stride = g → n - i ≤ Z.of_nat fuel →
    grid_stride fuel
      (λ i tb, x ← load a i; y ← load b i; acc ← load tb t;
               store tb t (fadd acc (fmul x y)))
      i stride n (<[Z.to_nat t := acc]> tb)
    = Some (<[Z.to_nat t :=
               foldl (λ acc i, fadd acc (prod_at a b i)) acc
                 (filter (λ j, j mod stride = g) (seqZ i (n - i)))]> tb).
Proof.
  intros Hs Hwrap Ha Hb Ht.
  induction fuel as [|fuel IH]; intros i acc Hi Hmod Hfuel; simpl.
  - rewrite (proj2 (Z.ltb_ge i n)) by lia. by rewrite seqZ_nil by lia.
  - destruct (Z.ltb_spec i n) as [Hlt|Hge]; [|by rewrite seqZ_nil by lia].
    rewrite (load_elt a i), (load_elt b i) by lia. simpl.
    rewrite load_insert_eq by lia. simpl.
    rewrite store_Some by (rewrite length_insert; lia). simpl.
    rewrite list_insert_insert_eq, size_t_small by lia.
    rewrite (visited_from stride n g i) by done. simpl.
    apply IH; [lia| |lia].
    rewrite <- Hmod. rewrite <- (Z.mul_1_l stride) at 1. apply Z.mod_add. lia.
Qed.

(** [dot_accumulate] leaves in the slot of the thread its products, added
    in the order of the loop. *)
Lemma dot_accumulate_ordered (pa pb : buffer) (m : HIPStream T) n grid block blk t tb fuel :
  0 ≤ blk < grid → 0 ≤ t < block → block * grid < 2 ^ 32 → 0 ≤ n < 2 ^ 63 →
  Z.of_nat (length (contents m pa)) = n → Z.of_nat (length (contents m pb)) = n →
  n ≤ Z.of_nat fuel →
  block ≤ Z.of_nat (length tb) →
  dot_accumulate fuel pa pb n m (Thread t blk block grid) tb
  = store tb t (thread_acc (contents m pa) (contents m pb) (block * grid) n
                  (gid block (blk, t))).
Proof.
  intros Hblk Ht H32 Hn Ha Hb Hfuel Htb. unfold dot_accumulate, read.
  cbn [threadIdx blockIdx blockDim gridDim].
  pose proof (gid_bounds grid block blk t Hblk Ht) as Hg. unfold gid in *.
  cbn [fst snd] in *.
  rewrite (uint32_t_small (block * blk)), (uint32_t_small (block * grid)) by nia.
  rewrite size_t_small by lia. rewrite !store_Some by lia. simpl.
  rewrite (Z.add_comm (block * blk) t). unfold thread_acc.
  rewrite visited_start by lia.
  apply (accumulate_ordered (contents m pa) (contents m pb) n t tb
           (t + block * blk) (block * grid) fuel); try lia.
  apply Z.mod_small. lia.
Qed.

(** The launches of the reduction loop, turn by turn. *)
Lemma reduce_phases_ordered grid block offsets :
  block < 2 ^ 63 → Forall (λ offset, 0 < offset ∧ 2 * offset ≤ block) offsets →
  ∀ shared,
    shared_shape grid block shared →
    ∃ shared',
      for_each (λ offset shared, launch grid block (in_block (dot_reduce offset)) shared)
        offsets shared = Some shared' ∧
      shared_shape grid block shared' ∧
      ∀ blk tb0, 0 ≤ blk < grid → load shared blk = Some tb0 →
        load shared' blk = Some (foldl reduce_turn tb0 offsets).
Proof.
  intros Hblock. induction 1 as [|offset offsets [Ho Hob] _ IH]; intros shared Hshape.
  - exists shared. by split_and!.
  - simpl.
    destruct (launch_phase (dot_reduce offset) (λ _ t tb0, guarded_add offset t tb0)
                grid block shared) as (shared1 & -> & Hshape1 & Hshared1).
    { intros blk t tb0 tb done Hblk Ht Hnew Hl0 Hl Hslots.
      apply (dot_reduce_thread offset grid block blk t tb0 tb
               (λ t', bool_decide ((blk, t') ∈ done))); try done.
      - by apply bool_decide_eq_false.
      - intros t' Ht'. rewrite (Hslots t' Ht').
        by destruct (decide ((blk, t') ∈ done));
          [rewrite bool_decide_eq_true_2|rewrite bool_decide_eq_false_2]. }
    { done. }
    simpl. destruct (IH shared1 Hshape1) as (shared' & -> & Hshape' & Hshared').
    exists shared'. split; [done|]. split; [done|].
    intros blk tb0 Hblk Htb0.
    destruct (Hshared1 blk tb0 Hblk Htb0) as (tb1 & Htb1 & Hslots).
    rewrite (Hshared' blk tb1 Hblk Htb1). do 2 f_equal.
    pose proof (proj2 Hshape blk tb0 Htb0) as Hl0.
    pose proof (proj2 Hshape1 blk tb1 Htb1) as Hl1.
    unfold reduce_turn. rewrite Hl0. by apply buffer_closed.
Qed.

(** The offsets of a group of [TBSIZE] threads stay within the group. *)
Lemma reduce_offsets_bounds :
  Forall (λ offset, 0 < offset ∧ 2 * offset ≤ TBSIZE) (reduce_offsets TBSIZE).
Proof. vm_compute. repeat constructor; discriminate. Qed.

(** The launch of [dot_kernel], with the additions in their order. *)
Lemma launch_dot_kernel_ordered (pa pb p : buffer) (st : HIPStream T) n grid fuel :
  0 < grid → TBSIZE * grid < 2 ^ 32 → 0 ≤ n < 2 ^ 63 →
  Z.of_nat (length (contents st pa)) = n → Z.of_nat (length (contents st pb)) = n →
  n ≤ Z.of_nat fuel →
  Z.of_nat (length (contents st p)) = grid →
  launch_dot_kernel grid TBSIZE fuel pa pb p n st
  = Some (with_contents st p
            (block_partial (contents st pa) (contents st pb) grid n <$> seqZ 0 grid)).
Proof.
  set (a := contents st pa). set (b := contents st pb).
  intros Hgrid H32 Hn Ha Hb Hfuel Hsum. unfold launch_dot_kernel.
  assert (0 < TBSIZE < 2 ^ 63) as HTB by (unfold TBSIZE; lia).
  set (shared0 := replicate (Z.to_nat grid) (uninit <$> seqZ 0 TBSIZE)).
  assert (shared_shape grid TBSIZE shared0) as Hshape0.
  { split; [unfold shared0; rewrite length_replicate; lia|].
    intros blk tb Htb.
    unfold load in Htb. destruct (decide (0 ≤ blk)); [|done].
    apply lookup_replicate_1 in Htb as [-> _].
    rewrite length_fmap, length_seqZ. lia. }
  destruct (launch_phase (dot_accumulate fuel pa pb n st)
              (λ blk t _, thread_acc a b (TBSIZE * grid) n (gid TBSIZE (blk, t)))
              grid TBSIZE shared0) as (shared1 & -> & Hshape1 & Hshared1).
  { intros blk t tb0 tb done Hblk Ht _ Hl0 Hl _.
    apply dot_accumulate_ordered; try done; lia. }
  { done. }
  cbn [mbind option_bind].
  destruct (reduce_phases_ordered grid TBSIZE (reduce_offsets TBSIZE) ltac:(lia)
              reduce_offsets_bounds shared1 Hshape1)
    as (shared2 & -> & Hshape2 & Hshared2).
  cbn [mbind option_bind].
  destruct (dot_result_launch grid TBSIZE shared2 (block_partial a b grid n) p st)
    as (s' & -> & Hl' & Hs'); [lia|done| |].
  - intros blk Hblk.
    destruct (proj2 (load_is_Some shared0 blk) ltac:(destruct Hshape0; lia)) as [tb0 Htb0].
    destruct (Hshared1 blk tb0 Hblk Htb0) as (tb1 & Htb1 & Hslots).
    pose proof (Hshared2 blk tb1 Hblk Htb1) as Htb2.
    eexists. split; [done|].
    pose proof (proj2 Hshape1 blk tb1 Htb1) as Hl1.
    pose proof (proj2 Hshape2 blk _ Htb2) as Hl2.
    rewrite load_elt by lia. f_equal. unfold block_partial. do 2 f_equal.
    by apply buffer_closed.
  - do 2 f_equal. apply buffer_closed; [lia|done].
Qed.

(** [dot], with the additions in their order. *)
Lemma dot_ordered (st : HIPStream T) :
  0 ≤ array_size st < 2 ^ 63 →
  Z.of_nat (length (d_a st)) = array_size st →
  Z.of_nat (length (d_b st)) = array_size st →
  dot_ready st →
  dot st = Some (dot_reference (d_a st) (d_b st) (dot_num_blocks st) (array_size st),
                 with_sums st (block_partial (d_a st) (d_b st) (dot_num_blocks st)
                                 (array_size st) <$> seqZ 0 (dot_num_blocks st))).
Proof.
  intros Hn Ha Hb [Hblocks H32 Hsums]. unfold dot, loop_fuel.
  rewrite size_t_small by lia.
  rewrite (launch_dot_kernel_ordered BufferA BufferB PartialSums st (array_size st)
             (dot_num_blocks st)); try done; try lia.
  cbn [contents with_contents with_sums sums dot_num_blocks mbind option_bind].
  rewrite (host_sum _ (block_partial (d_a st) (d_b st) (dot_num_blocks st)
                         (array_size st))).
  - done.
  - intros i Hi%elem_of_seqZ. unfold load. rewrite decide_True by lia.
    rewrite list_lookup_fmap, lookup_seqZ_lt by lia. simpl. do 2 f_equal. lia.
Qed.

End ordered.

(** ** The reduction loop, whatever the arithmetic *)

(** The turns of the loop keep the length of [tb_sum]. *)
Lemma length_reduce_turns {T} `{Element T} (tb : list T) (offsets : list Z) :
  length (foldl reduce_turn tb offsets) = length tb.
Proof.
  revert tb. induction offsets as [|o offsets IH]; intros tb; [done|]. simpl.
  rewrite IH. unfold reduce_turn. rewrite length_fmap, length_seqZ. lia.
Qed.

Section interleavings.
Context {T : Type} `{Element T}.
Variables (block : Z) (tb_init : list T) (all : list Z).
Hypothesis block_range : 0 < block < 2 ^ 63.
Hypothesis init_length : Z.of_nat (length tb_init) = block.
Hypothesis all_bounds : Forall (λ offset, 0 < offset ∧ 2 * offset ≤ block) all.
Implicit Types (g : group (T:=T)) (tb : list T).

Lemma within_turn_all_done g done offset rest (D : list nat) :
  all = done ++ offset :: rest →
  Z.of_nat (length (tb_sum g)) = block →
  Z.of_nat (length (workers g)) = block →
  (∀ l : nat, Z.of_nat l < block →
     workers g !! l = Some (if decide (l ∈ D) then code_of rest
                            else GuardedAdd offset :: code_of rest) ∧
     load (tb_sum g) (Z.of_nat l)
       = Some (if decide (l ∈ D)
               then guarded_add offset (Z.of_nat l) (foldl reduce_turn tb_init done)
               else elt (foldl reduce_turn tb_init done) (Z.of_nat l))) →
  (∀ l : nat, Z.of_nat l < block → l ∈ D) →
  between_turns block tb_init all g.
Proof.
  intros Hall Hl Hlw Hslots HD.
  exists (done ++ [offset]), rest. split_and!; [by rewrite <- (assoc_L (++))|done| |].
  - apply list_eq. intros l. destruct (decide (Z.of_nat l < block)) as [Hlt|Hge].
    + rewrite (proj1 (Hslots l Hlt)), decide_True by auto.
      by rewrite lookup_replicate_2 by lia.
    + rewrite !lookup_ge_None_2; [done|rewrite length_replicate|]; lia.
  - rewrite foldl_snoc. unfold reduce_turn at 1.
    rewrite length_reduce_turns, init_length.
    apply buffer_closed; [done|]. intros t Ht.
    pose proof (proj2 (Hslots (Z.to_nat t) ltac:(lia))) as Hslot.
    rewrite Z2Nat.id in Hslot by lia. rewrite Hslot, decide_True; [done|].
    apply HD. lia.
Qed.

Lemma between_turns_step g g' :
  between_turns block tb_init all g → group_step g g' → within_turn block tb_init all g'.
Proof.
  intros (done & rest & Hall & Hl & Hws & Htb) Hstep.
  destruct Hstep as [tb tb' ws l offset rest' th Hw _ _|tb ws Hsync];
    cbn [tb_sum workers] in *.
  - subst ws. apply lookup_replicate_1 in Hw as [Hw _].
    symmetry in Hw. by apply code_of_not_add in Hw.
  - subst ws. destruct rest as [|offset rest].
    { by apply Forall_replicate_inv in Hsync; [|lia]. }
    rewrite code_of_cons, fmap_replicate. simpl.
    exists done, offset, rest, []. cbn [tb_sum workers].
    rewrite length_replicate. split_and!; try done; try lia.
    intros l Hlt. rewrite decide_False by apply not_elem_of_nil.
    rewrite lookup_replicate_2 by lia. split; [done|].
    rewrite <- Htb. apply load_elt. lia.
Qed.

Lemma within_turn_step g g' :
  within_turn block tb_init all g → group_step g g' → within_turn block tb_init all g'.
Proof.
  intros (done & offset & rest & D & Hall & Hl & Hlw & Hslots) Hstep.
  assert (0 < offset ∧ 2 * offset ≤ block) as [Ho Hob].
  { rewrite Hall in all_bounds. apply Forall_app in all_bounds as [_ Hb].
    by apply Forall_cons_1 in Hb as [? _]. }
  set (tb0 := foldl reduce_turn tb_init done) in *.
  assert (Z.of_nat (length tb0) = block) as Hl0.
  { unfold tb0. by rewrite length_reduce_turns. }
  destruct Hstep as [tb tb' ws l offset' rest' th Hw Hth Hrun|tb ws Hsync];
    cbn [tb_sum workers] in *.
  - pose proof (lookup_lt_Some _ _ _ Hw) as Hlt.
    destruct (Hslots l ltac:(lia)) as [Hwl Htbl]. rewrite Hw in Hwl.
    destruct (decide (l ∈ D)) as [?|HlD]; [by destruct rest|].
    injection Hwl as -> ->.
    destruct th as [t blk bd gd]. cbn [threadIdx] in Hth. subst t.
    change (dot_reduce offset (Thread (Z.of_nat l) blk block gd) tb = Some tb') in Hrun.
    rewrite (dot_reduce_thread offset gd block blk (Z.of_nat l) tb0 tb
               (λ t, bool_decide (Z.to_nat t ∈ D))) in Hrun; try lia.
    2: { apply bool_decide_eq_false. by rewrite Nat2Z.id. }
    2: { intros t Ht. pose proof (proj2 (Hslots (Z.to_nat t) ltac:(lia))) as Hslot.
         rewrite Z2Nat.id in Hslot by lia. rewrite Hslot.
         by destruct (decide (Z.to_nat t ∈ D));
           [rewrite bool_decide_eq_true_2|rewrite bool_decide_eq_false_2]. }
    rewrite store_Some in Hrun by lia. injection Hrun as <-.
    exists done, offset, rest, (l :: D). cbn [tb_sum workers].
    rewrite !length_insert, Nat2Z.id. split_and!; try done.
    intros l' Hl'. destruct (decide (l' = l)) as [->|Hne].
    + rewrite !decide_True by left.
      rewrite load_lookup, !list_lookup_insert_eq by lia. done.
    + destruct (Hslots l' Hl') as [Hwl' Htbl'].
      rewrite load_lookup in Htbl' |- *.
      rewrite !list_lookup_insert_ne, Hwl', Htbl' by done.
      split; f_equal; apply decide_ext; rewrite elem_of_cons;
        (split; [by right|intros [?|?]; [congruence|done]]).
  - apply (between_turns_step (Group tb ws)); [|by constructor].
    apply (within_turn_all_done _ done offset rest D); try done.
    intros l Hlt. destruct (decide (l ∈ D)) as [|HlD]; [done|].
    destruct (Hslots l Hlt) as [Hwl _]. rewrite decide_False in Hwl by done.
    by apply (Forall_lookup_1 _ _ _ _ Hsync) in Hwl.
Qed.

Lemma in_step_step g g' :
  in_step block tb_init all g → group_step g g' → in_step block tb_init all g'.
Proof.
  intros [?|?] ?; right; eauto using between_turns_step, within_turn_step.
Qed.

Lemma in_step_rtc g g' :
  in_step block tb_init all g → rtc group_step g g' → in_step block tb_init all g'.
Proof. intros Hg Hsteps. induction Hsteps; eauto using in_step_step. Qed.

Lemma between_turns_progress g :
  between_turns block tb_init all g → finished g ∨ ∃ g', group_step g g'.
Proof.
  destruct g as [tb ws]. intros (done & rest & Hall & Hl & Hws & Htb).
  cbn [tb_sum workers] in *. subst ws. destruct rest as [|offset rest].
  - left. unfold finished. cbn [workers]. by apply Forall_replicate.
  - right. eexists. apply step_barrier. by apply Forall_replicate.
Qed.

Lemma in_step_progress g :
  in_step block tb_init all g → finished g ∨ ∃ g', group_step g g'.
Proof.
  intros [Hg|Hg]; [by apply between_turns_progress|].
  pose proof Hg as (done & offset & rest & D & Hall & Hl & Hlw & Hslots).
  assert (0 < offset ∧ 2 * offset ≤ block) as [Ho Hob].
  { rewrite Hall in all_bounds. apply Forall_app in all_bounds as [_ Hb].
    by apply Forall_cons_1 in Hb as [? _]. }
  set (tb0 := foldl reduce_turn tb_init done) in *.
  assert (Z.of_nat (length tb0) = block) as Hl0.
  { unfold tb0. by rewrite length_reduce_turns. }
  destruct (decide (Forall (λ l, l ∈ D) (seq 0 (Z.to_nat block)))) as [HD|HD].
  - apply between_turns_progress.
    apply (within_turn_all_done _ done offset rest D); try done.
    intros l Hlt. apply (proj1 (Forall_forall _ _) HD). apply elem_of_seq. lia.
  - right. apply not_Forall_Exists in HD; [|apply _].
    apply Exists_exists in HD as (l & Hl'%elem_of_seq & HlD).
    destruct g as [tb ws]. cbn [tb_sum workers] in *.
    destruct (Hslots l ltac:(lia)) as [Hwl _]. rewrite decide_False in Hwl by done.
    exists (Group (<[l := guarded_add offset (Z.of_nat l) tb0]> tb)
                  (<[l := code_of rest]> ws)).
    apply (step_worker tb _ ws l offset _ (Thread (Z.of_nat l) 0 block 1) Hwl);
      [done|].
    rewrite (dot_reduce_thread offset 1 block 0 (Z.of_nat l) tb0 tb
               (λ t, bool_decide (Z.to_nat t ∈ D))); try lia.
    + rewrite store_Some by lia. by rewrite Nat2Z.id.
    + apply bool_decide_eq_false. by rewrite Nat2Z.id.
    + intros t Ht. pose proof (proj2 (Hslots (Z.to_nat t) ltac:(lia))) as Hslot.
      rewrite Z2Nat.id in Hslot by lia. rewrite Hslot.
      by destruct (decide (Z.to_nat t ∈ D));
        [rewrite bool_decide_eq_true_2|rewrite bool_decide_eq_false_2].
Qed.

Lemma between_turns_finished g :
  between_turns block tb_init all g → finished g →
  tb_sum g = foldl reduce_turn tb_init all.
Proof.
  destruct g as [tb ws]. intros (done & rest & Hall & Hl & Hws & Htb) Hfin.
  unfold finished in Hfin. cbn [tb_sum workers] in *. subst ws.
  destruct rest as [|offset rest].
  - by rewrite Hall, app_nil_r.
  - by apply Forall_replicate_inv in Hfin; [|lia].
Qed.

Lemma in_step_finished g :
  in_step block tb_init all g → finished g → tb_sum g = foldl reduce_turn tb_init all.
Proof.
  intros [Hg|Hg] Hfin; [by apply between_turns_finished|].
  destruct Hg as (done & offset & rest & D & Hall & Hl & Hlw & Hslots).
  apply between_turns_finished; [|done].
  apply (within_turn_all_done _ done offset rest D); try done.
  intros l Hlt. destruct (decide (l ∈ D)) as [|HlD]; [done|].
  destruct (Hslots l Hlt) as [Hwl _]. rewrite decide_False in Hwl by done.
  by apply (Forall_lookup_1 _ _ _ _ Hfin) in Hwl.
Qed.

Lemma in_step_remaining g g' :
  in_step block tb_init all g → group_step g g' → (remaining g' < remaining g)%nat.
Proof.
  intros Hg Hstep. destruct Hstep as [tb tb' ws l offset rest th Hw _ _|tb ws Hsync].
  - by apply (remaining_insert _ _ _ _ (GuardedAdd offset)).
  - apply remaining_tail; [|done]. intros ->.
    destruct Hg as [(done & rest & _ & _ & Hws & _)|Hg]; cbn [workers] in *.
    + symmetry in Hws. apply (f_equal length) in Hws.
      rewrite length_replicate in Hws. simpl in Hws. lia.
    + destruct Hg as (_ & _ & _ & _ & _ & _ & Hlw & _).
      simpl in Hlw. lia.
Qed.

Lemma in_step_terminates g :
  in_step block tb_init all g → ∃ g', rtc group_step g g' ∧ finished g'.
Proof.
  remember (remaining g) as k eqn:Hk. revert g Hk.
  induction (lt_wf k) as [k _ IH]. intros g -> Hg.
  destruct (in_step_progress g Hg) as [Hfin|[g1 Hstep]].
  - by exists g.
  - destruct (IH (remaining g1) (in_step_remaining g g1 Hg Hstep) g1 eq_refl)
      as (g' & Hsteps & Hfin); [by apply (in_step_step g)|].
    exists g'. split; [|done]. by apply (rtc_l _ _ g1).
Qed.

End interleavings.

(** X1.  However the workers of a group of [TBSIZE] interleave between the
    barriers of the reduction loop, and whatever the arithmetic of [T] (no
    law is assumed of it), the group is never deadlocked, always reaches the
    end of the loop, and ends with the same [tb_sum], slot by slot: what the
    turns of the offsets 512 down to 1, one after the other, make of the
    [tb_sum] the loop started from.  Two runs cannot differ in the last bit
    of a sum. *)
Theorem reduction_deterministic {T : Type} `{Element T} (tb : list T) :
  Z.of_nat (length tb) = TBSIZE →
  ∀ g, rtc group_step (group_start TBSIZE tb) g →
    ¬ deadlocked g ∧
    (∃ g', rtc group_step g g' ∧ finished g') ∧
    (finished g → tb_sum g = foldl reduce_turn tb (reduce_offsets TBSIZE)).
Proof.
  intros Hl g Hg.
  assert (0 < TBSIZE < 2 ^ 63) as HTB by (unfold TBSIZE; lia).
  assert (in_step TBSIZE tb (reduce_offsets TBSIZE) (group_start TBSIZE tb)) as Hstart.
  { left. exists [], (reduce_offsets TBSIZE). by split_and!. }
  pose proof (in_step_rtc TBSIZE tb (reduce_offsets TBSIZE) HTB Hl reduce_offsets_bounds
                _ _ Hstart Hg) as Hred.
  split_and!.
  - intros [Hnf Hstuck].
    destruct (in_step_progress TBSIZE tb (reduce_offsets TBSIZE) HTB Hl
                reduce_offsets_bounds g Hred) as [?|[g' Hstep]]; [done|].
    by apply (Hstuck g').
  - by apply (in_step_terminates TBSIZE tb (reduce_offsets TBSIZE) HTB Hl
                reduce_offsets_bounds).
  - by apply (in_step_finished TBSIZE tb (reduce_offsets TBSIZE) HTB Hl).
Qed.

Lemma reduction_deterministic_witness :
  Z.of_nat (length (seqZ 1 1024)) = TBSIZE ∧
  ∀ g, rtc (@group_step Z (Z_element 3)) (group_start TBSIZE (seqZ 1 1024)) g →
    ¬ @deadlocked Z (Z_element 3) g ∧
    (∃ g', rtc (@group_step Z (Z_element 3)) g g' ∧ finished g') ∧
    (finished g →
     tb_sum g = foldl (@reduce_turn Z (Z_element 3)) (seqZ 1 1024) (reduce_offsets TBSIZE)).
Proof.
  split; [reflexivity|].
  apply (@reduction_deterministic Z (Z_element 3) (seqZ 1 1024)). reflexivity.
Defined.

(** ** Sequences of calls *)

(** A sequence of calls, in two parts. *)
Lemma run_calls_app {T} `{Element T} `{Device T} (cs1 cs2 : list (call T)) st :
  run_calls (cs1 ++ cs2) st = run_calls cs1 st ≫= run_calls cs2.
Proof.
  revert st. induction cs1 as [|c cs1 IH]; intros st; simpl; [done|].
  destruct (run_call c st) as [st'|]; simpl; [apply IH|done].
Qed.

Lemma uniform_well_formed {T} (st : HIPStream T) abc :
  1 ≤ array_size st < 2 ^ 63 → well_formed (uniform st abc).
Proof. intros Hn. split; cbn; rewrite ?length_replicate; lia. Qed.

Section suite.
Context {T : Type} `{Element T} `{Device T} `{!Fair T}.
Implicit Types (st : HIPStream T).

(** [init_arrays] and a turn of the benchmark on uniform arrays. *)
Lemma init_arrays_uniform initA initB initC st :
  well_formed st →
  init_arrays initA initB initC st = Some (uniform st (initA, initB, initC)).
Proof.
  intros Hwf. destruct (init_arrays_run initA initB initC st Hwf)
    as (a & b & c & -> & -> & -> & ->).
  destruct Hwf as [Hn Ha Hb Hc]. unfold uniform. cbn.
  assert (length (d_a st) = Z.to_nat (array_size st)) as -> by lia.
  assert (length (d_b st) = Z.to_nat (array_size st)) as -> by lia.
  assert (length (d_c st) = Z.to_nat (array_size st)) as -> by lia.
  done.
Qed.

Lemma turn_uniform st abc :
  1 ≤ array_size st < 2 ^ 63 →
  run_calls [Copy; Mul; Add; Triad] (uniform st abc) = Some (uniform st (gold_step abc)).
Proof.
  intros Hn. destruct abc as [[a b] c]. simpl.
  rewrite copy_closed by by apply uniform_well_formed. simpl.
  rewrite mul_closed by (split; cbn; rewrite ?length_replicate; lia). simpl.
  rewrite add_closed
    by (split; cbn; rewrite ?length_fmap, ?length_replicate; lia). simpl.
  rewrite triad_closed
    by (split; cbn;
        rewrite ?length_zip_with, ?length_fmap, ?length_replicate; lia).
  unfold uniform, with_a. cbn.
  by rewrite !fmap_replicate, !zip_with_replicate.
Qed.

End suite.

(** ** The value of the dot product *)

(** X2.  The value of [dot] does not depend on the device: whatever the
    order in which the threads run, whatever the memory held before it was
    written and whatever the arithmetic of [T] (no law is assumed of it, so
    this holds of floating point), [dot] returns [dot_reference], in which
    every addition has its place, and leaves in the partial sums what
    [block_partial] gives; the arrays are as they were.  Two devices
    therefore agree on it to the last bit.  This holds of empty arrays too. *)
Theorem dot_reproducible {T : Type} `{Element T} (D1 D2 : Device T)
    (st : HIPStream T) :
  @Fair T D1 → @Fair T D2 →
  0 ≤ array_size st < 2 ^ 63 →
  Z.of_nat (length (d_a st)) = array_size st →
  Z.of_nat (length (d_b st)) = array_size st →
  dot_ready st →
  @dot T _ D1 st
  = Some (dot_reference (d_a st) (d_b st) (dot_num_blocks st) (array_size st),
          with_sums st (block_partial (d_a st) (d_b st) (dot_num_blocks st)
                          (array_size st) <$> seqZ 0 (dot_num_blocks st))) ∧
  @dot T _ D2 st = @dot T _ D1 st.
Proof.
  intros F1 F2 Hn Ha Hb Hready.
  pose proof (@dot_ordered T _ D1 F1 st Hn Ha Hb Hready) as H1.
  pose proof (@dot_ordered T _ D2 F2 st Hn Ha Hb Hready) as H2.
  split; [exact H1|]. by rewrite H1, H2.
Qed.

Lemma dot_reproducible_witness :
  @dot Z (Z_element 3) in_order small_stream
  = Some (@dot_reference Z (Z_element 3) (d_a small_stream) (d_b small_stream) 2 5,
          with_sums small_stream
            (@block_partial Z (Z_element 3) (d_a small_stream) (d_b small_stream) 2 5
               <$> seqZ 0 2)) ∧
  @dot Z (Z_element 3) backwards small_stream
  = @dot Z (Z_element 3) in_order small_stream.
Proof.
  apply (@dot_reproducible Z (Z_element 3) in_order backwards small_stream).
  - exact in_order_fair.
  - exact backwards_fair.
  - cbn. lia.
  - reflexivity.
  - reflexivity.
  - exact small_stream_dot_ready.
Defined.

(** X3.  [dot] of empty arrays is zero (over exact arithmetic; all that is
    used of it is that zero plus zero is zero), and every partial sum is
    zero. *)
Theorem dot_empty {T : Type} `{Exact T} `{Device T} `{!Fair T} (st : HIPStream T) :
  array_size st = 0 → d_a st = [] → d_b st = [] → dot_ready st →
  dot st = Some (fzero, with_sums st (replicate (Z.to_nat (dot_num_blocks st)) fzero)).
Proof.
  intros Hn Ha Hb Hready. rewrite dot_ordered; [|rewrite ?Hn, ?Ha, ?Hb; done || lia..].
  rewrite Hn, Ha, Hb.
  assert (fadd fzero fzero = fzero :> T) as H00 by apply fadd_zero.
  assert (∀ l : list Z, (λ _, fzero) <$> l = replicate (length l) (fzero : T)) as Hconst.
  { intros l. by apply const_fmap. }
  assert (∀ (n : nat) i, elt (replicate n (fzero : T)) i = fzero) as Helt.
  { intros n i. unfold elt, load. destruct (decide (0 ≤ i)); [|done].
    destruct (replicate n fzero !! Z.to_nat i) as [x|] eqn:Ex; [|done].
    by apply lookup_replicate_1 in Ex as [-> _]. }
  assert (∀ (n : nat) offsets,
            foldl reduce_turn (replicate n (fzero : T)) offsets = replicate n fzero)
    as Hred.
  { intros n offsets. induction offsets as [|o offsets IH]; [done|]. simpl.
    replace (reduce_turn (replicate n fzero) o) with (replicate n (fzero : T)); [done|].
    symmetry. unfold reduce_turn. rewrite length_replicate.
    rewrite (const_fmap _ _ (fzero : T)); [by rewrite length_seqZ, Nat2Z.id|].
    intros i t _. unfold guarded_add.
    rewrite !Helt. by destruct (decide _). }
  assert (∀ blk, block_partial ([] : list T) [] (dot_num_blocks st) 0 blk = fzero)
    as Hpart.
  { intros blk. unfold block_partial.
    replace ((λ t, thread_acc [] [] (TBSIZE * dot_num_blocks st) 0 (gid TBSIZE (blk, t)))
               <$> seqZ 0 TBSIZE)
      with (replicate (length (seqZ 0 TBSIZE)) (fzero : T)).
    - by rewrite Hred, Helt.
    - symmetry. by apply const_fmap. }
  f_equal. f_equal.
  - unfold dot_reference. generalize (seqZ 0 (dot_num_blocks st)). intros l.
    induction l as [|blk l IH]; [done|]. simpl. by rewrite Hpart, H00.
  - f_equal. rewrite <- (length_seqZ 0 (dot_num_blocks st)).
    apply const_fmap. intros i blk _. apply Hpart.
Qed.

Lemma empty_stream_dot_ready : dot_ready empty_stream.
Proof. split; cbn; unfold TBSIZE; lia. Qed.

Lemma dot_empty_witness :
  @dot Z (Z_element 3) in_order empty_stream = Some (0, with_sums empty_stream [0; 0]).
Proof.
  exact (@dot_empty Z (Z_element 3) (Z_exact 3) in_order in_order_fair empty_stream
           eq_refl eq_refl eq_refl empty_stream_dot_ready).
Defined.

(** ** The kernels, call after call *)

(** X4.  [copy], [mul], [add] and [triad] can be repeated: a second call in
    a row finds everything as the first one left it and changes nothing.
    ([nstream], which adds to A, is the kernel of which this is false.) *)
Theorem kernels_idempotent {T : Type} `{Element T} `{Device T} `{!Fair T}
    (st : HIPStream T) :
  well_formed st →
  (∃ st', copy st = Some st' ∧ copy st' = Some st') ∧
  (∃ st', mul st = Some st' ∧ mul st' = Some st') ∧
  (∃ st', add st = Some st' ∧ add st' = Some st') ∧
  (∃ st', triad st = Some st' ∧ triad st' = Some st').
Proof.
  intros Hwf. pose proof Hwf as [Hn Ha Hb Hc]. split_and!.
  - rewrite copy_closed by done. eexists. split; [done|].
    by rewrite copy_closed by (split; cbn; lia).
  - rewrite mul_closed by done. eexists. split; [done|].
    by rewrite mul_closed by (split; cbn; rewrite ?length_fmap; lia).
  - rewrite add_closed by done. eexists. split; [done|].
    by rewrite add_closed by (split; cbn; rewrite ?length_zip_with; lia).
  - rewrite triad_closed by done. eexists. split; [done|].
    by rewrite triad_closed by (split; cbn; rewrite ?length_zip_with; lia).
Qed.

Lemma kernels_idempotent_witness :
  (∃ st', @copy Z backwards small_stream = Some st' ∧ @copy Z backwards st' = Some st') ∧
  (∃ st', @mul Z (Z_element 3) backwards small_stream = Some st' ∧
          @mul Z (Z_element 3) backwards st' = Some st') ∧
  (∃ st', @add Z (Z_element 3) backwards small_stream = Some st' ∧
          @add Z (Z_element 3) backwards st' = Some st') ∧
  (∃ st', @triad Z (Z_element 3) backwards small_stream = Some st' ∧
          @triad Z (Z_element 3) backwards st' = Some st').
Proof.
  exact (@kernels_idempotent Z (Z_element 3) backwards backwards_fair small_stream
           small_stream_well_formed).
Defined.

(** X5.  The benchmark: after [init_arrays a0 b0 c0] and [k] turns of
    [copy], [mul], [add], [triad], every element of A, B and C holds what
    [k] turns of [gold_step] make of [a0], [b0] and [c0]. *)
Theorem benchmark_turns {T : Type} `{Element T} `{Device T} `{!Fair T}
    (st : HIPStream T) (a0 b0 c0 : T) (k : nat) :
  well_formed st →
  run_calls (InitArrays a0 b0 c0 :: concat (replicate k [Copy; Mul; Add; Triad])) st
  = Some (uniform st (Nat.iter k gold_step (a0, b0, c0))).
Proof.
  intros Hwf. pose proof Hwf as [Hn _ _ _].
  cbn [run_calls run_call]. rewrite init_arrays_uniform by done.
  cbn [mbind option_bind].
  induction k as [|k IH]; [done|].
  replace (S k) with (k + 1)%nat by lia.
  rewrite replicate_add, concat_app, run_calls_app, IH. cbn [mbind option_bind].
  cbn [replicate concat]. rewrite app_nil_r.
  change (uniform st (Nat.iter k gold_step (a0, b0, c0)))
    with (uniform (uniform st (Nat.iter k gold_step (a0, b0, c0)))
            (Nat.iter k gold_step (a0, b0, c0))) at 1.
  rewrite turn_uniform by done.
  by rewrite Nat.add_1_r.
Qed.

Lemma benchmark_turns_witness :
  @run_calls Z (Z_element 3) in_order
    (InitArrays 1 2 0 :: concat (replicate 2 [Copy; Mul; Add; Triad])) small_stream
  = Some (uniform small_stream (Nat.iter 2 (@gold_step Z (Z_element 3)) (1, 2, 0))).
Proof.
  exact (@benchmark_turns Z (Z_element 3) in_order in_order_fair small_stream 1 2 0 2
           small_stream_well_formed).
Defined.

(** X6.  No sequence of calls on a stream with arrays of [array_size]
    elements and one partial sum per block ever goes past the end of a
    buffer: every call returns, and the stream stays as the next call needs
    it.  No law is assumed of the arithmetic. *)
Theorem calls_never_fault {T : Type} `{Element T} `{Device T} `{!Fair T}
    (cs : list (call T)) (st : HIPStream T) :
  well_formed st → dot_ready st →
  ∃ st', run_calls cs st = Some st' ∧ well_formed st' ∧ dot_ready st' ∧
         array_size st' = array_size st ∧ dot_num_blocks st' = dot_num_blocks st.
Proof.
  revert st. induction cs as [|c cs IH]; intros st Hwf Hdr.
  { exists st. by split_and!. }
  assert (∃ st1, run_call c st = Some st1 ∧ well_formed st1 ∧ dot_ready st1 ∧
                 array_size st1 = array_size st ∧
                 dot_num_blocks st1 = dot_num_blocks st) as (st1 & Hc & Hwf1 & Hdr1 & Hn1 & Hd1).
  { pose proof Hwf as [Hn Ha Hb Hc]. pose proof Hdr as [Hblocks H32 Hsums].
    destruct c; cbn [run_call].
    - rewrite init_arrays_uniform by done. eexists. split; [done|].
      split; [by apply uniform_well_formed|]. by split_and!.
    - rewrite copy_closed by done. eexists. split; [done|].
      split; [split; cbn; lia|]. by split_and!.
    - rewrite mul_closed by done. eexists. split; [done|].
      split; [split; cbn; rewrite ?length_fmap; lia|]. by split_and!.
    - rewrite add_closed by done. eexists. split; [done|].
      split; [split; cbn; rewrite ?length_zip_with; lia|]. by split_and!.
    - rewrite triad_closed by done. eexists. split; [done|].
      split; [split; cbn; rewrite ?length_zip_with; lia|]. by split_and!.
    - rewrite nstream_closed by done. eexists. split; [done|].
      split; [split; cbn; rewrite ?length_zip_with; lia|]. by split_and!.
    - rewrite dot_ordered by (done || lia). eexists. split; [done|].
      split; [by split|]. split; [|done].
      split; cbn; [done..|]. rewrite length_fmap, length_seqZ. lia. }
  destruct (IH st1 Hwf1 Hdr1) as (st' & Hrun & Hwf' & Hdr' & Hn' & Hd').
  exists st'. cbn [run_calls]. rewrite Hc. cbn [mbind option_bind].
  split; [done|]. split; [done|]. split; [done|]. split; congruence.
Qed.

Lemma calls_never_fault_witness :
  ∃ st', @run_calls Z (Z_element 3) backwards
           [Nstream; Dot; InitArrays 1 2 0; Triad; Dot; Copy; Add; Mul] small_stream
         = Some st' ∧
         well_formed st' ∧ dot_ready st' ∧
         array_size st' = array_size small_stream ∧
         dot_num_blocks st' = dot_num_blocks small_stream.
Proof.
  exact (@calls_never_fault Z (Z_element 3) backwards backwards_fair _ small_stream
           small_stream_well_formed small_stream_dot_ready).
Defined.

(** ** The loops of a launch *)

(** The indices the loop of a thread hands to its body, in their order. *)
Lemma grid_stride_indices n g stride fuel :
  0 < stride → n + stride ≤ 2 ^ 64 →
  ∀ i log,
    0 ≤ i → i mod stride = g → n - i ≤ Z.of_nat fuel →
    grid_stride fuel record_index i stride n log
    = Some (log ++ filter (λ j, j mod stride = g) (seqZ i (n - i))).
Proof.
  intros Hs Hwrap.
  induction fuel as [|fuel IH]; intros i log Hi Hmod Hfuel; simpl.
  - rewrite (proj2 (Z.ltb_ge i n)) by lia. by rewrite seqZ_nil, app_nil_r by lia.
  - destruct (Z.ltb_spec i n) as [Hlt|Hge]; [|by rewrite seqZ_nil, app_nil_r by lia].
    unfold record_index at 1. simpl. rewrite size_t_small by lia.
    rewrite (visited_from stride n g i) by done.
    rewrite IH; [by rewrite <- (assoc_L (++))|lia| |lia].
    rewrite <- Hmod. rewrite <- (Z.mul_1_l stride) at 1. apply Z.mod_add. lia.
Qed.

(** The indices of a thread and of the threads of a schedule. *)
Lemma thread_indices grid block n fuel b t log :
  0 ≤ b < grid → 0 ≤ t < block → 1 ≤ n → n + grid * block ≤ 2 ^ 64 →
  n ≤ Z.of_nat fuel →
  grid_stride fuel record_index (global_id (Thread t b block grid))
    (grid_size (Thread t b block grid)) n log
  = Some (log ++ visited (grid * block) n (gid block (b, t))).
Proof.
  intros Hb Ht Hn Hwrap Hfuel.
  pose proof (gid_bounds grid block b t Hb Ht) as Hg. unfold gid in *. cbn [fst snd] in *.
  unfold global_id, grid_size. cbn [threadIdx blockIdx blockDim gridDim].
  rewrite (size_t_small (block * b)) by nia.
  rewrite (size_t_small (t + block * b)), (size_t_small (grid * block)) by nia.
  rewrite (grid_stride_indices n (t + block * b) (grid * block)); try nia.
  - by rewrite visited_start by lia.
  - apply Z.mod_small. lia.
Qed.

Lemma run_threads_indices grid block n fuel :
  1 ≤ n → n + grid * block ≤ 2 ^ 64 → n ≤ Z.of_nat fuel →
  ∀ sched log,
    (∀ bt, bt ∈ sched → bt ∈ threads grid block) →
    run_threads grid block
      (λ th log, grid_stride fuel record_index (global_id th) (grid_size th) n log)
      sched log
    = Some (log ++ (bt ← sched; visited (grid * block) n (gid block bt))).
Proof.
  intros Hn Hwrap Hfuel.
  induction sched as [|[b t] sched IH]; intros log Hin; cbn [run_threads].
  { by rewrite app_nil_r. }
  assert ((b, t) ∈ threads grid block) as [Hb Ht]%elem_of_threads by (apply Hin; left).
  rewrite thread_indices by done. cbn [mbind option_bind].
  rewrite IH by (intros bt Hbt; apply Hin; by right).
  by rewrite <- (assoc_L (++)), bind_cons.
Qed.

(** X7.  Between them, the loops of the threads of a launch hand every index
    below [n] to the body exactly once, whatever the order of the threads:
    no element is left out and none is written by two threads. *)
Theorem every_index_once {T : Type} `{Device T} `{!Fair T} (grid block n : Z)
    (fuel : nat) :
  0 < grid → 0 < block → 1 ≤ n → n + grid * block ≤ 2 ^ 64 → n ≤ Z.of_nat fuel →
  ∃ log,
    launch grid block
      (λ th log, grid_stride fuel record_index (global_id th) (grid_size th) n log) []
    = Some log ∧
    log ≡ₚ seqZ 0 n.
Proof.
  intros Hgrid Hblock Hn Hwrap Hfuel. unfold launch.
  rewrite (run_threads_indices grid block n fuel) by
    (try done; intros bt; by rewrite (fair grid block)).
  eexists. split; [done|]. simpl.
  rewrite (fair grid block).
  rewrite <- (visited_all (grid * block) n) by nia.
  rewrite <- (gid_threads grid block) by done.
  by rewrite list_fmap_bind.
Qed.

Lemma every_index_once_witness :
  ∃ log,
    @launch Z backwards (list Z) 2 4
      (λ th log, grid_stride 7 record_index (global_id th) (grid_size th) 7 log) []
    = Some log ∧
    log ≡ₚ seqZ 0 7.
Proof.
  apply (@every_index_once Z backwards backwards_fair 2 4 7 7); lia.
Defined.

(** ** Kernels on arrays that are too short *)




Section short.
Context {T : Type} `{Element T} `{Device T} `{!Fair T}.
Implicit Types (st m : HIPStream T).





End short.


Example wrapped_stream_constructed :
  @HIPStream_new Z in_order DeviceOnly one_gpu 8 (2 ^ 61) 0
  = ([PartialSums; BufferA; BufferB; BufferC], inr wrapped_stream).
Proof. vm_compute. reflexivity. Qed.


(** ** Construction and destruction *)

Section more_constructor.
Context {T : Type} `{Device T}.
Implicit Types (r : Residency) (rt : runtime).

(** A fresh buffer of [n] elements. *)
Lemma length_fresh sizeofT n :
  0 < sizeofT → 0 ≤ n → Z.of_nat (length (fresh (T:=T) sizeofT (sizeofT * n))) = n.
Proof.
  intros Hs Hn. unfold fresh. rewrite length_fmap, length_seqZ.
  rewrite Z.mul_comm, Z.div_mul by lia. lia.
Qed.

End more_constructor.

(** X9.  A construction in which every call of the runtime succeeds and the
    three arrays fit, with sizes that do not wrap, returns a stream that
    owns the four buffers, with arrays of [ARRAY_SIZE] elements and one
    partial sum for each of the [4 * multiProcessorCount] blocks: the
    kernels and [dot] find it as they need it. *)
Theorem construct_succeeds {T : Type} `{Device T} (r : Residency) (rt : runtime)
    (sizeofT ARRAY_SIZE device_index : Z) :
  let props := (hipGetDeviceProperties rt device_index).2 in
  let blocks := multiProcessorCount props * 4 in
  reaches_memory_check rt device_index (size_t (sizeofT * size_t blocks)) →
  arrays_allocated r rt (sizeofT * ARRAY_SIZE) →
  0 < sizeofT → 1 ≤ ARRAY_SIZE < 2 ^ 63 →
  3 * sizeofT * ARRAY_SIZE < 2 ^ 64 →
  3 * sizeofT * ARRAY_SIZE ≤ totalGlobalMem props →
  1 ≤ blocks → TBSIZE * blocks < 2 ^ 32 → sizeofT * blocks < 2 ^ 64 →
  ∃ st : HIPStream T,
    HIPStream_new r rt sizeofT ARRAY_SIZE device_index
      = ([PartialSums; BufferA; BufferB; BufferC], inr st) ∧
    array_size st = ARRAY_SIZE ∧ dot_num_blocks st = blocks ∧
    well_formed st ∧ dot_ready st.
Proof.
  intros props blocks (H1 & H2 & H3 & H4 & H5 & H6) Halloc Hs Hn Hfit Hmem Hb H32 Hsb.
  subst props blocks.
  unfold HIPStream_new, construct, getDeviceName, getDeviceDriver, ctor_bind,
    check_error, allocated, throw, ctor_ret.
  rewrite H1, H3, H4, H5, H6, Z.geb_leb, (proj2 (Z.leb_gt _ _)) by lia.
  rewrite array_bytes_exact by lia.
  rewrite (proj2 (Z.ltb_ge _ _)) by lia.
  rewrite (size_t_small ARRAY_SIZE) by lia.
  rewrite (size_t_small (sizeofT * ARRAY_SIZE)) by nia.
  unfold TBSIZE in H32.
  rewrite (size_t_small (multiProcessorCount _ * 4)) by lia.
  rewrite (size_t_small (sizeofT * _)) by lia.
  assert (Z.of_nat (length (fresh (T:=T) sizeofT (sizeofT * ARRAY_SIZE))) = ARRAY_SIZE)
    as Hlen by (apply length_fresh; lia).
  assert (Z.of_nat (length (fresh (T:=T) sizeofT
                              (sizeofT * (multiProcessorCount
                                            (hipGetDeviceProperties rt device_index).2 * 4))))
          = multiProcessorCount (hipGetDeviceProperties rt device_index).2 * 4)
    as Hsums by (apply length_fresh; lia).
  destruct r; cbn [arrays_allocated] in Halloc; rewrite ?Halloc by done;
    cbn [fst snd app]; eexists; (split; [reflexivity|]);
    cbn [array_size dot_num_blocks]; (split; [done|]); (split; [done|]);
    split; split; cbn [array_size dot_num_blocks sums d_a d_b d_c]; done || lia.
Qed.

Lemma construct_succeeds_witness :
  ∃ st : HIPStream Z,
    @HIPStream_new Z in_order Managed one_gpu 8 1000 0
      = ([PartialSums; BufferA; BufferB; BufferC], inr st) ∧
    array_size st = 1000 ∧ dot_num_blocks st = 60 * 4 ∧
    well_formed st ∧ dot_ready st.
Proof.
  apply (@construct_succeeds Z in_order Managed one_gpu 8 1000 0).
  - by split_and!.
  - intros buf _. reflexivity.
  - lia.
  - lia.
  - lia.
  - cbn. lia.
  - cbn. lia.
  - cbn. unfold TBSIZE. lia.
  - cbn. lia.
Defined.

(** X10.  A construction that fails has not allocated C, and what it has
    allocated was allocated in the order of the code, partial sums first:
    the constructor releases nothing when it fails.  After [InvalidDevice]
    nothing is allocated, and something is allocated only when the device
    was counted, selected and asked for its properties and its driver; the
    error that [check_error] exits with is never [hipSuccess]. *)
Theorem failed_construction_buffers {T : Type} `{Device T} (r : Residency)
    (rt : runtime) (sizeofT ARRAY_SIZE device_index : Z) (bufs : list buffer)
    (f : failure) :
  HIPStream_new (T:=T) r rt sizeofT ARRAY_SIZE device_index = (bufs, inl f) →
  bufs `prefix_of` [PartialSums; BufferA; BufferB] ∧
  (f = InvalidDevice → bufs = []) ∧
  (bufs ≠ [] →
     reaches_memory_check rt device_index
       (size_t (sizeofT * size_t (multiProcessorCount
                                    (hipGetDeviceProperties rt device_index).2 * 4)))) ∧
  f ≠ DeviceOperationFailed hipSuccess.
Proof.
  run_ctor; intros ?; simplify_eq; (split; [by eexists|]); (split; [done|]);
    (split; [|done]); try done; intros _; unfold reaches_memory_check;
    split_and!; (done || lia).
Qed.

Lemma failed_construction_buffers_witness :
  @HIPStream_new Z in_order DeviceOnly busy_gpu 8 1000 0
    = ([PartialSums; BufferA], inl (DeviceOperationFailed (hipError 2))) ∧
  [PartialSums; BufferA] `prefix_of` [PartialSums; BufferA; BufferB] ∧
  (DeviceOperationFailed (hipError 2) = InvalidDevice → [PartialSums; BufferA] = []) ∧
  ([PartialSums; BufferA] ≠ [] →
     reaches_memory_check busy_gpu 0
       (size_t (8 * size_t (multiProcessorCount
                              (hipGetDeviceProperties busy_gpu 0).2 * 4)))) ∧
  DeviceOperationFailed (hipError 2) ≠ DeviceOperationFailed hipSuccess.
Proof.
  split; [vm_compute; reflexivity|].
  apply (@failed_construction_buffers Z in_order DeviceOnly busy_gpu 8 1000 0).
  vm_compute. reflexivity.
Defined.

(** X11.  A negative length is caught by the check of the memory: as a
    [size_t] it is so large that, unless its magnitude is itself beyond what
    64 bits hold, the three arrays exceed any memory, and the construction
    fails with [InsufficientMemory]. *)
Theorem negative_size_rejected {T : Type} `{Device T} (r : Residency) (rt : runtime)
    (sizeofT ARRAY_SIZE device_index : Z) :
  let props := (hipGetDeviceProperties rt device_index).2 in
  reaches_memory_check rt device_index
    (size_t (sizeofT * size_t (multiProcessorCount props * 4))) →
  0 < sizeofT → ARRAY_SIZE < 0 → 0 ≤ totalGlobalMem props →
  3 * sizeofT * - ARRAY_SIZE + totalGlobalMem props < 2 ^ 64 →
  HIPStream_new (T:=T) r rt sizeofT ARRAY_SIZE device_index
  = ([PartialSums], inl InsufficientMemory).
Proof.
  intros props Hreach Hs Hneg Hmem Hsmall.
  assert (- ARRAY_SIZE ≤ sizeofT * - ARRAY_SIZE) as Hle by nia.
  assert (size_t ARRAY_SIZE = 2 ^ 64 + ARRAY_SIZE) as E1.
  { unfold size_t. symmetry. apply (Z.mod_unique _ _ (-1)); nia. }
  assert (size_t (sizeofT * size_t ARRAY_SIZE) = 2 ^ 64 + sizeofT * ARRAY_SIZE) as E2.
  { rewrite E1. unfold size_t. symmetry. apply (Z.mod_unique _ _ (sizeofT - 1)); nia. }
  assert (size_t (3 * size_t (sizeofT * size_t ARRAY_SIZE))
          = 2 ^ 64 + 3 * sizeofT * ARRAY_SIZE) as E3.
  { rewrite E2. unfold size_t. symmetry. apply (Z.mod_unique _ _ 2); nia. }
  pose proof (proj2 (construct_memory_check r rt sizeofT ARRAY_SIZE device_index Hreach))
    as Hthrown.
  fold props in Hthrown. rewrite E3 in Hthrown. specialize (Hthrown ltac:(lia)).
  destruct (HIPStream_new r rt sizeofT ARRAY_SIZE device_index) as [bufs res] eqn:E.
  cbn [snd] in Hthrown. subst res.
  by apply construct_InsufficientMemory in E as [-> _].
Qed.

Lemma negative_size_rejected_witness :
  @HIPStream_new Z in_order DeviceOnly one_gpu 8 (-1) 0
  = ([PartialSums], inl InsufficientMemory).
Proof.
  apply (@negative_size_rejected Z in_order DeviceOnly one_gpu 8 (-1) 0).
  - by split_and!.
  - lia.
  - lia.
  - cbn. lia.
  - cbn. lia.
Defined.

(** X12.  The destructor returns exactly when its four release calls
    succeed, and then no buffer is left; when one fails, [check_error] ends
    the process at that call, and C, which is released last, is still
    allocated if it was.  It never allocates. *)
Theorem delete_outcome (rl : release) (bufs : list buffer) :
  ((HIPStream_delete rl bufs).2 = inr () ↔
     hipHostFree rl = hipSuccess ∧ hipFree rl BufferA = hipSuccess ∧
     hipFree rl BufferB = hipSuccess ∧ hipFree rl BufferC = hipSuccess) ∧
  ((HIPStream_delete rl bufs).2 = inr () → (HIPStream_delete rl bufs).1 = []) ∧
  ((HIPStream_delete rl bufs).2 ≠ inr () →
     BufferC ∈ bufs → BufferC ∈ (HIPStream_delete rl bufs).1) ∧
  (∀ buf, buf ∈ (HIPStream_delete rl bufs).1 → buf ∈ bufs).
Proof.
  assert (∀ (l : list buffer),
            filter (λ b, b ≠ BufferC)
              (filter (λ b, b ≠ BufferB)
                 (filter (λ b, b ≠ BufferA) (filter (λ b, b ≠ PartialSums) l))) = [])
    as Hall.
  { intros l. induction l as [|[] l IH]; [done|..];
      repeat (rewrite ?filter_cons_True by done; rewrite ?filter_cons_False by naive_solver);
      done. }
  unfold HIPStream_delete, released, ctor_bind, check_error, throw, ctor_ret.
  destruct (hipHostFree rl) eqn:E0; cbn [fst snd];
    [|split_and!; [split; [done|by intros [? _]]|done|done|done]].
  destruct (hipFree rl BufferA) eqn:Ea; cbn [fst snd].
  2: { split_and!; [split; [done|by intros (_ & ? & _)]|done| |].
       - intros _ Hc. apply list_elem_of_filter. by split.
       - by intros buf [_ ?]%list_elem_of_filter. }
  destruct (hipFree rl BufferB) eqn:Eb; cbn [fst snd].
  2: { split_and!; [split; [done|by intros (_ & _ & ? & _)]|done| |].
       - intros _ Hc. rewrite !list_elem_of_filter. by split_and!.
       - intros buf. rewrite !list_elem_of_filter. tauto. }
  destruct (hipFree rl BufferC) eqn:Ec; cbn [fst snd].
  2: { split_and!; [split; [done|by intros (_ & _ & _ & ?)]|done| |].
       - intros _ Hc. rewrite !list_elem_of_filter. by split_and!.
       - intros buf. rewrite !list_elem_of_filter. tauto. }
  rewrite Hall. split_and!; [done|done|done|]. by intros buf ?%elem_of_nil.
Qed.

(** ** The number of blocks *)

(** X13.  [ceil_div] rounds up when the sum it computes fits 64 bits: the
    grid it gives is the smallest one that covers the array. *)
Theorem ceil_div_rounds_up (a b : Z) :
  0 ≤ a → 0 < b → a + b - 1 < 2 ^ 64 →
  (ceil_div a b - 1) * b < a ≤ ceil_div a b * b.
Proof.
  intros Ha Hb Hfit. unfold ceil_div. rewrite size_t_small by lia.
  pose proof (Z.div_mod (a + b - 1) b ltac:(lia)) as Hdm.
  pose proof (Z.mod_pos_bound (a + b - 1) b Hb) as Hm. nia.
Qed.

Lemma ceil_div_rounds_up_witness : (ceil_div 1025 TBSIZE - 1) * TBSIZE < 1025 ≤ ceil_div 1025 TBSIZE * TBSIZE.
Proof. apply ceil_div_rounds_up; unfold TBSIZE; lia. Defined.

(** X14.  When that sum does not fit 64 bits, [ceil_div] is zero: past
    [2^64 - b] elements, no block is asked for. *)
Theorem ceil_div_wraps (a b : Z) :
  0 < b < 2 ^ 64 → a < 2 ^ 64 → 2 ^ 64 ≤ a + b - 1 → ceil_div a b = 0.
Proof.
  intros Hb Ha Hwrap. unfold ceil_div, size_t.
  replace ((a + b - 1) mod 2 ^ 64) with (a + b - 1 - 2 ^ 64).
  - apply Z.div_small. lia.
  - apply (Z.mod_unique _ _ 1); lia.
Qed.

Lemma ceil_div_wraps_witness : ceil_div (size_t (-1)) TBSIZE = 0.
Proof. apply ceil_div_wraps; unfold TBSIZE; vm_compute; done. Defined.

(** ** Reading the arrays back, past the end *)



Example delete_after_construction :
  HIPStream_delete (Release hipSuccess (λ _, hipSuccess))
    [PartialSums; BufferA; BufferB; BufferC] = ([], inr ()).
Proof. vm_compute. reflexivity. Qed.

Example delete_keeps_b :
  HIPStream_delete keeps_b [PartialSums; BufferA; BufferB; BufferC]
  = ([BufferB; BufferC], inl (DeviceOperationFailed (hipError 1))).
Proof. vm_compute. reflexivity. Qed.

(** ** Listing the devices *)

(** The loop of [listDevices] when every device answers, and when one
    does not. *)
Lemma list_names_all rt names (devices : list Z) :
  (∀ i, i ∈ devices → (hipGetDeviceProperties rt i).1 = hipSuccess) →
  list_names rt names devices = (i ← devices; device_line i (names i), inr ()).
Proof.
  induction devices as [|i devices IH]; intros Hok; [done|].
  cbn [list_names]. unfold deviceName at 1. rewrite Hok by left.
  rewrite IH by (intros j Hj; apply Hok; by right). done.
Qed.

Lemma list_names_stops rt names (before after : list Z) k code :
  (∀ i, i ∈ before → (hipGetDeviceProperties rt i).1 = hipSuccess) →
  (hipGetDeviceProperties rt k).1 = hipError code →
  list_names rt names (before ++ k :: after)
  = ((i ← before; device_line i (names i)) ++
       [(Cout, Number k); (Cout, Text ": ")] ++ error_report (hipError code),
     inl (DeviceOperationFailed (hipError code))).
Proof.
  intros Hok Hk. induction before as [|i before IH].
  - cbn [app list_names]. unfold deviceName. by rewrite Hk.
  - cbn [app list_names]. unfold deviceName at 1. rewrite Hok by left.
    rewrite IH by (intros j Hj; apply Hok; by right). done.
Qed.

(** X16.  When the devices can be counted and every one of them answers,
    [listDevices] writes to the standard output, between a heading and an
    empty line, one line for each device, from 0 to the last, in this order,
    and returns.  With a negative count there is no such line. *)
Theorem listDevices_lists (rt : runtime) (names : Z → string) :
  (hipGetDeviceCount rt).1 = hipSuccess →
  (hipGetDeviceCount rt).2 ≠ 0 →
  (∀ i, 0 ≤ i < (hipGetDeviceCount rt).2 → (hipGetDeviceProperties rt i).1 = hipSuccess) →
  listDevices rt names
  = ([(Cout, Endl); (Cout, Text "Devices:"); (Cout, Endl)] ++
       (i ← seqZ 0 (hipGetDeviceCount rt).2; device_line i (names i)) ++ [(Cout, Endl)],
     inr ()).
Proof.
  intros Hcount Hne Hok. unfold listDevices. rewrite Hcount.
  rewrite (proj2 (Z.eqb_neq _ _)) by done.
  rewrite list_names_all; [done|]. intros i Hi%elem_of_seqZ. apply Hok. lia.
Qed.

Lemma listDevices_lists_witness :
  listDevices one_gpu gpu_names
  = ([(Cout, Endl); (Cout, Text "Devices:"); (Cout, Endl)] ++
       (i ← seqZ 0 1; device_line i (gpu_names i)) ++ [(Cout, Endl)],
     inr ()).
Proof.
  apply (listDevices_lists one_gpu gpu_names).
  - reflexivity.
  - discriminate.
  - intros i Hi. cbn. by rewrite decide_True by (cbn in Hi; lia).
Defined.

(** X17.  When device [k] is the first that does not answer, [listDevices]
    ends the process with the error of that device, after the heading and
    the lines of the devices before [k]; what it writes after them is the
    report of the error and at most the number of device [k]: no line of a
    later device. *)
Theorem listDevices_stops (rt : runtime) (names : Z → string) (k : Z) code :
  (hipGetDeviceCount rt).1 = hipSuccess →
  0 ≤ k < (hipGetDeviceCount rt).2 →
  (∀ i, 0 ≤ i < k → (hipGetDeviceProperties rt i).1 = hipSuccess) →
  (hipGetDeviceProperties rt k).1 = hipError code →
  ∃ rest,
    listDevices rt names
    = ([(Cout, Endl); (Cout, Text "Devices:"); (Cout, Endl)] ++
         (i ← seqZ 0 k; device_line i (names i)) ++ rest,
       inl (DeviceOperationFailed (hipError code))) ∧
    Forall (λ ct, ct.1 = Cerr ∨ ct = (Cout, Number k) ∨ ct = (Cout, Text ": ")) rest.
Proof.
  intros Hcount Hk Hok Hfail.
  assert (listDevices rt names
          = ([(Cout, Endl); (Cout, Text "Devices:"); (Cout, Endl)] ++
               (i ← seqZ 0 k; device_line i (names i)) ++
               [(Cout, Number k); (Cout, Text ": ")] ++ error_report (hipError code),
             inl (DeviceOperationFailed (hipError code)))) as ->.
  { unfold listDevices. rewrite Hcount.
    rewrite (proj2 (Z.eqb_neq _ _)) by lia.
    replace (hipGetDeviceCount rt).2 with (k + ((hipGetDeviceCount rt).2 - k)) at 1
      by lia.
    rewrite seqZ_app by lia. rewrite (seqZ_cons (0 + k)) by lia.
    rewrite (list_names_stops rt names _ _ _ code).
    - by rewrite Z.add_0_l, app_nil_r.
    - intros i Hi%elem_of_seqZ. apply Hok. lia.
    - by rewrite Z.add_0_l. }
  eexists. split; [done|]. unfold error_report. cbn [app].
  repeat (apply Forall_cons_2; [cbn; auto|]). apply Forall_nil_2.
Qed.

Lemma listDevices_stops_witness :
  ∃ rest,
    listDevices three_gpus gpu_names
    = ([(Cout, Endl); (Cout, Text "Devices:"); (Cout, Endl)] ++
         (i ← seqZ 0 2; device_line i (gpu_names i)) ++ rest,
       inl (DeviceOperationFailed (hipError 101))) ∧
    Forall (λ ct, ct.1 = Cerr ∨ ct = (Cout, Number 2) ∨ ct = (Cout, Text ": ")) rest.
Proof.
  apply (listDevices_stops three_gpus gpu_names 2 101).
  - reflexivity.
  - cbn. lia.
  - intros i Hi. cbn. by rewrite decide_True by lia.
  - reflexivity.
Defined.
